(** * Auton-Replayer: record / replay engine of [src/auton_replay.cpp]

    A shallow embedding of the [AutonReplay] class (recorder, persistence
    layer and drift-corrected player) together with the facts its
    specification states about it.

    Conventions of the embedding:
    - fixed-width integers are [Z] with the wrap-around written out;
    - a C++ [float] is its IEEE-754 binary32 bit pattern; the arithmetic
      is the binary32 instance ([prec = 24], [emax = 128]) of the
      standard library's [SpecFloat];
    - the hardware (controller, IMU, motors, pneumatics, screen, clock,
      SD card) is an explicit [World]: sensors are read from an oracle
      indexed by the clock, commands are appended to a trace, the clock
      advances in [pros::delay] only;
    - loops that the C++ text does not bound are given fuel and return
      [None] when it runs out. *)

From Stdlib Require Import String ZArith List Bool Lia.
From Stdlib Require Import Floats.SpecFloat.
Import ListNotations.
Open Scope Z_scope.

(** ** Fixed-width integers *)

Module MachineInt.

Definition U32_MOD : Z := 2 ^ 32.
Definition INT_MAX : Z := 2 ^ 31 - 1.
Definition INT_MIN : Z := - 2 ^ 31.

(** Conversion to [uint32_t], [uint8_t] and [int8_t]. *)
Definition to_u32 (z : Z) : Z := z mod U32_MOD.
Definition to_u8 (z : Z) : Z := z mod 256.
Definition to_i8 (z : Z) : Z := (z + 128) mod 256 - 128.

Definition is_u32 (z : Z) : Prop := 0 <= z < U32_MOD.
Definition is_u8 (z : Z) : Prop := 0 <= z < 256.
Definition is_i8 (z : Z) : Prop := -128 <= z < 128.

End MachineInt.
Import MachineInt.

(** ** binary32 arithmetic *)

(** A [float] is its 32-bit pattern.  An operation decodes its operands,
    computes with the binary32 instance of [SpecFloat] (round to nearest,
    ties to even) and encodes the result. *)
Module F32.

Definition prec : Z := 24.
Definition emax : Z := 128.

(** Decoding of a bit pattern: bit 31 is the sign, bits 30..23 the
    biased exponent, bits 22..0 the fraction. *)
Definition of_bits (b : Z) : spec_float :=
  let s := Z.testbit b 31 in
  let e := Z.land (Z.shiftr b 23) 255 in
  let m := Z.land b (2 ^ 23 - 1) in
  if e =? 0 then
    match m with
    | Zpos p => S754_finite s p (-149)
    | _ => S754_zero s
    end
  else if e =? 255 then
    (if m =? 0 then S754_infinity s else S754_nan)
  else
    match m + 2 ^ 23 with
    | Zpos p => S754_finite s p (e - 150)
    | _ => S754_nan
    end.

(** Encoding (NaN as the quiet NaN [0x7FC00000]). *)
Definition to_bits (x : spec_float) : Z :=
  let sign (s : bool) := if s then 2 ^ 31 else 0 in
  match x with
  | S754_zero s => sign s
  | S754_infinity s => sign s + 255 * 2 ^ 23
  | S754_nan => 255 * 2 ^ 23 + 2 ^ 22
  | S754_finite s m e =>
      if Zpos m <? 2 ^ 23 then sign s + Zpos m
      else sign s + ((e + 150) mod 256) * 2 ^ 23 + (Zpos m - 2 ^ 23) mod 2 ^ 23
  end.

Definition add (a b : Z) : Z := to_bits (SFadd prec emax (of_bits a) (of_bits b)).
Definition sub (a b : Z) : Z := to_bits (SFsub prec emax (of_bits a) (of_bits b)).
Definition mul (a b : Z) : Z := to_bits (SFmul prec emax (of_bits a) (of_bits b)).

(** [a < b] and [a > b] as C++ evaluates them: false on NaN. *)
Definition lt (a b : Z) : bool := SFltb (of_bits a) (of_bits b).
Definition gt (a b : Z) : bool := SFltb (of_bits b) (of_bits a).

(** Conversion of an [int] to [float]. *)
Definition of_int (z : Z) : Z := to_bits (binary_normalize prec emax z 0 false).

(** [static_cast<int>(x)]: truncation toward zero.  The conversion is
    undefined for NaN, the infinities and values outside [int]. *)
Definition to_int (a : Z) : option Z :=
  match of_bits a with
  | S754_zero _ => Some 0
  | S754_finite s m e =>
      let mag := match e with
                 | Zneg p => Z.shiftr (Zpos m) (Zpos p)
                 | _ => Z.shiftl (Zpos m) e
                 end in
      let v := if s then - mag else mag in
      if (INT_MIN <=? v) && (v <=? INT_MAX) then Some v else None
  | _ => None
  end.

End F32.

(** ** Data model ([include/auton_replay.h]) *)

Record RecordedFrame := mkFrame {
  timestamp : Z;    (* uint32_t, ms since recording started *)
  leftStick : Z;    (* int8_t *)
  rightStick : Z;   (* int8_t *)
  heading : Z;      (* float, as its binary32 bit pattern *)
  buttons : Z       (* uint8_t bit mask *)
}.

Definition frame_wf (f : RecordedFrame) : Prop :=
  is_u32 (timestamp f) /\ is_i8 (leftStick f) /\ is_i8 (rightStick f) /\
  is_u32 (heading f) /\ is_u8 (buttons f).

(** Button bit positions. *)
Definition BTN_R1 : Z := 0.
Definition BTN_R2 : Z := 1.
Definition BTN_L1 : Z := 2.
Definition BTN_L2 : Z := 3.
Definition BTN_X : Z := 4.
Definition BTN_A : Z := 5.
Definition BTN_B : Z := 6.

(** The object's fields.  [filePath] is the constant
    ["/usd/auton_recording.bin"]: the [World] holds that one file. *)
Record AutonReplay := mkAutonReplay {
  recording : list RecordedFrame;
  recordStartTime : Z;
  _isRecording : bool;
  _isPlaying : bool;
  prevButtons : Z;
  imuCorrectionGain : Z   (* float, as its binary32 bit pattern *)
}.

(** The seven [static bool] locals of [playback]: they are initialised
    once, when control first passes their declaration, and live for the
    rest of the program. *)
Record Latches := mkLatches {
  intakeForward : bool;
  intakeReverse : bool;
  outtakeForward : bool;
  outtakeReverse : bool;
  midScoring : bool;
  descore : bool;
  unloader : bool
}.

(** ** The hardware *)

Inductive Color :=
| COLOR_RED | COLOR_DARK_RED | COLOR_GREEN | COLOR_DARK_GREEN
| COLOR_BLACK | COLOR_YELLOW | COLOR_WHITE.

Inductive Digital :=
| DIGITAL_R1 | DIGITAL_R2 | DIGITAL_L1 | DIGITAL_L2
| DIGITAL_X | DIGITAL_A | DIGITAL_B.

(** Commands sent to the collaborators, in the order they are issued. *)
Inductive Event :=
| LeftMotorsMove (v : Z)
| RightMotorsMove (v : Z)
| IntakeMove (v : Z)
| OuttakeMove (v : Z)
| MidScoringSet (b : bool)
| DescoreSet (b : bool)
| UnloaderSet (b : bool)
| ImuSetHeading (h : Z)
| MasterPrint (line col : Z) (fmt : string) (args : list Z)
| MasterRumble (pattern : string)
| ScreenSetPen (c : Color)
| ScreenFillCircle (x y r : Z)
| ScreenFillRect (x0 y0 x1 y1 : Z)
| ScreenPrint (x y : Z) (fmt : string) (args : list Z).

(** Commands that drive a motor or a pneumatic actuator. *)
Definition is_actuator_command (e : Event) : bool :=
  match e with
  | LeftMotorsMove _ | RightMotorsMove _ | IntakeMove _ | OuttakeMove _
  | MidScoringSet _ | DescoreSet _ | UnloaderSet _ => true
  | _ => false
  end.

(** Sensor readings as functions of the clock. *)
Record Sensors := mkSensors {
  imu_heading : Z -> Z;             (* [imu.get_heading()] as a [float] *)
  analog_left_y : Z -> Z;           (* [master.get_analog(LEFT_Y)] *)
  analog_right_y : Z -> Z;          (* [master.get_analog(RIGHT_Y)] *)
  digital : Z -> Digital -> Z       (* [master.get_digital(...)] *)
}.

Record World := mkWorld {
  clock : Z;                        (* [pros::millis()], uint32_t *)
  sd_mounted : bool;                (* can a file be opened at all *)
  sd_file : option (list Byte.byte);(* contents of the recording file *)
  sd_free : nat;                    (* bytes that can still be written *)
  trace : list Event
}.

Record System := mkSystem {
  self : AutonReplay;
  latches : Latches;
  world : World
}.

(** Field updates. *)
Definition with_recording (r : list RecordedFrame) (a : AutonReplay) : AutonReplay :=
  mkAutonReplay r (recordStartTime a) (_isRecording a) (_isPlaying a)
                (prevButtons a) (imuCorrectionGain a).
Definition with_recordStartTime (t : Z) (a : AutonReplay) : AutonReplay :=
  mkAutonReplay (recording a) t (_isRecording a) (_isPlaying a)
                (prevButtons a) (imuCorrectionGain a).
Definition with_isRecording (b : bool) (a : AutonReplay) : AutonReplay :=
  mkAutonReplay (recording a) (recordStartTime a) b (_isPlaying a)
                (prevButtons a) (imuCorrectionGain a).
Definition with_isPlaying (b : bool) (a : AutonReplay) : AutonReplay :=
  mkAutonReplay (recording a) (recordStartTime a) (_isRecording a) b
                (prevButtons a) (imuCorrectionGain a).
Definition with_prevButtons (p : Z) (a : AutonReplay) : AutonReplay :=
  mkAutonReplay (recording a) (recordStartTime a) (_isRecording a) (_isPlaying a)
                p (imuCorrectionGain a).
Definition with_imuCorrectionGain (g : Z) (a : AutonReplay) : AutonReplay :=
  mkAutonReplay (recording a) (recordStartTime a) (_isRecording a) (_isPlaying a)
                (prevButtons a) g.

Definition on_self (f : AutonReplay -> AutonReplay) (s : System) : System :=
  mkSystem (f (self s)) (latches s) (world s).
Definition on_latches (f : Latches -> Latches) (s : System) : System :=
  mkSystem (self s) (f (latches s)) (world s).
Definition on_world (f : World -> World) (s : System) : System :=
  mkSystem (self s) (latches s) (f (world s)).

(** A command reaches its collaborator. *)
Definition emit (e : Event) (s : System) : System :=
  on_world (fun w => mkWorld (clock w) (sd_mounted w) (sd_file w) (sd_free w)
                             (trace w ++ [e])) s.

(** [pros::millis()] and [pros::delay(ms)]. *)
Definition millis (s : System) : Z := clock (world s).
Definition delay (ms : Z) (s : System) : System :=
  on_world (fun w => mkWorld (to_u32 (clock w + ms)) (sd_mounted w) (sd_file w)
                             (sd_free w) (trace w)) s.

(** ** The file on the SD card *)

Module File.

Definition byte_of_Z (z : Z) : Byte.byte :=
  match Byte.of_N (Z.to_N (z mod 256)) with
  | Some b => b
  | None => Byte.x00
  end.
Definition Z_of_byte (b : Byte.byte) : Z := Z.of_N (Byte.to_N b).

(** A 32-bit word in memory, least significant byte first. *)
Definition encode_u32 (z : Z) : list Byte.byte :=
  [byte_of_Z z; byte_of_Z (Z.shiftr z 8);
   byte_of_Z (Z.shiftr z 16); byte_of_Z (Z.shiftr z 24)].
Definition decode_u32 (bs : list Byte.byte) : Z :=
  match bs with
  | [b0; b1; b2; b3] =>
      Z_of_byte b0 + Z.shiftl (Z_of_byte b1) 8
      + Z.shiftl (Z_of_byte b2) 16 + Z.shiftl (Z_of_byte b3) 24
  | _ => 0
  end.

(** [sizeof(RecordedFrame)] under natural alignment: the [float] sits at
    offset 8, the struct is padded to a multiple of 4. *)
Definition FRAME_SIZE : nat := 16.
Definition pad : Byte.byte := Byte.x00.

(** The object representation of a frame.  Its five padding bytes are
    indeterminate in C++: the program writes whatever the object holds
    there.  They are written as zero here and ignored when read; what
    is said of the bytes on the card is said of every image of a log,
    whatever its padding ([image_of] below). *)
Definition encode_frame (f : RecordedFrame) : list Byte.byte :=
  encode_u32 (timestamp f)
  ++ [byte_of_Z (leftStick f); byte_of_Z (rightStick f); pad; pad]
  ++ encode_u32 (heading f)
  ++ [byte_of_Z (buttons f); pad; pad; pad].

Definition decode_frame (bs : list Byte.byte) : RecordedFrame :=
  match bs with
  | [t0; t1; t2; t3; l; r; _; _; h0; h1; h2; h3; b; _; _; _] =>
      mkFrame (decode_u32 [t0; t1; t2; t3])
              (to_i8 (Z_of_byte l)) (to_i8 (Z_of_byte r))
              (decode_u32 [h0; h1; h2; h3]) (Z_of_byte b)
  | _ => mkFrame 0 0 0 0 0
  end.

(** [fopen(path, "wb")]: fails without a card, else the file is created
    or truncated. *)
Definition fopen_wb (w : World) : option World :=
  if sd_mounted w
  then Some (mkWorld (clock w) true (Some []) (sd_free w) (trace w))
  else None.

(** [fwrite(ptr, size, 1, file)] with [size = length item]: the number
    of complete items written (0 or 1).  When the card is full the item
    is cut short. *)
Definition fwrite (item : list Byte.byte) (w : World) : Z * World :=
  let old := match sd_file w with Some c => c | None => [] end in
  if (length item <=? sd_free w)%nat
  then (1, mkWorld (clock w) (sd_mounted w) (Some (old ++ item))
                   (sd_free w - length item)%nat (trace w))
  else (0, mkWorld (clock w) (sd_mounted w)
                   (Some (old ++ firstn (sd_free w) item)) 0%nat (trace w)).

(** [fopen(path, "rb")]: the read cursor is the list of bytes not yet
    consumed. *)
Definition fopen_rb (w : World) : option (list Byte.byte) :=
  if sd_mounted w then sd_file w else None.

(** [fread(ptr, size, 1, file)]: the item and the advanced cursor, or
    [None] when fewer than [size] bytes are left (return value 0). *)
Definition fread (size : nat) (cursor : list Byte.byte)
  : option (list Byte.byte * list Byte.byte) :=
  if (size <=? length cursor)%nat
  then Some (firstn size cursor, skipn size cursor)
  else None.

End File.

(** ** Operations of [AutonReplay] ([src/auton_replay.cpp]) *)

Definition MAX_FRAMES : Z := 15000.

(** [wasPressed]: rising edge of one bit between two masks. *)
Definition wasPressed (current prev bit : Z) : bool :=
  negb (Z.land current (Z.shiftl 1 bit) =? 0)
  && (Z.land prev (Z.shiftl 1 bit) =? 0).

(** The two normalisation loops of [applyHeadingCorrection]; [fuel]
    bounds the number of iterations of each. *)
Fixpoint wrap_down (fuel : nat) (error : Z) : option Z :=
  if F32.gt error (F32.of_int 180) then
    match fuel with
    | O => None
    | S fuel' => wrap_down fuel' (F32.sub error (F32.of_int 360))
    end
  else Some error.

Fixpoint wrap_up (fuel : nat) (error : Z) : option Z :=
  if F32.lt error (F32.of_int (-180)) then
    match fuel with
    | O => None
    | S fuel' => wrap_up fuel' (F32.add error (F32.of_int 360))
    end
  else Some error.

(** [applyHeadingCorrection]: the new values of the reference parameters
    [left] and [right]. *)
Definition applyHeadingCorrection (fuel : nat) (gain : Z)
    (left right : Z) (targetHeading currentHeading : Z)
  : option (Z * Z) :=
  let error := F32.sub targetHeading currentHeading in
  match wrap_down fuel error with
  | None => None
  | Some error =>
  match wrap_up fuel error with
  | None => None
  | Some error =>
      let correction := F32.mul error gain in
      let correction :=
        if F32.gt correction (F32.of_int 30) then F32.of_int 30 else correction in
      let correction :=
        if F32.lt correction (F32.of_int (-30)) then F32.of_int (-30) else correction in
      match F32.to_int (F32.sub (F32.of_int left) correction),
            F32.to_int (F32.add (F32.of_int right) correction) with
      | Some left', Some right' =>
          let left := left' in
          let right := right' in
          let left := if left >? 127 then 127 else left in
          let left := if left <? -127 then -127 else left in
          let right := if right >? 127 then 127 else right in
          let right := if right <? -127 then -127 else right in
          Some (left, right)
      | _, _ => None
      end
  end
  end.

(** [drawStatusIndicator]. *)
Definition drawStatusIndicator (s : System) : System :=
  let s := emit (ScreenSetPen COLOR_BLACK) s in
  let s := emit (ScreenFillRect 350 0 480 50) s in
  if _isRecording (self s) then
    let s := emit (ScreenSetPen COLOR_RED) s in
    let s := emit (ScreenFillCircle 460 20 15) s in
    let s := emit (ScreenSetPen COLOR_WHITE) s in
    emit (ScreenPrint 360 10 "REC" []) s
  else if _isPlaying (self s) then
    let s := emit (ScreenSetPen COLOR_GREEN) s in
    let s := emit (ScreenFillCircle 460 20 15) s in
    let s := emit (ScreenSetPen COLOR_WHITE) s in
    emit (ScreenPrint 360 10 "PLAY" []) s
  else
    match recording (self s) with
    | [] => s
    | _ :: _ =>
        let s := emit (ScreenSetPen COLOR_YELLOW) s in
        let s := emit (ScreenFillCircle 460 20 15) s in
        let s := emit (ScreenSetPen COLOR_WHITE) s in
        emit (ScreenPrint 360 10 "%d frm"
                          [Z.of_nat (length (recording (self s)))]) s
    end.

(** [saveToSD]. *)
Definition saveToSD (s : System) : bool * System :=
  match File.fopen_wb (world s) with
  | None => (false, s)
  | Some file =>
      let frameCount := to_u32 (Z.of_nat (length (recording (self s)))) in
      let file := snd (File.fwrite (File.encode_u32 frameCount) file) in
      let file :=
        fold_left (fun file frame => snd (File.fwrite (File.encode_frame frame) file))
                  (recording (self s)) file in
      (true, on_world (fun _ => file) s)
  end.

(** The read loop of [loadFromSD], [n] iterations from index [i]:
    [None] when a record comes short. *)
Fixpoint read_frames (n i : nat) (file : list Byte.byte)
    (rec : list RecordedFrame) : option (list RecordedFrame) :=
  match n with
  | O => Some rec
  | S n' =>
      match File.fread File.FRAME_SIZE file with
      | None => None
      | Some (item, file') =>
          read_frames n' (S i) file'
            (firstn i rec ++ File.decode_frame item :: skipn (S i) rec)
      end
  end.

(** [loadFromSD]. *)
Definition loadFromSD (s : System) : bool * System :=
  match File.fopen_rb (world s) with
  | None => (false, s)
  | Some file =>
      match File.fread 4 file with
      | None => (false, s)
      | Some (item, file) =>
          let frameCount := File.decode_u32 item in
          if frameCount >? MAX_FRAMES then (false, s)
          else
            let s := on_self (with_recording []) s in
            let s := on_self (with_recording
                       (repeat (mkFrame 0 0 0 0 0) (Z.to_nat frameCount))) s in
            match read_frames (Z.to_nat frameCount) 0 file (recording (self s)) with
            | None => (false, on_self (with_recording []) s)
            | Some rec =>
                let s := on_self (with_recording rec) s in
                (true, emit (MasterPrint 0 0 "LOADED: %d frames  " [frameCount]) s)
            end
      end
  end.

Definition clearRecording (s : System) : System :=
  let s := on_self (with_recording []) s in
  emit (MasterPrint 0 0 "RECORDING CLEARED  " []) s.

Definition getDuration (s : System) : Z :=
  match recording (self s) with
  | [] => 0
  | f :: fs => timestamp (last fs f)
  end.

Definition getFrameCount (s : System) : Z := Z.of_nat (length (recording (self s))).
Definition isRecording (s : System) : bool := _isRecording (self s).
Definition isPlaying (s : System) : bool := _isPlaying (self s).
Definition setIMUCorrectionGain (gain : Z) (s : System) : System :=
  on_self (with_imuCorrectionGain gain) s.

Definition startRecording (s : System) : System :=
  let s := on_self (with_recording []) s in
  let s := on_self (with_recordStartTime (millis s)) s in
  let s := on_self (with_isRecording true) s in
  let s := emit (ImuSetHeading 0) s in
  let s := emit (MasterPrint 0 0 "RECORDING...       " []) s in
  let s := emit (MasterRumble "-") s in
  drawStatusIndicator s.

Definition stopRecording (save : bool) (s : System) : System :=
  let s := on_self (with_isRecording false) s in
  let s := emit (MasterPrint 0 0 "STOPPED: %d frames "
                             [Z.of_nat (length (recording (self s)))]) s in
  let s := emit (MasterRumble ".") s in
  let s :=
    if save then
      let '(ok, s) := saveToSD s in
      if ok then emit (MasterPrint 1 0 "SAVED TO SD!       " []) s
      else emit (MasterPrint 1 0 "SD SAVE FAILED!    " []) s
    else s in
  drawStatusIndicator s.

(** Updates of the static latches. *)
Definition with_intakeForward (b : bool) (l : Latches) : Latches :=
  mkLatches b (intakeReverse l) (outtakeForward l) (outtakeReverse l)
            (midScoring l) (descore l) (unloader l).
Definition with_intakeReverse (b : bool) (l : Latches) : Latches :=
  mkLatches (intakeForward l) b (outtakeForward l) (outtakeReverse l)
            (midScoring l) (descore l) (unloader l).
Definition with_outtakeForward (b : bool) (l : Latches) : Latches :=
  mkLatches (intakeForward l) (intakeReverse l) b (outtakeReverse l)
            (midScoring l) (descore l) (unloader l).
Definition with_outtakeReverse (b : bool) (l : Latches) : Latches :=
  mkLatches (intakeForward l) (intakeReverse l) (outtakeForward l) b
            (midScoring l) (descore l) (unloader l).
Definition with_midScoring (b : bool) (l : Latches) : Latches :=
  mkLatches (intakeForward l) (intakeReverse l) (outtakeForward l)
            (outtakeReverse l) b (descore l) (unloader l).
Definition with_descore (b : bool) (l : Latches) : Latches :=
  mkLatches (intakeForward l) (intakeReverse l) (outtakeForward l)
            (outtakeReverse l) (midScoring l) b (unloader l).
Definition with_unloader (b : bool) (l : Latches) : Latches :=
  mkLatches (intakeForward l) (intakeReverse l) (outtakeForward l)
            (outtakeReverse l) (midScoring l) (descore l) b.

(** The bodies of the seven [if (wasPressed(...))] blocks of [playback]. *)
Definition toggleIntakeForward (s : System) : System :=
  let s := on_latches (fun l => with_intakeForward (negb (intakeForward l)) l) s in
  if intakeForward (latches s) then emit (IntakeMove 127) s
  else emit (IntakeMove 0) s.

Definition toggleIntakeReverse (s : System) : System :=
  let s := on_latches (fun l => with_intakeReverse (negb (intakeReverse l)) l) s in
  if intakeReverse (latches s) then emit (IntakeMove (-127)) s
  else emit (IntakeMove 0) s.

Definition toggleOuttakeForward (s : System) : System :=
  let s := on_latches (fun l => with_outtakeForward (negb (outtakeForward l)) l) s in
  if outtakeForward (latches s) then emit (OuttakeMove 127) s
  else emit (OuttakeMove 0) s.

Definition toggleOuttakeReverse (s : System) : System :=
  let s := on_latches (fun l => with_outtakeReverse (negb (outtakeReverse l)) l) s in
  if outtakeReverse (latches s) then emit (OuttakeMove (-127)) s
  else emit (OuttakeMove 0) s.

Definition toggleMidScoring (s : System) : System :=
  let s := on_latches (fun l => with_midScoring (negb (midScoring l)) l) s in
  let s := emit (MidScoringSet (midScoring (latches s))) s in
  if midScoring (latches s) then
    let s := emit (IntakeMove (-127)) s in
    emit (OuttakeMove (-127)) s
  else s.

Definition toggleDescore (s : System) : System :=
  let s := on_latches (fun l => with_descore (negb (descore l)) l) s in
  emit (DescoreSet (descore (latches s))) s.

Definition toggleUnloader (s : System) : System :=
  let s := on_latches (fun l => with_unloader (negb (unloader l)) l) s in
  emit (UnloaderSet (unloader (latches s))) s.

(** [if (wasPressed(currentButtons, prevButtons, bit)) { body }]. *)
Definition onPress (currentButtons bit : Z) (body : System -> System)
    (s : System) : System :=
  if wasPressed currentButtons (prevButtons (self s)) bit then body s else s.

(** The button handling of one dispatched frame, up to and including
    [prevButtons = currentButtons]. *)
Definition handleButtons (currentButtons : Z) (s : System) : System :=
  let s := onPress currentButtons BTN_R1 toggleIntakeForward s in
  let s := onPress currentButtons BTN_R2 toggleIntakeReverse s in
  let s := onPress currentButtons BTN_L1 toggleOuttakeForward s in
  let s := onPress currentButtons BTN_L2 toggleOuttakeReverse s in
  let s := onPress currentButtons BTN_X toggleMidScoring s in
  let s := onPress currentButtons BTN_A toggleDescore s in
  let s := onPress currentButtons BTN_B toggleUnloader s in
  on_self (with_prevButtons currentButtons) s.

(** Where [playback] stands after its prologue. *)
Inductive Entry :=
| NoRecording (s : System)
| Replaying (playStartTime : Z) (s : System).

Section Robot.

Variable hw : Sensors.

(** [imu.get_heading()] converted to [float]. *)
Definition get_heading (s : System) : Z := to_u32 (imu_heading hw (millis s)).

Definition get_digital (b : Digital) (s : System) : bool :=
  negb (digital hw (millis s) b =? 0).

(** [packButtons]. *)
Definition packButtons (s : System) : Z :=
  let buttons := 0 in
  let buttons := if get_digital DIGITAL_R1 s
                 then Z.lor buttons (Z.shiftl 1 BTN_R1) else buttons in
  let buttons := if get_digital DIGITAL_R2 s
                 then Z.lor buttons (Z.shiftl 1 BTN_R2) else buttons in
  let buttons := if get_digital DIGITAL_L1 s
                 then Z.lor buttons (Z.shiftl 1 BTN_L1) else buttons in
  let buttons := if get_digital DIGITAL_L2 s
                 then Z.lor buttons (Z.shiftl 1 BTN_L2) else buttons in
  let buttons := if get_digital DIGITAL_X s
                 then Z.lor buttons (Z.shiftl 1 BTN_X) else buttons in
  let buttons := if get_digital DIGITAL_A s
                 then Z.lor buttons (Z.shiftl 1 BTN_A) else buttons in
  let buttons := if get_digital DIGITAL_B s
                 then Z.lor buttons (Z.shiftl 1 BTN_B) else buttons in
  buttons.

(** [recordFrame]. *)
Definition recordFrame (s : System) : System :=
  if negb (_isRecording (self s)) then s
  else
    let frame :=
      mkFrame (to_u32 (millis s - recordStartTime (self s)))
              (to_i8 (analog_left_y hw (millis s)))
              (to_i8 (analog_right_y hw (millis s)))
              (get_heading s)
              (packButtons s) in
    let s := on_self (fun a => with_recording (recording a ++ [frame]) a) s in
    let s := if (timestamp frame / 500) mod 2 =? 0
             then emit (ScreenSetPen COLOR_RED) s
             else emit (ScreenSetPen COLOR_DARK_RED) s in
    emit (ScreenFillCircle 460 20 15) s.

(** The body of the inner loop of [playback] for one frame;
    [frameIndex++] is the caller's step to the next frame. *)
Definition dispatchFrame (fuel : nat) (frame : RecordedFrame) (s : System)
  : option System :=
  let currentHeading := get_heading s in
  match applyHeadingCorrection fuel (imuCorrectionGain (self s))
          (leftStick frame) (rightStick frame)
          (heading frame) currentHeading with
  | None => None
  | Some (left', right') =>
      let s := emit (LeftMotorsMove left') s in
      let s := emit (RightMotorsMove right') s in
      Some (handleButtons (buttons frame) s)
  end.

(** The inner loop,
    [while (frameIndex < recording.size()
            && recording[frameIndex].timestamp <= elapsed)].
    The log is not written during playback, so the position
    [frameIndex] is carried as the frames from that index on; the
    frames left over are returned. *)
Fixpoint dispatch_due (fuel : nat) (elapsed : Z) (rest : list RecordedFrame)
    (s : System) : option (list RecordedFrame * System) :=
  match rest with
  | [] => Some ([], s)
  | frame :: rest' =>
      if timestamp frame <=? elapsed then
        match dispatchFrame fuel frame s with
        | None => None
        | Some s => dispatch_due fuel elapsed rest' s
        end
      else Some (rest, s)
  end.

(** The end of one poll: the blinking indicator and the 10 ms sleep. *)
Definition poll_tail (elapsed : Z) (s : System) : System :=
  let s := if (elapsed / 500) mod 2 =? 0
           then emit (ScreenSetPen COLOR_GREEN) s
           else emit (ScreenSetPen COLOR_DARK_GREEN) s in
  let s := emit (ScreenFillCircle 460 20 15) s in
  delay 10 s.

(** The outer loop, [while (frameIndex < recording.size())]: [polls]
    bounds its iterations, [fuel] those of the heading loops. *)
Fixpoint playback_loop (polls fuel : nat) (playStartTime : Z)
    (rest : list RecordedFrame) (s : System) : option System :=
  match rest with
  | [] => Some s
  | _ :: _ =>
      match polls with
      | O => None
      | S polls' =>
          let elapsed := to_u32 (millis s - playStartTime) in
          match dispatch_due fuel elapsed rest s with
          | None => None
          | Some (rest, s) =>
              playback_loop polls' fuel playStartTime rest (poll_tail elapsed s)
          end
      end
  end.

(** [playback] from [_isPlaying = true] to the first test of the outer
    loop: the state reached and [playStartTime]. *)
Definition playback_prologue (s : System) : Z * System :=
  let s := on_self (with_isPlaying true) s in
  let s := on_self (with_prevButtons 0) s in
  let s := emit (ImuSetHeading 0) s in
  let s := delay 50 s in
  let playStartTime := millis s in
  let s := emit (MasterPrint 0 0 "REPLAYING...       " []) s in
  let s := emit (ScreenSetPen COLOR_GREEN) s in
  let s := emit (ScreenFillCircle 460 20 15) s in
  (playStartTime, s).

(** [playback] up to the first test of the outer loop. *)
Definition playback_begin (s : System) : Entry :=
  let '(loaded, s) :=
    match recording (self s) with
    | [] => loadFromSD s
    | _ :: _ => (true, s)
    end in
  if negb loaded then
    NoRecording (emit (MasterPrint 0 0 "NO RECORDING!      " []) s)
  else
    let '(playStartTime, s) := playback_prologue s in
    Replaying playStartTime s.

(** [playback] after the outer loop. *)
Definition playback_end (s : System) : System :=
  let s := emit (LeftMotorsMove 0) s in
  let s := emit (RightMotorsMove 0) s in
  let s := emit (IntakeMove 0) s in
  let s := emit (OuttakeMove 0) s in
  let s := on_self (with_isPlaying false) s in
  let s := emit (MasterPrint 0 0 "REPLAY COMPLETE!   " []) s in
  let s := emit (ScreenSetPen COLOR_BLACK) s in
  emit (ScreenFillCircle 460 20 15) s.

(** [playback]: [None] when a loop did not finish within its bound. *)
Definition playback (polls fuel : nat) (s : System) : option System :=
  match playback_begin s with
  | NoRecording s => Some s
  | Replaying playStartTime s =>
      match playback_loop polls fuel playStartTime (recording (self s)) s with
      | None => None
      | Some s => Some (playback_end s)
      end
  end.

End Robot.

(** The program at start-up: members at their default initialisers,
    latches not yet flipped, nothing commanded yet. *)
Definition GAIN_DEFAULT : Z := F32.of_int 2.

Definition initial (w : World) : System :=
  mkSystem (mkAutonReplay [] 0 false false 0 GAIN_DEFAULT)
           (mkLatches false false false false false false false)
           (mkWorld (clock w) (sd_mounted w) (sd_file w) (sd_free w) []).

(** ** Driver control ([src/main.cpp]) *)

(** [applyDeadband(value, threshold)]: [abs(INT_MIN)] is undefined. *)
Definition applyDeadband (value threshold : Z) : option Z :=
  if value =? INT_MIN then None
  else Some (if Z.abs value <? threshold then 0 else value).

(** The default argument [threshold = 8]. *)
Definition DEADBAND_DEFAULT : Z := 8.

(** The locals of [opcontrol] that its monitoring blocks keep from one
    iteration of the loop to the next. *)
Record Monitor := mkMonitor {
  lastTempCheck : Z;       (* uint32_t *)
  lastBatteryCheck : Z;    (* uint32_t *)
  lowBatteryWarned : bool
}.

(** [opcontrol] enters its loop with these. *)
Definition monitor_start : Monitor := mkMonitor 0 0 false.

(** The low-battery block of one iteration of the loop of [opcontrol];
    [capacity] is what [pros::battery::get_capacity()] gives as an
    [int]. *)
Definition lowBatteryCheck (capacity : Z) (m : Monitor) (s : System)
  : Monitor * System :=
  if to_u32 (millis s - lastBatteryCheck m) >? 5000 then
    let m := mkMonitor (lastTempCheck m) (millis s) (lowBatteryWarned m) in
    let batteryLevel := capacity in
    if (batteryLevel <=? 10) && negb (lowBatteryWarned m) then
      let s := emit (MasterRumble "---") s in
      let s := emit (MasterPrint 1 0 "LOW BATTERY: %d%%" [batteryLevel]) s in
      (mkMonitor (lastTempCheck m) (lastBatteryCheck m) true, s)
    else (m, s)
  else (m, s).

(** * Vocabulary of the properties *)

(** ** Persistence *)

(** The image of a log on the card: the frame count, then the frames. *)
Definition file_image (log : list RecordedFrame) : list Byte.byte :=
  File.encode_u32 (to_u32 (Z.of_nat (length log)))
  ++ flat_map File.encode_frame log.

(** [bs] is a record of [f]: sixteen bytes that hold the fields of [f]
    at their offsets.  The five padding bytes are not constrained: the
    program writes whatever the object holds there. *)
Definition record_of (f : RecordedFrame) (bs : list Byte.byte) : Prop :=
  exists p1 p2 p3 p4 p5,
    bs = File.encode_u32 (timestamp f)
         ++ [File.byte_of_Z (leftStick f); File.byte_of_Z (rightStick f); p1; p2]
         ++ File.encode_u32 (heading f)
         ++ [File.byte_of_Z (buttons f); p3; p4; p5].

(** [bytes] is an image of [log]: the frame count, then a record of
    each frame, in order. *)
Definition image_of (log : list RecordedFrame) (bytes : list Byte.byte) : Prop :=
  exists records,
    Forall2 record_of log records /\
    bytes = File.encode_u32 (to_u32 (Z.of_nat (length log))) ++ concat records.

(** What [loadFromSD] finds in a stored file. *)
Inductive Verdict :=
| CountUnreadable            (* fewer than four bytes *)
| Oversized (count : Z)      (* the count exceeds [MAX_FRAMES] *)
| ShortRecords (count : Z)   (* fewer than [count] whole records follow *)
| Complete (count : Z).

Definition classify (bytes : list Byte.byte) : Verdict :=
  match File.fread 4 bytes with
  | None => CountUnreadable
  | Some (item, rest) =>
      let count := File.decode_u32 item in
      if count >? MAX_FRAMES then Oversized count
      else if (length rest <? File.FRAME_SIZE * Z.to_nat count)%nat
           then ShortRecords count
           else Complete count
  end.

(** ** Commands *)

(** The commands issued between two states. *)
Definition events_since (s s' : System) : list Event :=
  skipn (length (trace (world s))) (trace (world s')).

(** The actuator commands issued between two states. *)
Definition actuator_commands (s s' : System) : list Event :=
  filter is_actuator_command (events_since s s').

(** The commands [evs] are appended to the trace. *)
Definition push (evs : list Event) (w : World) : World :=
  mkWorld (clock w) (sd_mounted w) (sd_file w) (sd_free w) (trace w ++ evs).

(** Commands to the two drive motor groups. *)
Definition is_drive_command (e : Event) : bool :=
  match e with
  | LeftMotorsMove _ | RightMotorsMove _ => true
  | _ => false
  end.

(** The drive commands of a list of corrected stick pairs. *)
Definition drive_commands (cmds : list (Z * Z)) : list Event :=
  flat_map (fun c => [LeftMotorsMove (fst c); RightMotorsMove (snd c)]) cmds.

(** The commands [playback] ends with. *)
Definition epilogue_events : list Event :=
  [LeftMotorsMove 0; RightMotorsMove 0; IntakeMove 0; OuttakeMove 0;
   MasterPrint 0 0 "REPLAY COMPLETE!   " [];
   ScreenSetPen COLOR_BLACK; ScreenFillCircle 460 20 15].

(** ** Latches and edges *)

(** The latches after the button handling of a frame with mask [current],
    the previous frame having had mask [prev]. *)
Definition latches_after (current prev : Z) (l : Latches) : Latches :=
  let flip (bit : Z) (x : bool) := if wasPressed current prev bit then negb x else x in
  mkLatches (flip BTN_R1 (intakeForward l)) (flip BTN_R2 (intakeReverse l))
            (flip BTN_L1 (outtakeForward l)) (flip BTN_L2 (outtakeReverse l))
            (flip BTN_X (midScoring l)) (flip BTN_A (descore l))
            (flip BTN_B (unloader l)).

(** A body that flips latches by [fl] and issues no drive command. *)
Definition latch_local (body : System -> System) (fl : Latches -> Latches) : Prop :=
  forall s, exists evs,
    body s = mkSystem (self s) (fl (latches s)) (push evs (world s))
    /\ forallb (fun e => negb (is_drive_command e)) evs = true.

(** The latches and the previous mask after the frames of [rest] have
    been dispatched one after the other. *)
Fixpoint replay_latches (rest : list RecordedFrame) (prev : Z) (l : Latches)
  : Z * Latches :=
  match rest with
  | [] => (prev, l)
  | f :: rest' =>
      replay_latches rest' (buttons f) (latches_after (buttons f) prev l)
  end.

(** The seven toggles, the bit that drives each and the latch it flips. *)
Inductive Toggle :=
| TIntakeForward | TIntakeReverse | TOuttakeForward | TOuttakeReverse
| TMidScoring | TDescore | TUnloader.

Definition toggle_bit (t : Toggle) : Z :=
  match t with
  | TIntakeForward => BTN_R1 | TIntakeReverse => BTN_R2
  | TOuttakeForward => BTN_L1 | TOuttakeReverse => BTN_L2
  | TMidScoring => BTN_X | TDescore => BTN_A | TUnloader => BTN_B
  end.

Definition latch_of (t : Toggle) (l : Latches) : bool :=
  match t with
  | TIntakeForward => intakeForward l | TIntakeReverse => intakeReverse l
  | TOuttakeForward => outtakeForward l | TOuttakeReverse => outtakeReverse l
  | TMidScoring => midScoring l | TDescore => descore l
  | TUnloader => unloader l
  end.

(** A rising edge: the bit is set in [current] and not set in [prev]. *)
Definition rising (current prev bit : Z) : bool :=
  Z.testbit current bit && negb (Z.testbit prev bit).

(** For each mask of [masks] in turn, whether [bit] rises against the
    mask before it ([prev] before the first). *)
Fixpoint edges (bit prev : Z) (masks : list Z) : list bool :=
  match masks with
  | [] => []
  | m :: masks' => rising m prev bit :: edges bit m masks'
  end.

(** What a toggle commands when its latch becomes [on]. *)
Definition toggle_events (t : Toggle) (on : bool) : list Event :=
  match t with
  | TIntakeForward => if on then [IntakeMove 127] else [IntakeMove 0]
  | TIntakeReverse => if on then [IntakeMove (-127)] else [IntakeMove 0]
  | TOuttakeForward => if on then [OuttakeMove 127] else [OuttakeMove 0]
  | TOuttakeReverse => if on then [OuttakeMove (-127)] else [OuttakeMove 0]
  | TMidScoring =>
      if on then [MidScoringSet true; IntakeMove (-127); OuttakeMove (-127)]
      else [MidScoringSet false]
  | TDescore => [DescoreSet on]
  | TUnloader => [UnloaderSet on]
  end.

(** The toggles in the order [playback] tests them. *)
Definition all_toggles : list Toggle :=
  [TIntakeForward; TIntakeReverse; TOuttakeForward; TOuttakeReverse;
   TMidScoring; TDescore; TUnloader].

(** What toggle [t] commands in a frame with mask [current] that follows
    a frame with mask [prev], the latches being [l] before the frame:
    its commands when its bit rises, nothing otherwise. *)
Definition press_of (t : Toggle) (current prev : Z) (l : Latches) : list Event :=
  if rising current prev (toggle_bit t)
  then toggle_events t (negb (latch_of t l)) else [].

Definition press_events (current prev : Z) (l : Latches) : list Event :=
  flat_map (fun t => press_of t current prev l) all_toggles.

(** The commands of the toggles along a list of masks. *)
Fixpoint toggle_trace (masks : list Z) (prev : Z) (l : Latches) : list Event :=
  match masks with
  | [] => []
  | m :: masks' =>
      press_events m prev l ++ toggle_trace masks' m (latches_after m prev l)
  end.

(** Commands to the intake, the outtake and the three pistons. *)
Definition is_manipulator_command (e : Event) : bool :=
  is_actuator_command e && negb (is_drive_command e).

(** The log [playback] replays: the one in memory, or, when that is
    empty, the one [loadFromSD] brings in. *)
Definition log_to_replay (s : System) : option (list RecordedFrame) :=
  match recording (self s) with
  | [] => if fst (loadFromSD s)
          then Some (recording (self (snd (loadFromSD s)))) else None
  | log => Some log
  end.

(** ** Runs of the playback loop *)

(** Two states of one session: the same log, flags, gain and card. *)
Definition same_session (s s' : System) : Prop :=
  recording (self s') = recording (self s) /\
  recordStartTime (self s') = recordStartTime (self s) /\
  _isRecording (self s') = _isRecording (self s) /\
  _isPlaying (self s') = _isPlaying (self s) /\
  imuCorrectionGain (self s') = imuCorrectionGain (self s) /\
  sd_mounted (world s') = sd_mounted (world s) /\
  sd_file (world s') = sd_file (world s) /\
  sd_free (world s') = sd_free (world s).

(** The corrected stick pair of frame [f] against the heading the IMU
    reports at time [t], under gain [g]. *)
Definition corrected (hw : Sensors) (fuel : nat) (g : Z) (f : RecordedFrame)
    (t : Z) : option (Z * Z) :=
  applyHeadingCorrection fuel g (leftStick f) (rightStick f)
    (heading f) (to_u32 (imu_heading hw t)).

(** Every heading correction the replay of [log] can ask for is defined:
    its normalisation loops end within [fuel] iterations and its
    conversions to [int] are in range. *)
Definition corrections_defined (hw : Sensors) (fuel : nat) (g : Z)
    (log : list RecordedFrame) : Prop :=
  forall f t, In f log -> corrected hw fuel g f t <> None.

(** Polls are 10 ms apart and the first one sees 0 ms elapsed: the
    first poll at which a timestamp is due. *)
Definition due_poll (ts : Z) : Z := (ts + 9) / 10.

(** The actuator commands of the replay of [rest] by a loop entered at
    clock value [start], poll by poll.  A frame is dispatched at the
    first poll at which it and every frame before it are due
    ([m] is the largest timestamp so far); its drive commands are its
    sticks corrected against the heading the IMU reports at that poll,
    its other commands those of the toggles whose bit rises.  [None]
    when a correction is not defined. *)
Fixpoint replay_commands (hw : Sensors) (fuel : nat) (g start m : Z)
    (rest : list RecordedFrame) (prev : Z) (l : Latches) : option (list Event) :=
  match rest with
  | [] => Some []
  | f :: rest' =>
      let m' := Z.max m (timestamp f) in
      match corrected hw fuel g f (to_u32 (start + 10 * due_poll m')) with
      | None => None
      | Some c =>
          match replay_commands hw fuel g start m' rest' (buttons f)
                  (latches_after (buttons f) prev l) with
          | None => None
          | Some evs =>
              Some ([LeftMotorsMove (fst c); RightMotorsMove (snd c)]
                    ++ press_events (buttons f) prev l ++ evs)
          end
      end
  end.

(** [Run hw fuel rest s rest' s']: from position [rest] in state [s] the
    loop can reach position [rest'] in state [s'], by dispatching the
    next frame or by ending a poll. *)
Inductive Run (hw : Sensors) (fuel : nat)
  : list RecordedFrame -> System -> list RecordedFrame -> System -> Prop :=
| Run_here rest s : Run hw fuel rest s rest s
| Run_frame f rest s s1 rest' s' :
    dispatchFrame hw fuel f s = Some s1 ->
    Run hw fuel rest s1 rest' s' -> Run hw fuel (f :: rest) s rest' s'
| Run_poll elapsed rest s rest' s' :
    Run hw fuel rest (poll_tail elapsed s) rest' s' -> Run hw fuel rest s rest' s'.

(** The largest timestamp of the log. *)
Definition last_due (log : list RecordedFrame) : Z :=
  fold_right (fun f m => Z.max (timestamp f) m) 0 log.

(** Polls are 10 ms apart and the first one sees 0 ms elapsed: the poll
    that sees at least [last_due log] elapsed is poll number
    [polls_needed log]. *)
Definition polls_needed (log : list RecordedFrame) : nat :=
  S (Z.to_nat ((last_due log + 9) / 10)).

(** ** Sequences of operations *)

(** The public operations that change the state, and the passing of time
    between two of them. *)
Inductive Op :=
| OpStartRecording
| OpStopRecording (save : bool)
| OpRecordFrame
| OpPlayback
| OpClearRecording
| OpSaveToSD
| OpLoadFromSD
| OpSetIMUCorrectionGain (gain : Z)
| OpDrawStatusIndicator
| OpWait (ms : Z).

Definition run_op (hw : Sensors) (polls fuel : nat) (op : Op) (s : System)
  : option System :=
  match op with
  | OpStartRecording => Some (startRecording s)
  | OpStopRecording save => Some (stopRecording save s)
  | OpRecordFrame => Some (recordFrame hw s)
  | OpPlayback => playback hw polls fuel s
  | OpClearRecording => Some (clearRecording s)
  | OpSaveToSD => Some (snd (saveToSD s))
  | OpLoadFromSD => Some (snd (loadFromSD s))
  | OpSetIMUCorrectionGain gain => Some (setIMUCorrectionGain gain s)
  | OpDrawStatusIndicator => Some (drawStatusIndicator s)
  | OpWait ms => Some (delay ms s)
  end.

Fixpoint run_ops (hw : Sensors) (polls fuel : nat) (ops : list Op) (s : System)
  : option System :=
  match ops with
  | [] => Some s
  | op :: ops' =>
      match run_op hw polls fuel op s with
      | Some s' => run_ops hw polls fuel ops' s'
      | None => None
      end
  end.

(** ** Floating point *)

(** The sign carried by a value, if it carries one. *)
Definition has_sign (s : bool) (x : spec_float) : Prop :=
  match x with
  | S754_zero s' | S754_infinity s' | S754_finite s' _ _ => s' = s
  | S754_nan => True
  end.

(** The constants of the normalisation. *)
Definition C180 : spec_float := S754_finite false 11796480 (-16).
Definition C360 : spec_float := S754_finite false 11796480 (-15).
Definition Cm180 : spec_float := S754_finite true 11796480 (-16).

(** ** Heading correction *)

(** The formulas of the specification. *)
Module HeadingSpec.

(** [clamp(x, lo, hi)] on floats and on integers. *)
Definition clampF (x lo hi : Z) : Z :=
  if F32.lt x lo then lo else if F32.gt x hi then hi else x.
Definition clampZ (x lo hi : Z) : Z := Z.max lo (Z.min x hi).

(** [wrap180]: subtract 360 while above 180, then add 360 while below
    -180. *)
Definition wrap180 (fuel : nat) (error : Z) : option Z :=
  match wrap_down fuel error with
  | Some error => wrap_up fuel error
  | None => None
  end.

(** [correction = clamp(error * gain, -30, 30)]. *)
Definition correction (error gain : Z) : Z :=
  clampF (F32.mul error gain) (F32.of_int (-30)) (F32.of_int 30).

(** The commands as the specification words them, with no conversion
    to an integer: [clamp(stick -/+ correction, -127, 127)]. *)
Definition stated_left (corr left : Z) : Z :=
  clampF (F32.sub (F32.of_int left) corr) (F32.of_int (-127)) (F32.of_int 127).
Definition stated_right (corr right : Z) : Z :=
  clampF (F32.add (F32.of_int right) corr) (F32.of_int (-127)) (F32.of_int 127).

(** The commands with the conversion to [int], which truncates toward
    zero, before the clamp. *)
Definition commanded (corr left right : Z) : option (Z * Z) :=
  match F32.to_int (F32.sub (F32.of_int left) corr),
        F32.to_int (F32.add (F32.of_int right) corr) with
  | Some l, Some r => Some (clampZ l (-127) 127, clampZ r (-127) 127)
  | _, _ => None
  end.

End HeadingSpec.

(** ** Finite binary32 numbers *)

(** The mantissa and exponent of a subnormal or of a normal number. *)
Definition canonical32 (m : positive) (e : Z) : Prop :=
  (Zpos m < 2 ^ 23 /\ e = -149) \/
  (2 ^ 23 <= Zpos m < 2 ^ 24 /\ -149 <= e <= 104).

(** The magnitude of a finite number, in units of [2^-149]. *)
Definition mag149 (x : spec_float) : Z :=
  match x with
  | S754_finite _ m e => Zpos m * 2 ^ (e + 149)
  | _ => 0
  end.

(** The value of a finite number, in units of [2^-149]. *)
Definition val149 (x : spec_float) : Z :=
  match x with
  | S754_finite s m e => if s then - (Zpos m * 2 ^ (e + 149)) else Zpos m * 2 ^ (e + 149)
  | _ => 0
  end.

(** A zero or a canonical finite number. *)
Definition finite32 (x : spec_float) : Prop :=
  match x with
  | S754_zero _ => True
  | S754_finite _ m e => canonical32 m e
  | _ => False
  end.

(** A finite number of magnitude at most [2^K]. *)
Definition mag_le (K : Z) (x : spec_float) : Prop :=
  match x with
  | S754_zero _ => True
  | S754_finite _ m e => canonical32 m e /\ Zpos m * 2 ^ (e + 149) <= 2 ^ (K + 149)
  | _ => False
  end.

(** Bit patterns of finite numbers and of the infinities. *)
Definition is_finite (b : Z) : bool :=
  match F32.of_bits b with
  | S754_zero _ | S754_finite _ _ _ => true
  | _ => false
  end.

Definition is_infinite (b : Z) : bool :=
  match F32.of_bits b with
  | S754_infinity _ => true
  | _ => false
  end.

Definition PLUS_INFINITY : Z := 0x7F800000.

(** A heading as the IMU reports it: a finite number from 0 to 360. *)
Definition valid_heading (b : Z) : bool :=
  is_finite b && negb (F32.lt b (F32.of_int 0)) && negb (F32.gt b (F32.of_int 360)).

(** A frame the player can meet in a recorded log: sticks in [int8_t],
    a heading the IMU can have reported, a timestamp the playback clock
    reaches before it wraps. *)
Definition frame_valid (f : RecordedFrame) : Prop :=
  is_i8 (leftStick f) /\ is_i8 (rightStick f) /\
  valid_heading (heading f) = true /\ timestamp f <= U32_MOD - 10.

(** A drive command within the motor range. *)
Definition drive_in_range (e : Event) : Prop :=
  match e with
  | LeftMotorsMove v | RightMotorsMove v => -127 <= v <= 127
  | _ => True
  end.

(** ** Recording sessions *)

(** [recordFrame] called after each of the given waits. *)
Fixpoint record_ticks (hw : Sensors) (waits : list Z) (s : System) : System :=
  match waits with
  | [] => s
  | w :: waits' => record_ticks hw waits' (recordFrame hw (delay w s))
  end.

(** [startRecording], then [recordFrame] after each wait. *)
Definition record_session (hw : Sensors) (waits : list Z) (s : System) : System :=
  record_ticks hw waits (startRecording s).

(** The sums [acc + w1], [acc + w1 + w2], ... *)
Fixpoint running_sums (acc : Z) (ws : list Z) : list Z :=
  match ws with
  | [] => []
  | w :: ws' => (acc + w) :: running_sums (acc + w) ws'
  end.

Definition total (ws : list Z) : Z := fold_right Z.add 0 ws.

Definition nondecreasing (l : list Z) : Prop :=
  forall i j, (i <= j < length l)%nat -> nth i l 0 <= nth j l 0.

(** The controller button behind each toggle. *)
Definition digital_of (t : Toggle) : Digital :=
  match t with
  | TIntakeForward => DIGITAL_R1 | TIntakeReverse => DIGITAL_R2
  | TOuttakeForward => DIGITAL_L1 | TOuttakeReverse => DIGITAL_L2
  | TMidScoring => DIGITAL_X | TDescore => DIGITAL_A | TUnloader => DIGITAL_B
  end.

(** ** Driver control *)

(** Iterations of the loop of [opcontrol], as far as the low-battery
    block goes: each takes some time and reads some capacity. *)
Fixpoint battery_ticks (ticks : list (Z * Z)) (m : Monitor) (s : System)
  : Monitor * System :=
  match ticks with
  | [] => (m, s)
  | (wait, capacity) :: ticks' =>
      let '(m, s) := lowBatteryCheck capacity m (delay wait s) in
      battery_ticks ticks' m s
  end.

Definition is_low_battery_alert (e : Event) : bool :=
  match e with
  | MasterRumble p => String.eqb p "---"
  | _ => false
  end.

(** ** Quiet steps *)

(** From [s] to [s'] the latches are kept and the commands issued
    include none to a motor or a pneumatic actuator. *)
Definition quiet (s s' : System) : Prop :=
  latches s' = latches s /\
  exists evs, trace (world s') = trace (world s) ++ evs /\
              filter is_actuator_command evs = [].

(** * Concrete scenarios *)

Definition idle_sensors : Sensors :=
  mkSensors (fun _ => 0) (fun _ => 0) (fun _ => 0) (fun _ _ => 0).

Definition no_card : World := mkWorld 0 false None 0 [].
Definition card_with (bytes : list Byte.byte) : World :=
  mkWorld 0 true (Some bytes) 0 [].

Definition fresh_latches : Latches :=
  mkLatches false false false false false false false.

(** A frame that holds R1 with both sticks at 100 and heading 0. *)
Definition frame_R1 (t : Z) : RecordedFrame := mkFrame t 100 100 0 1.

(** An idle program holding [log], in front of world [w]. *)
Definition holding (log : list RecordedFrame) (w : World) : System :=
  mkSystem (mkAutonReplay log 0 false false 0 GAIN_DEFAULT) fresh_latches w.

(** A crafted file whose count field claims 15001 frames. *)
Definition oversized_file : list Byte.byte := File.encode_u32 15001.

(** A stored file whose count field is zero, and nothing else. *)
Definition zero_frame_file : list Byte.byte := File.encode_u32 0.

(** Two frames in memory and a card with room for them. *)
Definition two_frames_to_save : System :=
  holding [frame_R1 20; frame_R1 40] (mkWorld 0 true None 100 []).

(** The state after [startRecording] and one [recordFrame], with no
    card. *)
Definition recording_one_frame : System :=
  recordFrame idle_sensors (startRecording (initial no_card)).

(** A recorded heading of 0.25 degrees, and a correction of 0.5. *)
Definition QUARTER_DEGREE : Z := 0x3E800000.
Definition HALF : Z := 0x3F000000.

(** A log of one frame, at 20 ms, that presses R1. *)
Definition one_press : System := holding [frame_R1 20] no_card.

(** Three calls of [recordFrame], 20 ms apart. *)
Definition three_ticks : list Z := [20; 20; 20].

(** A log one frame longer than the loader accepts, and a card with
    room for it. *)
Definition overlong : System :=
  holding (repeat (frame_R1 0) (Z.to_nat 15001))
          (mkWorld 0 true None (Z.to_nat 300000) []).

(** The image of a one-frame log followed by two stray bytes. *)
Definition file_with_trailer : list Byte.byte :=
  file_image [frame_R1 20] ++ [Byte.xff; Byte.xff].

(** An IMU that reports an infinite heading, with idle controls. *)
Definition failed_imu : Sensors :=
  mkSensors (fun _ => PLUS_INFINITY) (fun _ => 0) (fun _ => 0) (fun _ _ => 0).

(** Two frames in memory and a card with room for the count and one
    frame and a half. *)
Definition card_nearly_full : System :=
  holding [frame_R1 20; frame_R1 40] (mkWorld 0 true None 28 []).

(** A log of two frames, 20 ms apart, that hold R1. *)
Definition held_press : System := holding [frame_R1 20; frame_R1 40] no_card.

(** A log of one frame whose recorded heading is an infinity, which is
    what the IMU reports while it fails. *)
Definition infinite_heading_log : System :=
  holding [mkFrame 0 0 0 PLUS_INFINITY 0] no_card.

(** The state [playback] leaves after one run over [held_press]. *)
Definition after_held_press : System :=
  match playback idle_sensors 5 0 held_press with
  | Some s => s
  | None => held_press
  end.

(** The bit pattern of a quiet NaN. *)
Definition QUIET_NAN : Z := 0x7FC00000.

(** * Properties *)

(** ** Fixed-width integers *)

Lemma to_u32_range z : is_u32 (to_u32 z).
Proof. unfold is_u32, to_u32, U32_MOD. apply Z.mod_pos_bound. lia. Qed.

Lemma to_u8_range z : is_u8 (to_u8 z).
Proof. unfold is_u8, to_u8. apply Z.mod_pos_bound. lia. Qed.

Lemma to_i8_range z : is_i8 (to_i8 z).
Proof.
  unfold is_i8, to_i8.
  pose proof (Z.mod_pos_bound (z + 128) 256 ltac:(lia)). lia.
Qed.

Lemma to_u32_id z : is_u32 z -> to_u32 z = z.
Proof. unfold is_u32, to_u32. intros H. apply Z.mod_small. exact H. Qed.

(** ** Bytes, words and frames on the card *)

Module FileFacts.
Import File.

Lemma Z_of_byte_of_Z z : Z_of_byte (byte_of_Z z) = z mod 256.
Proof.
  unfold Z_of_byte, byte_of_Z.
  pose proof (Z.mod_pos_bound z 256 ltac:(lia)) as Hb.
  destruct (Byte.of_N (Z.to_N (z mod 256))) as [b|] eqn:E.
  - apply Byte.to_of_N in E. rewrite E. lia.
  - apply Byte.of_N_None_iff in E. lia.
Qed.

Lemma Z_of_byte_range b : 0 <= Z_of_byte b < 256.
Proof.
  unfold Z_of_byte. pose proof (Byte.to_N_bounded b). lia.
Qed.

Lemma decode_encode_u32 z : is_u32 z -> decode_u32 (encode_u32 z) = z.
Proof.
  unfold is_u32, U32_MOD, decode_u32, encode_u32. intros Hz.
  rewrite !Z_of_byte_of_Z, !Z.shiftr_div_pow2, !Z.shiftl_mul_pow2 by lia.
  change (2 ^ 8) with 256. change (2 ^ 16) with 65536.
  change (2 ^ 24) with 16777216. change (2 ^ 32) with 4294967296 in Hz.
  pose proof (Z.div_mod z 256 ltac:(lia)).
  pose proof (Z.div_mod (z / 256) 256 ltac:(lia)).
  pose proof (Z.div_mod (z / 256 / 256) 256 ltac:(lia)).
  rewrite !Z.div_div in * by lia.
  change (256 * 256) with 65536 in *.
  change (65536 * 256) with 16777216 in *.
  assert (z / 16777216 mod 256 = z / 16777216).
  { apply Z.mod_small. split.
    - apply Z.div_pos; lia.
    - apply Z.div_lt_upper_bound; lia. }
  lia.
Qed.

Lemma decode_u32_range bs : is_u32 (decode_u32 bs).
Proof.
  unfold is_u32, U32_MOD, decode_u32.
  destruct bs as [|b0 [|b1 [|b2 [|b3 [|? ?]]]]]; try lia.
  rewrite !Z.shiftl_mul_pow2 by lia.
  pose proof (Z_of_byte_range b0). pose proof (Z_of_byte_range b1).
  pose proof (Z_of_byte_range b2). pose proof (Z_of_byte_range b3).
  lia.
Qed.

Lemma to_i8_byte z : is_i8 z -> to_i8 (z mod 256) = z.
Proof.
  unfold is_i8, to_i8. intros Hz.
  destruct (Z_lt_le_dec z 0).
  - replace (z mod 256) with (z + 256).
    + replace (z + 256 + 128) with (z + 128 + 1 * 256) by lia.
      rewrite Z.mod_add by lia. rewrite Z.mod_small; lia.
    + apply Z.mod_unique with (q := -1); lia.
  - rewrite (Z.mod_small z) by lia. rewrite Z.mod_small; lia.
Qed.

Lemma encode_frame_length f : length (encode_frame f) = FRAME_SIZE.
Proof. reflexivity. Qed.

Lemma decode_encode_frame f : frame_wf f -> decode_frame (encode_frame f) = f.
Proof.
  destruct f as [t l r h b]. unfold frame_wf.
  cbn [timestamp leftStick rightStick heading buttons].
  intros (Ht & Hl & Hr & Hh & Hb).
  pose proof (decode_encode_u32 t Ht) as Et.
  pose proof (decode_encode_u32 h Hh) as Eh.
  unfold encode_u32 in Et, Eh.
  cbv beta iota delta [decode_frame encode_frame encode_u32 app
                       timestamp leftStick rightStick heading buttons].
  rewrite Et. rewrite Eh. rewrite !Z_of_byte_of_Z.
  rewrite !to_i8_byte by assumption.
  rewrite (Z.mod_small b) by exact Hb. reflexivity.
Qed.

Lemma decode_frame_wf bs : frame_wf (decode_frame bs).
Proof.
  assert (D : frame_wf (mkFrame 0 0 0 0 0))
    by (repeat split; cbn; unfold U32_MOD; lia).
  unfold decode_frame.
  do 16 (destruct bs as [|? bs]; [exact D|]).
  destruct bs; [|exact D].
  repeat split; cbn [timestamp leftStick rightStick heading buttons];
    try apply decode_u32_range; try apply to_i8_range; apply Z_of_byte_range.
Qed.

Lemma fread_app (item rest : list Byte.byte) :
  fread (length item) (item ++ rest) = Some (item, rest).
Proof.
  unfold fread. rewrite length_app.
  replace (length item <=? length item + length rest)%nat with true
    by (symmetry; apply Nat.leb_le; lia).
  rewrite firstn_app, Nat.sub_diag, firstn_all. simpl. rewrite app_nil_r.
  rewrite skipn_app, Nat.sub_diag, skipn_all. reflexivity.
Qed.

Lemma fread_short size cursor :
  (length cursor < size)%nat -> fread size cursor = None.
Proof.
  unfold fread. intros H.
  replace (size <=? length cursor)%nat with false; [reflexivity|].
  symmetry. apply Nat.leb_gt. exact H.
Qed.

Lemma fread_length size cursor item rest :
  fread size cursor = Some (item, rest) ->
  length cursor = (size + length rest)%nat.
Proof.
  unfold fread. destruct (size <=? length cursor)%nat eqn:E; [|discriminate].
  apply Nat.leb_le in E. intros H. inversion H; subst.
  rewrite length_skipn. lia.
Qed.

End FileFacts.

(** ** Persistence layer *)

Section Persistence.
Import File FileFacts.

Lemma on_self_same s : on_self (with_recording (recording (self s))) s = s.
Proof. destruct s as [[] ? ?]. reflexivity. Qed.

Lemma fwrite_fits item w old :
  sd_file w = Some old -> (length item <= sd_free w)%nat ->
  fwrite item w =
    (1, mkWorld (clock w) (sd_mounted w) (Some (old ++ item))
                (sd_free w - length item) (trace w)).
Proof.
  intros Hf Hl. unfold fwrite. rewrite Hf.
  replace (length item <=? sd_free w)%nat with true
    by (symmetry; apply Nat.leb_le; exact Hl).
  reflexivity.
Qed.

Lemma fwrite_frames_fit log : forall w old,
  sd_file w = Some old ->
  (FRAME_SIZE * length log <= sd_free w)%nat ->
  fold_left (fun file frame => snd (fwrite (encode_frame frame) file)) log w =
    mkWorld (clock w) (sd_mounted w)
            (Some (old ++ flat_map encode_frame log))
            (sd_free w - FRAME_SIZE * length log) (trace w).
Proof.
  induction log as [|f log IH]; intros w old Hf Hl.
  - cbn [fold_left flat_map length]. rewrite app_nil_r, Nat.mul_0_r, Nat.sub_0_r.
    rewrite <- Hf. destruct w; reflexivity.
  - cbn [fold_left flat_map]. cbn [length] in Hl.
    rewrite (fwrite_fits (encode_frame f) w old Hf)
      by (rewrite encode_frame_length; lia).
    cbn [snd]. rewrite (IH _ (old ++ encode_frame f)).
    + cbn [clock sd_mounted sd_free trace length].
      rewrite encode_frame_length, <- app_assoc. f_equal. lia.
    + reflexivity.
    + cbn [sd_free]. rewrite encode_frame_length. lia.
Qed.

(** A save that meets no obstacle leaves exactly [file_image] on the
    card. *)
Lemma saveToSD_fits s :
  sd_mounted (world s) = true ->
  (4 + FRAME_SIZE * length (recording (self s)) <= sd_free (world s))%nat ->
  saveToSD s =
    (true,
     on_world (fun w => mkWorld (clock w) true
                          (Some (file_image (recording (self s))))
                          (sd_free w - (4 + FRAME_SIZE * length (recording (self s))))
                          (trace w)) s).
Proof.
  intros Hm Hl. unfold saveToSD, fopen_wb. rewrite Hm. unfold FRAME_SIZE in *.
  erewrite fwrite_fits; [|reflexivity|cbn; lia].
  cbn [snd]. erewrite fwrite_frames_fit; [|reflexivity|unfold FRAME_SIZE; cbn; lia].
  cbn [clock sd_mounted sd_free trace app]. unfold on_world, file_image.
  do 3 f_equal. change (length (encode_u32 _)) with 4%nat. unfold FRAME_SIZE. lia.
Qed.

Lemma read_frames_image log : forall done tail,
  Forall frame_wf log ->
  read_frames (length log) (length done)
              (flat_map encode_frame log ++ tail)
              (done ++ repeat (mkFrame 0 0 0 0 0) (length log))
  = Some (done ++ log).
Proof.
  induction log as [|f log IH]; intros done tail Hwf.
  - cbn. reflexivity.
  - inversion Hwf as [|? ? Hf Hlog]; subst.
    cbn [length read_frames flat_map repeat]. rewrite <- app_assoc.
    change FRAME_SIZE with (length (encode_frame f)).
    rewrite fread_app.
    rewrite firstn_app, Nat.sub_diag, firstn_all. cbn [firstn].
    rewrite app_nil_r.
    replace (skipn (S (length done)) (done ++ mkFrame 0 0 0 0 0 :: repeat (mkFrame 0 0 0 0 0) (length log)))
      with (repeat (mkFrame 0 0 0 0 0) (length log)).
    2:{ rewrite skipn_app, skipn_all2 by lia.
        replace (S (length done) - length done)%nat with 1%nat by lia.
        reflexivity. }
    rewrite decode_encode_frame by exact Hf.
    specialize (IH (done ++ [f]) tail Hlog).
    rewrite length_app in IH. cbn [length] in IH.
    rewrite Nat.add_1_r in IH. rewrite <- !app_assoc in IH. exact IH.
Qed.

Lemma read_frames_short n : forall i file rec,
  (length file < FRAME_SIZE * n)%nat -> read_frames n i file rec = None.
Proof.
  induction n as [|n IH]; intros i file rec Hl; [lia|].
  cbn [read_frames]. destruct (fread FRAME_SIZE file) as [[item file']|] eqn:E.
  - apply fread_length in E. apply IH. lia.
  - reflexivity.
Qed.

Lemma read_frames_enough n : forall i file rec,
  (FRAME_SIZE * n <= length file)%nat ->
  exists rec', read_frames n i file rec = Some rec'.
Proof.
  induction n as [|n IH]; intros i file rec Hl.
  - eexists. reflexivity.
  - cbn [read_frames]. destruct (fread FRAME_SIZE file) as [[item file']|] eqn:E.
    + apply fread_length in E. apply IH. lia.
    + unfold fread in E.
      replace (FRAME_SIZE <=? length file)%nat with true in E; [discriminate|].
      symmetry. apply Nat.leb_le. lia.
Qed.

Lemma read_frames_length n : forall i file rec rec',
  (i + n <= length rec)%nat ->
  read_frames n i file rec = Some rec' -> length rec' = length rec.
Proof.
  induction n as [|n IH]; intros i file rec rec' Hl R; cbn [read_frames] in R.
  - inversion R. reflexivity.
  - destruct (fread FRAME_SIZE file) as [[item file']|]; [|discriminate].
    apply IH in R.
    + rewrite R, length_app. cbn [length].
      rewrite length_firstn, length_skipn. lia.
    + rewrite length_app. cbn [length].
      rewrite length_firstn, length_skipn. lia.
Qed.

End Persistence.

(** ** Images of a log, whatever the padding *)

Section Images.
Import File FileFacts.

Lemma decode_record f bs :
  frame_wf f -> record_of f bs -> decode_frame bs = f /\ length bs = FRAME_SIZE.
Proof.
  destruct f as [t l r h b]. unfold frame_wf.
  cbn [timestamp leftStick rightStick heading buttons].
  intros (Ht & Hl & Hr & Hh & Hb) (p1 & p2 & p3 & p4 & p5 & ->).
  cbn [timestamp leftStick rightStick heading buttons].
  split; [|reflexivity].
  pose proof (decode_encode_u32 t Ht) as Et.
  pose proof (decode_encode_u32 h Hh) as Eh.
  unfold encode_u32 in Et, Eh.
  cbv beta iota delta [decode_frame encode_u32 app].
  rewrite Et. rewrite Eh. rewrite !Z_of_byte_of_Z.
  rewrite !to_i8_byte by assumption.
  rewrite (Z.mod_small b) by exact Hb. reflexivity.
Qed.

Lemma encode_frame_record f : record_of f (encode_frame f).
Proof. exists pad, pad, pad, pad, pad. reflexivity. Qed.

(** What [saveToSD] writes for a log is an image of it. *)
Lemma file_image_is_image log : image_of log (file_image log).
Proof.
  exists (map encode_frame log). split.
  - induction log as [|f log IH]; constructor; [apply encode_frame_record|exact IH].
  - unfold file_image. f_equal. rewrite flat_map_concat_map. reflexivity.
Qed.

Lemma read_frames_records log : forall records done tail,
  Forall frame_wf log -> Forall2 record_of log records ->
  read_frames (length log) (length done)
              (concat records ++ tail)
              (done ++ repeat (mkFrame 0 0 0 0 0) (length log))
  = Some (done ++ log).
Proof.
  induction log as [|f log IH]; intros records done tail Hwf Hrec.
  - inversion Hrec; subst. cbn. reflexivity.
  - inversion Hwf as [|? ? Hf Hlog]; subst.
    inversion Hrec as [|? bs ? records' Hb Hrest]; subst.
    destruct (decode_record f bs Hf Hb) as [Ed El].
    cbn [length read_frames concat repeat]. rewrite <- app_assoc.
    rewrite <- El. rewrite fread_app.
    rewrite firstn_app, Nat.sub_diag, firstn_all. cbn [firstn].
    rewrite app_nil_r.
    replace (skipn (S (length done))
               (done ++ mkFrame 0 0 0 0 0 :: repeat (mkFrame 0 0 0 0 0) (length log)))
      with (repeat (mkFrame 0 0 0 0 0) (length log)).
    2:{ rewrite skipn_app, skipn_all2 by lia.
        replace (S (length done) - length done)%nat with 1%nat by lia.
        reflexivity. }
    rewrite Ed.
    specialize (IH records' (done ++ [f]) tail Hlog Hrest).
    rewrite length_app in IH. cbn [length] in IH.
    rewrite Nat.add_1_r in IH. rewrite <- !app_assoc in IH. exact IH.
Qed.

(** [loadFromSD] reads any image of a log back as that log, whatever
    the padding bytes of its records and whatever follows it. *)
Lemma loadFromSD_image_of s log bytes tail :
  sd_mounted (world s) = true ->
  sd_file (world s) = Some (bytes ++ tail) ->
  image_of log bytes ->
  Forall frame_wf log ->
  (length log <= Z.to_nat MAX_FRAMES)%nat ->
  loadFromSD s =
    (true, emit (MasterPrint 0 0 "LOADED: %d frames  " [Z.of_nat (length log)])
                (on_self (with_recording log) s)).
Proof.
  intros Hm Hf (records & Hrec & ->) Hwf Hn. unfold loadFromSD, fopen_rb.
  rewrite Hm, Hf. rewrite <- app_assoc.
  change 4%nat with (length (encode_u32 (to_u32 (Z.of_nat (length log))))).
  rewrite fread_app.
  assert (Hu : is_u32 (Z.of_nat (length log))).
  { unfold is_u32, U32_MOD. unfold MAX_FRAMES in Hn. lia. }
  rewrite (to_u32_id _ Hu), (decode_encode_u32 _ Hu).
  replace (Z.of_nat (length log) >? MAX_FRAMES) with false.
  2:{ symmetry. rewrite Z.gtb_ltb. apply Z.ltb_ge. unfold MAX_FRAMES in *. lia. }
  rewrite Nat2Z.id. cbn [self on_self recording with_recording].
  pose proof (read_frames_records log records [] tail Hwf Hrec) as R.
  cbn [length app] in R. rewrite R.
  reflexivity.
Qed.

End Images.

Section PersistenceClaims.
Import File FileFacts.

Lemma loadFromSD_image s log tail :
  sd_mounted (world s) = true ->
  sd_file (world s) = Some (file_image log ++ tail) ->
  Forall frame_wf log ->
  (length log <= Z.to_nat MAX_FRAMES)%nat ->
  loadFromSD s =
    (true, emit (MasterPrint 0 0 "LOADED: %d frames  " [Z.of_nat (length log)])
                (on_self (with_recording log) s)).
Proof.
  intros Hm Hf Hwf Hn. unfold loadFromSD, fopen_rb. rewrite Hm, Hf.
  unfold file_image. rewrite <- app_assoc.
  change 4%nat with (length (encode_u32 (to_u32 (Z.of_nat (length log))))).
  rewrite fread_app.
  assert (Hu : is_u32 (Z.of_nat (length log))).
  { unfold is_u32, U32_MOD. unfold MAX_FRAMES in Hn. lia. }
  rewrite (to_u32_id _ Hu), (decode_encode_u32 _ Hu).
  replace (Z.of_nat (length log) >? MAX_FRAMES) with false.
  2:{ symmetry. rewrite Z.gtb_ltb. apply Z.ltb_ge. unfold MAX_FRAMES in *. lia. }
  rewrite Nat2Z.id. cbn [self on_self recording with_recording].
  pose proof (read_frames_image log [] tail Hwf) as R.
  cbn [length app] in R. rewrite R.
  reflexivity.
Qed.

(** C10. [saveToSD] answers [true] exactly when the file could be
    opened: the results of [fwrite] are not looked at, and a save that
    ran out of room half-way is still reported as a success. *)
Theorem saveToSD_reports_open_only :
  (forall s, fst (saveToSD s) =
             match fopen_wb (world s) with Some _ => true | None => false end) /\
  (exists s, fst (saveToSD s) = true /\
             sd_file (world (snd (saveToSD s)))
             <> Some (file_image (recording (self s)))).
Proof.
  split.
  - intros s. unfold saveToSD. destruct (fopen_wb (world s)); reflexivity.
  - exists (mkSystem
              (mkAutonReplay [mkFrame 20 100 100 0 1] 0 false false 0 GAIN_DEFAULT)
              (mkLatches false false false false false false false)
              (mkWorld 0 true None 10 [])).
    split; [reflexivity|]. vm_compute. discriminate.
Qed.

(** C3 (amended). A load never leaves a partly filled log.  When the
    count cannot be read or exceeds 15000 the call fails and changes
    nothing: the log in memory stays as it was.  When a record comes
    short the call fails and the log is left empty.  Otherwise the call
    succeeds with as many frames as the count says. *)
Theorem loadFromSD_all_or_nothing s bytes :
  fopen_rb (world s) = Some bytes ->
  match classify bytes with
  | CountUnreadable | Oversized _ => loadFromSD s = (false, s)
  | ShortRecords _ => loadFromSD s = (false, on_self (with_recording []) s)
  | Complete count =>
      fst (loadFromSD s) = true /\
      Z.of_nat (length (recording (self (snd (loadFromSD s))))) = count
  end.
Proof.
  intros Ho. unfold classify, loadFromSD. rewrite Ho.
  destruct (fread 4 bytes) as [[item rest]|]; [|reflexivity].
  destruct (decode_u32 item >? MAX_FRAMES) eqn:Ec; [reflexivity|].
  destruct (length rest <? FRAME_SIZE * Z.to_nat (decode_u32 item))%nat eqn:El.
  - apply Nat.ltb_lt in El. rewrite read_frames_short by exact El. reflexivity.
  - apply Nat.ltb_ge in El.
    cbn [self on_self recording with_recording].
    destruct (read_frames_enough (Z.to_nat (decode_u32 item)) 0 rest
                (repeat (mkFrame 0 0 0 0 0) (Z.to_nat (decode_u32 item))) El)
      as [rec' R].
    rewrite R. cbn [fst snd]. split; [reflexivity|].
    cbn [emit on_world on_self self recording with_recording].
    apply read_frames_length in R; [|rewrite repeat_length; lia].
    rewrite R, repeat_length.
    pose proof (decode_u32_range item) as [? _]. lia.
Qed.

End PersistenceClaims.

(** ** The recorder *)

Section RecorderClaims.

Variable hw : Sensors.

(** C8. Outside the Recording state [recordFrame] returns at once: no
    sensor is sampled, no frame is appended, nothing is drawn -- the
    whole state is left as it was. *)
Theorem recordFrame_outside_recording s :
  _isRecording (self s) = false -> recordFrame hw s = s.
Proof.
  intros H. unfold recordFrame. rewrite H. reflexivity.
Qed.

Lemma packButtons_u8 s : is_u8 (packButtons hw s).
Proof.
  unfold packButtons, is_u8.
  destruct (get_digital hw DIGITAL_R1 s), (get_digital hw DIGITAL_R2 s),
    (get_digital hw DIGITAL_L1 s), (get_digital hw DIGITAL_L2 s),
    (get_digital hw DIGITAL_X s), (get_digital hw DIGITAL_A s),
    (get_digital hw DIGITAL_B s); vm_compute; intuition discriminate.
Qed.

(** Frames sampled by the recorder are well formed. *)
Lemma recordFrame_wf s :
  Forall frame_wf (recording (self s)) ->
  Forall frame_wf (recording (self (recordFrame hw s))).
Proof.
  intros H. unfold recordFrame.
  destruct (negb (_isRecording (self s))); [exact H|].
  assert (W : forall f, f = mkFrame (to_u32 (millis s - recordStartTime (self s)))
                                (to_i8 (analog_left_y hw (millis s)))
                                (to_i8 (analog_right_y hw (millis s)))
                                (get_heading hw s) (packButtons hw s) ->
                     Forall frame_wf (recording (self s) ++ [f])).
  { intros f ->. apply Forall_app. split; [exact H|].
    constructor; [|constructor].
    unfold frame_wf. cbn [timestamp leftStick rightStick heading buttons].
    unfold get_heading.
    auto using to_u32_range, to_i8_range, packButtons_u8. }
  match goal with
  | |- context [if ?c then _ else _] => destruct c
  end; cbn [emit on_world on_self self recording with_recording];
    apply W; reflexivity.
Qed.

End RecorderClaims.

Lemma recordFrame_outside_recording_witness :
  _isRecording (self (holding [] no_card)) = false /\
  recordFrame idle_sensors (holding [] no_card) = holding [] no_card.
Proof.
  split; [reflexivity|].
  apply recordFrame_outside_recording. reflexivity.
Defined.

(** C3, as stated, fails: with a log of one frame in memory, loading the
    file that claims 15001 frames fails and the log is not left empty --
    it still holds that frame. *)
Lemma loadFromSD_oversized_keeps_prior_log :
  classify oversized_file = Oversized 15001 /\
  fst (loadFromSD (holding [frame_R1 20] (card_with oversized_file))) = false /\
  recording (self (snd (loadFromSD (holding [frame_R1 20] (card_with oversized_file)))))
  <> [].
Proof.
  split; [reflexivity|]. split; [reflexivity|]. vm_compute. discriminate.
Qed.

Lemma loadFromSD_all_or_nothing_witness :
  File.fopen_rb (world (holding [frame_R1 20] (card_with oversized_file)))
  = Some oversized_file /\
  loadFromSD (holding [frame_R1 20] (card_with oversized_file))
  = (false, holding [frame_R1 20] (card_with oversized_file)).
Proof.
  split; [reflexivity|].
  exact (loadFromSD_all_or_nothing
           (holding [frame_R1 20] (card_with oversized_file))
           oversized_file eq_refl).
Defined.

(** ** Entry into [playback] *)

Section PlaybackEntry.

Variable hw : Sensors.

Lemma playback_loop_nil polls fuel start s :
  playback_loop hw polls fuel start [] s = Some s.
Proof. destruct polls; reflexivity. Qed.

Lemma loadFromSD_failure_on_empty s :
  recording (self s) = [] -> fst (loadFromSD s) = false ->
  snd (loadFromSD s) = s.
Proof.
  intros He. unfold loadFromSD.
  destruct (File.fopen_rb (world s)) as [file|]; [|reflexivity].
  destruct (File.fread 4 file) as [[item rest]|]; [|reflexivity].
  destruct (File.decode_u32 item >? MAX_FRAMES); [reflexivity|].
  destruct (read_frames _ _ _ _); cbn [fst snd]; [discriminate|].
  intros _. destruct s as [[] ? ?]. cbn in He. subst. reflexivity.
Qed.

(** C4 (amended).  With an empty log in memory, [playback] reports "no
    recording" and commands nothing whenever the load fails, as it does
    without a card, without a file and with a file of zero bytes.  A
    stored file whose count is zero loads successfully: playback then
    goes through its prologue and epilogue over zero frames, reports
    completion and issues the four neutral motor commands. *)
Theorem playback_on_empty_log polls fuel s :
  recording (self s) = [] ->
  (fst (loadFromSD s) = false ->
   playback hw polls fuel s
   = Some (emit (MasterPrint 0 0 "NO RECORDING!      " []) s)) /\
  (sd_mounted (world s) = false \/ sd_file (world s) = None
   \/ sd_file (world s) = Some [] ->
   fst (loadFromSD s) = false) /\
  (sd_mounted (world s) = true -> sd_file (world s) = Some zero_frame_file ->
   exists s', playback hw polls fuel s = Some s' /\
     trace (world s') = trace (world s) ++
       [MasterPrint 0 0 "LOADED: %d frames  " [0];
        ImuSetHeading 0;
        MasterPrint 0 0 "REPLAYING...       " [];
        ScreenSetPen COLOR_GREEN; ScreenFillCircle 460 20 15;
        LeftMotorsMove 0; RightMotorsMove 0; IntakeMove 0; OuttakeMove 0;
        MasterPrint 0 0 "REPLAY COMPLETE!   " [];
        ScreenSetPen COLOR_BLACK; ScreenFillCircle 460 20 15]).
Proof.
  intros He. split; [|split].
  - intros Hl. unfold playback, playback_begin. rewrite He.
    pose proof (loadFromSD_failure_on_empty s He Hl) as Hs.
    destruct (loadFromSD s) as [ok s1]. cbn [fst snd] in *. subst.
    reflexivity.
  - unfold loadFromSD, File.fopen_rb. intros [-> | [-> | ->]];
      [reflexivity | destruct (sd_mounted (world s)); reflexivity
      | destruct (sd_mounted (world s)); reflexivity].
  - intros Hm Hf. unfold playback, playback_begin. rewrite He.
    unfold loadFromSD, File.fopen_rb. rewrite Hm, Hf.
    change (File.fread 4 zero_frame_file) with (Some (zero_frame_file, @nil Byte.byte)).
    cbv beta iota.
    change (File.decode_u32 zero_frame_file) with 0.
    change (0 >? MAX_FRAMES) with false. cbv iota.
    change (Z.to_nat 0) with 0%nat. cbn [read_frames repeat negb].
    cbn [self on_self emit on_world recording with_recording with_isPlaying
         with_prevButtons delay playback_prologue].
    rewrite playback_loop_nil.
    eexists. split; [reflexivity|].
    cbn [playback_end emit on_world on_self delay world trace].
    rewrite <- !app_assoc. reflexivity.
Qed.

End PlaybackEntry.

(** C4, as stated, fails: with an empty log in memory and a stored file
    of zero frames, [playback] does not report "no recording" and does
    issue actuator commands. *)
Lemma playback_zero_frame_file_replays :
  exists s',
    playback idle_sensors 0 0 (holding [] (card_with zero_frame_file)) = Some s' /\
    ~ In (MasterPrint 0 0 "NO RECORDING!      " []) (trace (world s')) /\
    filter is_actuator_command (trace (world s'))
    = [LeftMotorsMove 0; RightMotorsMove 0; IntakeMove 0; OuttakeMove 0].
Proof.
  eexists. split; [vm_compute; reflexivity|]. split; [|reflexivity].
  cbn. intuition discriminate.
Qed.

Lemma playback_on_empty_log_witness :
  recording (self (holding [] no_card)) = [] /\
  fst (loadFromSD (holding [] no_card)) = false /\
  playback idle_sensors 0 0 (holding [] no_card)
  = Some (emit (MasterPrint 0 0 "NO RECORDING!      " []) (holding [] no_card)).
Proof.
  split; [reflexivity|]. split; [reflexivity|].
  apply (playback_on_empty_log idle_sensors 0 0 (holding [] no_card) eq_refl).
  reflexivity.
Defined.

(** ** The dispatch of one frame, in closed form *)

Section DispatchForm.

Lemma push_push e1 e2 w : push e2 (push e1 w) = push (e1 ++ e2) w.
Proof. unfold push. cbn. rewrite app_assoc. reflexivity. Qed.

Lemma push_nil w : push [] w = w.
Proof. destruct w. unfold push. cbn. rewrite app_nil_r. reflexivity. Qed.

Lemma emit_push e s : emit e s = on_world (push [e]) s.
Proof. reflexivity. Qed.

Ltac latch_local_by field :=
  intros [a l w]; destruct l as [l1 l2 l3 l4 l5 l6 l7];
  unfold toggleIntakeForward, toggleIntakeReverse, toggleOuttakeForward,
    toggleOuttakeReverse, toggleMidScoring, toggleDescore, toggleUnloader;
  destruct field;
  (eexists; split;
   [ cbv beta iota zeta delta
       [on_latches latches self world with_intakeForward with_intakeReverse
        with_outtakeForward with_outtakeReverse with_midScoring with_descore
        with_unloader intakeForward intakeReverse outtakeForward
        outtakeReverse midScoring descore unloader negb emit on_world
        push clock sd_mounted sd_file sd_free trace];
     rewrite <- ?app_assoc; reflexivity
   | reflexivity ]).

Lemma toggleIntakeForward_local :
  latch_local toggleIntakeForward
    (fun l => with_intakeForward (negb (intakeForward l)) l).
Proof. latch_local_by l1. Qed.

Lemma toggleIntakeReverse_local :
  latch_local toggleIntakeReverse
    (fun l => with_intakeReverse (negb (intakeReverse l)) l).
Proof. latch_local_by l2. Qed.

Lemma toggleOuttakeForward_local :
  latch_local toggleOuttakeForward
    (fun l => with_outtakeForward (negb (outtakeForward l)) l).
Proof. latch_local_by l3. Qed.

Lemma toggleOuttakeReverse_local :
  latch_local toggleOuttakeReverse
    (fun l => with_outtakeReverse (negb (outtakeReverse l)) l).
Proof. latch_local_by l4. Qed.

Lemma toggleMidScoring_local :
  latch_local toggleMidScoring
    (fun l => with_midScoring (negb (midScoring l)) l).
Proof. latch_local_by l5. Qed.

Lemma toggleDescore_local :
  latch_local toggleDescore (fun l => with_descore (negb (descore l)) l).
Proof. latch_local_by l6. Qed.

Lemma toggleUnloader_local :
  latch_local toggleUnloader (fun l => with_unloader (negb (unloader l)) l).
Proof. latch_local_by l7. Qed.

Lemma onPress_local current bit {body fl} :
  latch_local body fl ->
  forall s, exists evs,
    onPress current bit body s =
      mkSystem (self s)
               (if wasPressed current (prevButtons (self s)) bit
                then fl (latches s) else latches s)
               (push evs (world s))
    /\ forallb (fun e => negb (is_drive_command e)) evs = true.
Proof.
  intros Hb s. unfold onPress.
  destruct (wasPressed current (prevButtons (self s)) bit).
  - apply Hb.
  - exists []. rewrite push_nil. destruct s; split; reflexivity.
Qed.

(** One frame's button handling: the previous mask becomes the frame's,
    each latch is flipped exactly when its bit rose, and the commands
    issued concern no drive motor. *)
Lemma handleButtons_closed_form current s :
  exists evs,
    handleButtons current s =
      mkSystem (with_prevButtons current (self s))
               (latches_after current (prevButtons (self s)) (latches s))
               (push evs (world s))
    /\ forallb (fun e => negb (is_drive_command e)) evs = true.
Proof.
  unfold handleButtons.
  destruct (onPress_local current BTN_R1 toggleIntakeForward_local s)
    as (e1 & -> & H1).
  match goal with |- context [onPress _ BTN_R2 _ (mkSystem ?a ?l ?w)] =>
    destruct (onPress_local current BTN_R2 toggleIntakeReverse_local (mkSystem a l w))
      as (e2 & -> & H2) end.
  cbn [self latches world].
  match goal with |- context [onPress _ BTN_L1 _ (mkSystem ?a ?l ?w)] =>
    destruct (onPress_local current BTN_L1 toggleOuttakeForward_local (mkSystem a l w))
      as (e3 & -> & H3) end.
  cbn [self latches world].
  match goal with |- context [onPress _ BTN_L2 _ (mkSystem ?a ?l ?w)] =>
    destruct (onPress_local current BTN_L2 toggleOuttakeReverse_local (mkSystem a l w))
      as (e4 & -> & H4) end.
  cbn [self latches world].
  match goal with |- context [onPress _ BTN_X _ (mkSystem ?a ?l ?w)] =>
    destruct (onPress_local current BTN_X toggleMidScoring_local (mkSystem a l w))
      as (e5 & -> & H5) end.
  cbn [self latches world].
  match goal with |- context [onPress _ BTN_A _ (mkSystem ?a ?l ?w)] =>
    destruct (onPress_local current BTN_A toggleDescore_local (mkSystem a l w))
      as (e6 & -> & H6) end.
  cbn [self latches world].
  match goal with |- context [onPress _ BTN_B _ (mkSystem ?a ?l ?w)] =>
    destruct (onPress_local current BTN_B toggleUnloader_local (mkSystem a l w))
      as (e7 & -> & H7) end.
  cbn [self latches world].
  exists (e1 ++ e2 ++ e3 ++ e4 ++ e5 ++ e6 ++ e7).
  split.
  - unfold on_self. cbn [self latches world]. rewrite !push_push, <- ?app_assoc.
    f_equal. unfold latches_after. destruct (latches s).
    cbn [intakeForward intakeReverse outtakeForward outtakeReverse
         midScoring descore unloader].
    destruct (wasPressed current (prevButtons (self s)) BTN_R1),
      (wasPressed current (prevButtons (self s)) BTN_R2),
      (wasPressed current (prevButtons (self s)) BTN_L1),
      (wasPressed current (prevButtons (self s)) BTN_L2),
      (wasPressed current (prevButtons (self s)) BTN_X),
      (wasPressed current (prevButtons (self s)) BTN_A),
      (wasPressed current (prevButtons (self s)) BTN_B); reflexivity.
  - rewrite !forallb_app, H1, H2, H3, H4, H5, H6, H7. reflexivity.
Qed.

End DispatchForm.

(** ** Runs of the playback loop *)

Section Runs.

Variable hw : Sensors.
Variable fuel : nat.

Lemma dispatchFrame_closed_form f s s1 :
  dispatchFrame hw fuel f s = Some s1 ->
  exists c evs,
    corrected hw fuel (imuCorrectionGain (self s)) f (millis s) = Some c /\
    s1 = mkSystem (with_prevButtons (buttons f) (self s))
                  (latches_after (buttons f) (prevButtons (self s)) (latches s))
                  (push ([LeftMotorsMove (fst c); RightMotorsMove (snd c)] ++ evs)
                        (world s)) /\
    forallb (fun e => negb (is_drive_command e)) evs = true.
Proof.
  unfold dispatchFrame, corrected, get_heading.
  destruct (applyHeadingCorrection _ _ _ _ _ _) as [[l r]|]; [|discriminate].
  intros H. inversion H; subst; clear H.
  destruct (handleButtons_closed_form (buttons f)
              (emit (RightMotorsMove r) (emit (LeftMotorsMove l) s)))
    as (evs & E & Hn).
  exists (l, r), evs. split; [reflexivity|]. split; [|exact Hn].
  rewrite E. cbn [emit on_world self latches world fst snd].
  f_equal. unfold push. cbn [clock sd_mounted sd_file sd_free trace].
  rewrite <- !app_assoc. reflexivity.
Qed.

Lemma dispatch_due_run elapsed rest : forall s rest' s',
  dispatch_due hw fuel elapsed rest s = Some (rest', s') -> Run hw fuel rest s rest' s'.
Proof.
  induction rest as [|f rest IH]; intros s rest' s' H; cbn [dispatch_due] in H.
  - inversion H; subst. constructor.
  - destruct (timestamp f <=? elapsed).
    + destruct (dispatchFrame hw fuel f s) as [s1|] eqn:E; [|discriminate].
      eapply Run_frame; [exact E|]. apply IH. exact H.
    + inversion H; subst. constructor.
Qed.

Lemma Run_trans rest s rest1 s1 rest2 s2 :
  Run hw fuel rest s rest1 s1 -> Run hw fuel rest1 s1 rest2 s2 -> Run hw fuel rest s rest2 s2.
Proof.
  induction 1; intros R2; [exact R2| |].
  - eapply Run_frame; eauto.
  - eapply Run_poll; eauto.
Qed.

Lemma playback_loop_run polls start : forall rest s s',
  playback_loop hw polls fuel start rest s = Some s' -> Run hw fuel rest s [] s'.
Proof.
  induction polls as [|polls IH]; intros rest s s' H;
    destruct rest as [|f rest]; cbn [playback_loop] in H;
    try (inversion H; subst; constructor); try discriminate.
  destruct (dispatch_due hw fuel _ (f :: rest) s) as [[rest1 s1]|] eqn:E;
    [|discriminate].
  eapply Run_trans; [eapply dispatch_due_run; exact E|].
  eapply Run_poll. apply IH. exact H.
Qed.

Lemma same_session_refl s : same_session s s.
Proof. repeat split. Qed.

Lemma same_session_trans s1 s2 s3 :
  same_session s1 s2 -> same_session s2 s3 -> same_session s1 s3.
Proof.
  unfold same_session. intros (?&?&?&?&?&?&?&?) (?&?&?&?&?&?&?&?).
  repeat split; congruence.
Qed.

Lemma poll_tail_same_session elapsed s : same_session s (poll_tail elapsed s).
Proof.
  unfold poll_tail. destruct ((elapsed / 500) mod 2 =? 0); repeat split.
Qed.

(** The loop leaves the log, the flags, the gain and the card alone. *)
Lemma Run_same_session rest s rest' s' :
  Run hw fuel rest s rest' s' -> same_session s s'.
Proof.
  induction 1 as [| f rest s s1 rest' s' D _ IH | e rest s rest' s' _ IH].
  - apply same_session_refl.
  - apply dispatchFrame_closed_form in D. destruct D as (c & evs & _ & -> & _).
    eapply same_session_trans; [|exact IH]. repeat split.
  - eapply same_session_trans; [apply poll_tail_same_session|exact IH].
Qed.

(** Whatever the timing, the latches and the previous mask evolve by
    [replay_latches] over the frames dispatched. *)
Lemma Run_latches rest s rest' s' :
  Run hw fuel rest s rest' s' ->
  replay_latches rest (prevButtons (self s)) (latches s)
  = replay_latches rest' (prevButtons (self s')) (latches s').
Proof.
  induction 1 as [| f rest s s1 rest' s' D _ IH | e rest s rest' s' _ IH].
  - reflexivity.
  - apply dispatchFrame_closed_form in D. destruct D as (c & evs & _ & -> & _).
    cbn [replay_latches]. exact IH.
  - rewrite <- IH. unfold poll_tail.
    destruct ((e / 500) mod 2 =? 0); reflexivity.
Qed.

Lemma no_drive_filter evs :
  forallb (fun e => negb (is_drive_command e)) evs = true ->
  filter is_drive_command evs = [].
Proof.
  induction evs as [|e evs IH]; [reflexivity|].
  cbn [forallb filter]. intros H. apply andb_prop in H. destruct H as [He H].
  destruct (is_drive_command e); [discriminate|]. apply IH. exact H.
Qed.

Lemma poll_tail_trace elapsed s :
  exists c, trace (world (poll_tail elapsed s))
            = trace (world s) ++ [ScreenSetPen c; ScreenFillCircle 460 20 15].
Proof.
  unfold poll_tail. destruct ((elapsed / 500) mod 2 =? 0);
    eexists; cbn [delay emit on_world world trace];
    rewrite <- app_assoc; reflexivity.
Qed.

(** The commands of a run: they extend the trace, and the drive
    commands among them are one corrected pair per frame dispatched, in
    the order of the log. *)
Lemma Run_drive rest s rest' s' :
  Run hw fuel rest s rest' s' ->
  exists done cmds evs,
    rest = done ++ rest' /\
    Forall2 (fun f c => exists t,
               corrected hw fuel (imuCorrectionGain (self s)) f t = Some c) done cmds /\
    trace (world s') = trace (world s) ++ evs /\
    filter is_drive_command evs = drive_commands cmds.
Proof.
  induction 1 as [| f rest s s1 rest' s' D R IH | e rest s rest' s' _ IH].
  - exists [], [], []. cbn. rewrite app_nil_r. repeat split. constructor.
  - apply dispatchFrame_closed_form in D.
    destruct D as (c & evs0 & Hc & -> & Hn).
    destruct IH as (done & cmds & evs1 & -> & F & T & Hf).
    exists (f :: done), (c :: cmds),
      (([LeftMotorsMove (fst c); RightMotorsMove (snd c)] ++ evs0) ++ evs1).
    split; [reflexivity|]. split; [|split].
    + constructor; [exists (millis s); exact Hc|exact F].
    + rewrite T. cbn [world push trace]. rewrite <- !app_assoc. reflexivity.
    + rewrite !filter_app, (no_drive_filter evs0 Hn), Hf. reflexivity.
  - destruct IH as (done & cmds & evs1 & -> & F & T & Hf).
    destruct (poll_tail_trace e s) as [c Ht].
    exists done, cmds, ([ScreenSetPen c; ScreenFillCircle 460 20 15] ++ evs1).
    split; [reflexivity|]. split; [|split].
    + destruct (poll_tail_same_session e s) as (_ & _ & _ & _ & G & _).
      rewrite G in F. exact F.
    + rewrite T, Ht, <- app_assoc. reflexivity.
    + rewrite filter_app, Hf. reflexivity.
Qed.

End Runs.

(** ** Timing of the playback loop *)

Section Timing.

Variable hw : Sensors.
Variable fuel : nat.

Lemma last_due_ge log f : In f log -> timestamp f <= last_due log.
Proof.
  induction log as [|x log IH]; cbn [In last_due fold_right]; [tauto|].
  intros [->|H]; [lia|]. specialize (IH H). unfold last_due in IH. lia.
Qed.

Lemma last_due_nonneg log : 0 <= last_due log.
Proof.
  induction log as [|x log IH]; cbn [last_due fold_right]; [lia|].
  unfold last_due in IH. lia.
Qed.

Lemma last_due_reached log :
  0 < last_due log -> exists f, In f log /\ timestamp f = last_due log.
Proof.
  induction log as [|x log IH]; cbn [last_due fold_right]; [lia|].
  fold (last_due log). intros H.
  destruct (Z_le_gt_dec (last_due log) (timestamp x)).
  - exists x. split; [left; reflexivity|lia].
  - destruct IH as (f & Hf & E); [lia|]. exists f. split; [right; exact Hf|lia].
Qed.

Lemma to_u32_elapsed start d : to_u32 (to_u32 (start + d) - start) = to_u32 d.
Proof.
  unfold to_u32. rewrite Zminus_mod_idemp_l. f_equal. lia.
Qed.

Lemma to_u32_advance x d : to_u32 (to_u32 x + d) = to_u32 (x + d).
Proof. unfold to_u32. apply Zplus_mod_idemp_l. Qed.

Lemma poll_tail_clock elapsed s :
  clock (world (poll_tail elapsed s)) = to_u32 (clock (world s) + 10).
Proof.
  unfold poll_tail. destruct ((elapsed / 500) mod 2 =? 0); reflexivity.
Qed.

Lemma dispatchFrame_defined g f s :
  imuCorrectionGain (self s) = g ->
  corrected hw fuel g f (millis s) <> None ->
  exists s1, dispatchFrame hw fuel f s = Some s1.
Proof.
  intros <-. unfold corrected, dispatchFrame, get_heading.
  destruct (applyHeadingCorrection _ _ _ _ _ _) as [[l r]|]; [|congruence].
  intros _. eexists. reflexivity.
Qed.

(** The inner loop dispatches the frames that are due, stops at the
    first one that is not, and takes no time. *)
Lemma dispatch_due_total g elapsed rest : forall s,
  imuCorrectionGain (self s) = g ->
  corrections_defined hw fuel g rest ->
  exists rest' s',
    dispatch_due hw fuel elapsed rest s = Some (rest', s') /\
    clock (world s') = clock (world s) /\
    (forall f, In f rest -> elapsed < timestamp f -> In f rest') /\
    ((forall f, In f rest -> timestamp f <= elapsed) -> rest' = []).
Proof.
  induction rest as [|f rest IH]; intros s Hg Hd; cbn [dispatch_due].
  - exists [], s. repeat split; intros; auto.
  - destruct (timestamp f <=? elapsed) eqn:E.
    + apply Z.leb_le in E.
      destruct (dispatchFrame_defined g f s Hg) as [s1 D];
        [apply Hd; left; reflexivity|].
      rewrite D. pose proof D as D'.
      apply dispatchFrame_closed_form in D'.
      destruct D' as (c & evs & _ & Es1 & _).
      destruct (IH s1) as (rest' & s' & R & Hc & Hin & Hall).
      { rewrite Es1. exact Hg. }
      { intros x t Hx. apply Hd. right. exact Hx. }
      exists rest', s'. split; [exact R|]. split; [|split].
      * rewrite Hc, Es1. reflexivity.
      * intros x [->|Hx] Hlt; [lia|]. apply Hin; assumption.
      * intros Hle. apply Hall. intros x Hx. apply Hle. right. exact Hx.
    + apply Z.leb_gt in E. exists (f :: rest), s.
      split; [reflexivity|]. split; [reflexivity|]. split.
      * intros x Hx _. exact Hx.
      * intros Hle. specialize (Hle f (or_introl eq_refl)). lia.
Qed.

Lemma dispatch_due_keeps elapsed rest : forall s rest' s',
  dispatch_due hw fuel elapsed rest s = Some (rest', s') ->
  (forall f, In f rest' -> In f rest) /\
  imuCorrectionGain (self s') = imuCorrectionGain (self s).
Proof.
  intros s rest' s' H. apply dispatch_due_run in H. split.
  - apply Run_drive in H. destruct H as (done & cmds & evs & -> & _).
    intros f Hf. apply in_or_app. right. exact Hf.
  - apply Run_same_session in H. apply H.
Qed.

(** From poll [k] on, with the last frame falling due at poll [k + n]
    and no sooner, the loop runs through polls [k], ..., [k + n] and
    returns after the sleep of poll [k + n]. *)
Lemma playback_loop_polls g start : forall n k rest s polls,
  rest <> [] ->
  imuCorrectionGain (self s) = g ->
  corrections_defined hw fuel g rest ->
  0 <= k -> 10 * (k + Z.of_nat n) < U32_MOD ->
  clock (world s) = to_u32 (start + 10 * k) ->
  (forall f, In f rest -> timestamp f <= 10 * (k + Z.of_nat n)) ->
  (n <> O -> exists f, In f rest /\ 10 * (k + Z.of_nat n - 1) < timestamp f) ->
  (S n <= polls)%nat ->
  exists s',
    playback_loop hw polls fuel start rest s = Some s' /\
    clock (world s') = to_u32 (start + 10 * (k + Z.of_nat n + 1)).
Proof.
  induction n as [|n IH]; intros k rest s polls Hne Hg Hd Hk Hw Hc Hle Hlast Hp;
    (destruct polls as [|polls]; [lia|]);
    (destruct rest as [|f0 rest0]; [congruence|]);
    cbn [playback_loop]; unfold millis; rewrite Hc, to_u32_elapsed;
    rewrite (to_u32_id (10 * k)) by (unfold is_u32; lia);
    destruct (dispatch_due_total g (10 * k) (f0 :: rest0) s Hg Hd)
      as (rest' & s1 & R & Hc1 & Hin & Hall);
    rewrite R.
  - rewrite Hall by (intros f Hf; specialize (Hle f Hf); lia).
    destruct polls; cbn [playback_loop];
      (eexists; split; [reflexivity|]);
      rewrite poll_tail_clock, Hc1, Hc, to_u32_advance; f_equal; lia.
  - destruct Hlast as (fl & Hfl & Hlt); [discriminate|].
    assert (Hfl' : In fl rest') by (apply Hin; [exact Hfl|lia]).
    destruct (dispatch_due_keeps _ _ _ _ _ R) as [Hsub Hg1].
    replace (k + Z.of_nat (S n) + 1) with (k + 1 + Z.of_nat n + 1) by lia.
    apply IH.
    + intros ->. exact Hfl'.
    + pose proof (poll_tail_same_session (10 * k) s1) as P.
      destruct P as (_ & _ & _ & _ & P & _). rewrite P, Hg1. exact Hg.
    + intros f t Hf. apply Hd. apply Hsub. exact Hf.
    + lia.
    + lia.
    + rewrite poll_tail_clock, Hc1, Hc, to_u32_advance. f_equal. lia.
    + intros f Hf. specialize (Hle f (Hsub f Hf)). lia.
    + intros _. exists fl. split; [exact Hfl'|lia].
    + lia.
Qed.

End Timing.

(** ** The whole of [playback] *)

Section PlaybackClaims.

Variable hw : Sensors.

Lemma playback_begin_with_log s :
  recording (self s) <> [] ->
  playback_begin s
  = Replaying (fst (playback_prologue s)) (snd (playback_prologue s)).
Proof.
  intros H. unfold playback_begin.
  destruct (recording (self s)); [congruence|]. reflexivity.
Qed.

Lemma playback_prologue_form s :
  playback_prologue s =
    (to_u32 (clock (world s) + 50),
     mkSystem (with_prevButtons 0 (with_isPlaying true (self s)))
              (latches s)
              (mkWorld (to_u32 (clock (world s) + 50))
                       (sd_mounted (world s)) (sd_file (world s))
                       (sd_free (world s))
                       (trace (world s) ++
                          [ImuSetHeading 0;
                           MasterPrint 0 0 "REPLAYING...       " [];
                           ScreenSetPen COLOR_GREEN;
                           ScreenFillCircle 460 20 15]))).
Proof.
  unfold playback_prologue.
  cbv beta iota zeta delta
    [on_self emit on_world delay millis self latches world clock
     sd_mounted sd_file sd_free trace].
  rewrite <- !app_assoc. reflexivity.
Qed.

Lemma playback_end_form s :
  playback_end s =
    mkSystem (with_isPlaying false (self s)) (latches s)
             (push epilogue_events (world s)).
Proof.
  unfold playback_end, push, epilogue_events.
  cbv beta iota zeta delta
    [on_self emit on_world self latches world clock
     sd_mounted sd_file sd_free trace].
  rewrite <- !app_assoc. reflexivity.
Qed.

Lemma events_since_app s s' evs :
  trace (world s') = trace (world s) ++ evs -> events_since s s' = evs.
Proof.
  unfold events_since. intros ->.
  rewrite skipn_app, skipn_all, Nat.sub_diag. reflexivity.
Qed.

End PlaybackClaims.

(** ** Edge detection *)

Section EdgeDetection.

Lemma land_bit_zero x bit :
  0 <= bit -> (Z.land x (Z.shiftl 1 bit) =? 0) = negb (Z.testbit x bit).
Proof.
  intros Hb. rewrite Z.shiftl_1_l.
  destruct (Z.testbit x bit) eqn:E; cbn [negb].
  - apply Z.eqb_neq. intros H.
    assert (T : Z.testbit (Z.land x (2 ^ bit)) bit = true).
    { rewrite Z.land_spec, E, Z.pow2_bits_true by exact Hb. reflexivity. }
    rewrite H, Z.bits_0 in T. discriminate.
  - apply Z.eqb_eq. apply Z.bits_inj'. intros m Hm.
    rewrite Z.land_spec, Z.bits_0, Z.pow2_bits_eqb by exact Hb.
    destruct (Z.eqb_spec bit m) as [->|_];
      [rewrite E; reflexivity|apply andb_false_r].
Qed.

Lemma wasPressed_rising current prev bit :
  0 <= bit -> wasPressed current prev bit = rising current prev bit.
Proof.
  intros Hb. unfold wasPressed, rising.
  rewrite !land_bit_zero by exact Hb. rewrite negb_involutive. reflexivity.
Qed.

Lemma toggle_bit_nonneg t : 0 <= toggle_bit t.
Proof. destruct t; cbv; discriminate. Qed.

(** One frame flips a latch exactly when its bit rises. *)
Lemma latches_after_rising t current prev l :
  latch_of t (latches_after current prev l)
  = xorb (latch_of t l) (rising current prev (toggle_bit t)).
Proof.
  rewrite <- wasPressed_rising by apply toggle_bit_nonneg.
  destruct t; cbn [latch_of latches_after toggle_bit intakeForward
                   intakeReverse outtakeForward outtakeReverse midScoring
                   descore unloader];
    match goal with
    | |- context [wasPressed ?c ?p ?b] => destruct (wasPressed c p b)
    end;
    match goal with
    | |- context [xorb ?x _] => destruct x
    end; reflexivity.
Qed.

Lemma replay_latches_edges t log : forall prev l,
  latch_of t (snd (replay_latches log prev l))
  = fold_left xorb (edges (toggle_bit t) prev (map buttons log)) (latch_of t l).
Proof.
  induction log as [|f log IH]; intros prev l; [reflexivity|].
  cbn [replay_latches map edges fold_left].
  rewrite IH, latches_after_rising. reflexivity.
Qed.

Lemma handleButtons_latches current s :
  latches (handleButtons current s)
  = latches_after current (prevButtons (self s)) (latches s) /\
  prevButtons (self (handleButtons current s)) = current.
Proof.
  destruct (handleButtons_closed_form current s) as (evs & -> & _).
  split; reflexivity.
Qed.

Lemma loadFromSD_keeps s :
  latches (snd (loadFromSD s)) = latches s /\
  _isRecording (self (snd (loadFromSD s))) = _isRecording (self s) /\
  _isPlaying (self (snd (loadFromSD s))) = _isPlaying (self s).
Proof.
  unfold loadFromSD.
  destruct (File.fopen_rb (world s)) as [file|]; [|repeat split].
  destruct (File.fread 4 file) as [[item rest]|]; [|repeat split].
  destruct (File.decode_u32 item >? MAX_FRAMES); [repeat split|].
  destruct (read_frames _ _ _ _); repeat split.
Qed.

End EdgeDetection.

Section EdgeClaims.

Variable hw : Sensors.

(** What [playback] does to the latches, the flags and the log, for
    every way it can return. *)
Lemma playback_frame polls fuel s s' :
  playback hw polls fuel s = Some s' ->
  latches s' = snd (replay_latches (recording (self s')) 0 (latches s)) /\
  _isRecording (self s') = _isRecording (self s) /\
  _isPlaying (self s') = false \/
  (recording (self s') = [] /\ latches s' = latches s /\
   _isRecording (self s') = _isRecording (self s) /\
   _isPlaying (self s') = _isPlaying (self s)).
Proof.
  unfold playback, playback_begin.
  destruct (loadFromSD_keeps s) as (Ll & Lr & Lp).
  set (entry := match recording (self s) with
                | [] => loadFromSD s
                | _ :: _ => (true, s)
                end).
  assert (K : latches (snd entry) = latches s /\
              _isRecording (self (snd entry)) = _isRecording (self s) /\
              _isPlaying (self (snd entry)) = _isPlaying (self s) /\
              (fst entry = false -> recording (self (snd entry)) = [])).
  { subst entry. destruct (recording (self s)) eqn:E.
    - repeat split; try assumption. intros Hf.
      rewrite loadFromSD_failure_on_empty; assumption.
    - repeat split. discriminate. }
  destruct entry as [loaded s0]. cbn [fst snd] in K.
  destruct K as (Kl & Kr & Kp & Ke). destruct loaded; cbn [negb].
  - rewrite playback_prologue_form.
    destruct (playback_loop hw polls fuel _ _ _) as [s1|] eqn:L; [|discriminate].
    intros H. inversion H; subst; clear H. left.
    apply playback_loop_run in L.
    pose proof (Run_latches hw fuel _ _ _ _ L) as RL.
    pose proof (Run_same_session hw fuel _ _ _ _ L) as (Sr & _ & Si & _).
    cbn [self latches recording prevButtons with_prevButtons with_isPlaying
         replay_latches _isRecording] in RL, Sr, Si.
    rewrite playback_end_form.
    cbn [self latches recording with_isPlaying _isRecording _isPlaying].
    rewrite Sr, <- Kl, RL, Si, Kr. repeat split.
  - intros H. inversion H; subst; clear H. right.
    cbn [emit on_world self latches]. rewrite Ke by reflexivity.
    repeat split; assumption.
Qed.

End EdgeClaims.

(** ** Session state *)

Section Session.

Variable hw : Sensors.
Variables polls fuel : nat.

Lemma drawStatusIndicator_self s : self (drawStatusIndicator s) = self s.
Proof.
  unfold drawStatusIndicator. cbn [emit on_world self].
  destruct (_isRecording (self s)); [reflexivity|].
  destruct (_isPlaying (self s)); [reflexivity|].
  destruct (recording (self s)); reflexivity.
Qed.

Lemma saveToSD_self s : self (snd (saveToSD s)) = self s.
Proof.
  unfold saveToSD. destruct (File.fopen_wb (world s)); reflexivity.
Qed.

Lemma run_op_isPlaying op s s' :
  run_op hw polls fuel op s = Some s' ->
  _isPlaying (self s) = false -> _isPlaying (self s') = false.
Proof.
  destruct op; cbn [run_op]; intros H Hp; try (injection H as <-).
  - unfold startRecording. rewrite drawStatusIndicator_self. exact Hp.
  - unfold stopRecording. rewrite drawStatusIndicator_self.
    destruct save; [|exact Hp].
    pose proof (saveToSD_self
                  (emit (MasterRumble ".")
                     (emit (MasterPrint 0 0 "STOPPED: %d frames "
                              [Z.of_nat (length (recording (self
                                 (on_self (with_isRecording false) s))))])
                        (on_self (with_isRecording false) s)))) as E.
    destruct (saveToSD _) as [[] s1]; cbn [snd] in E;
      cbn [emit on_world self]; rewrite E; exact Hp.
  - unfold recordFrame. destruct (negb (_isRecording (self s))); [exact Hp|].
    match goal with
    | |- context [if ?c then _ else _] => destruct c
    end; exact Hp.
  - destruct (playback_frame hw polls fuel s s' H) as [(_ & _ & E)|(_ & _ & _ & E)];
      congruence.
  - exact Hp.
  - rewrite saveToSD_self. exact Hp.
  - destruct (loadFromSD_keeps s) as (_ & _ & E). rewrite E. exact Hp.
  - exact Hp.
  - rewrite drawStatusIndicator_self. exact Hp.
  - exact Hp.
Qed.

Lemma run_ops_isPlaying ops : forall s s',
  run_ops hw polls fuel ops s = Some s' ->
  _isPlaying (self s) = false -> _isPlaying (self s') = false.
Proof.
  induction ops as [|op ops IH]; intros s s' H Hp; cbn [run_ops] in H.
  - inversion H; subst. exact Hp.
  - destruct (run_op hw polls fuel op s) as [s1|] eqn:E; [|discriminate].
    eapply IH; [exact H|]. eapply run_op_isPlaying; eassumption.
Qed.

Lemma playback_begin_flags s t s0 :
  playback_begin s = Replaying t s0 ->
  _isPlaying (self s0) = true /\
  _isRecording (self s0) = _isRecording (self s).
Proof.
  unfold playback_begin. destruct (loadFromSD_keeps s) as (_ & Lr & _).
  destruct (recording (self s)).
  - destruct (loadFromSD s) as [[] s1]; cbn [negb snd] in *; [|discriminate].
    rewrite playback_prologue_form. intros H. inversion H; subst.
    split; [reflexivity|exact Lr].
  - cbn [negb]. rewrite playback_prologue_form. intros H. inversion H; subst.
    split; reflexivity.
Qed.

(** C9 (amended).  Whenever a sequence of public operations has run,
    [_isPlaying] is false: between operations the two flags are never
    both true.  [playback] does not look at [_isRecording]: a playback
    entered from such a state runs its loop with [_isPlaying] true and
    [_isRecording] as it was at the call, so both flags are true
    throughout a playback that is started while recording. *)
Theorem flags_between_and_within_operations ops w s :
  run_ops hw polls fuel ops (initial w) = Some s ->
  _isPlaying (self s) = false /\
  (forall t s0 rest s1,
      playback_begin s = Replaying t s0 ->
      Run hw fuel (recording (self s0)) s0 rest s1 ->
      _isPlaying (self s1) = true /\
      _isRecording (self s1) = _isRecording (self s)).
Proof.
  intros H. split.
  - eapply run_ops_isPlaying; [exact H|reflexivity].
  - intros t s0 rest s1 B R.
    destruct (playback_begin_flags s t s0 B) as [Bp Br].
    apply Run_same_session in R. destruct R as (_ & _ & Rr & Rp & _).
    rewrite Rp, Rr. split; assumption.
Qed.

End Session.

(** C9, as stated, fails: start recording, record one frame, call
    [playback]: inside [playback] both flags are true. *)
Lemma playback_while_recording_sets_both_flags :
  run_ops idle_sensors 0 0 [OpStartRecording; OpRecordFrame] (initial no_card)
  = Some recording_one_frame /\
  match playback_begin recording_one_frame with
  | Replaying _ s0 => _isRecording (self s0) = true /\ _isPlaying (self s0) = true
  | NoRecording _ => False
  end.
Proof.
  split; [vm_compute; reflexivity|]. vm_compute. split; reflexivity.
Qed.

Lemma flags_between_and_within_operations_witness :
  run_ops idle_sensors 0 0 [OpStartRecording; OpRecordFrame] (initial no_card)
  = Some recording_one_frame /\
  _isPlaying (self recording_one_frame) = false.
Proof.
  split; [vm_compute; reflexivity|].
  refine (proj1 (flags_between_and_within_operations idle_sensors 0 0
                   [OpStartRecording; OpRecordFrame] no_card
                   recording_one_frame _)).
  vm_compute. reflexivity.
Defined.

(** ** binary32 facts used by the heading normalisation *)

Module F32Facts.

Lemma digits2_pos_bounds p :
  2 ^ (Zpos (digits2_pos p) - 1) <= Zpos p < 2 ^ Zpos (digits2_pos p).
Proof.
  induction p as [p IH|p IH|]; cbn [digits2_pos].
  - rewrite Pos2Z.inj_succ. change (Zpos p~1) with (2 * Zpos p + 1).
    set (d := Zpos (digits2_pos p)) in *.
    replace (Z.succ d - 1) with (Z.succ (d - 1)) by lia.
    rewrite (Z.pow_succ_r 2 (d - 1)), (Z.pow_succ_r 2 d) by (subst d; lia). lia.
  - rewrite Pos2Z.inj_succ. change (Zpos p~0) with (2 * Zpos p).
    set (d := Zpos (digits2_pos p)) in *.
    replace (Z.succ d - 1) with (Z.succ (d - 1)) by lia.
    rewrite (Z.pow_succ_r 2 (d - 1)), (Z.pow_succ_r 2 d) by (subst d; lia). lia.
  - cbn. lia.
Qed.

Lemma digits2_pos_unique p d :
  2 ^ (d - 1) <= Zpos p < 2 ^ d -> Zpos (digits2_pos p) = d.
Proof.
  intros [Hl Hu]. pose proof (digits2_pos_bounds p) as [Bl Bu].
  assert (0 < d).
  { destruct (Z_lt_le_dec 0 d); [assumption|].
    assert (2 ^ d <= 2 ^ 0) by (destruct (Z.eq_dec d 0) as [->|];
      [lia|rewrite Z.pow_neg_r by lia; cbn; lia]).
    cbn in *. lia. }
  destruct (Z.lt_trichotomy (Zpos (digits2_pos p)) d) as [L|[E|G]];
    [|exact E|].
  - assert (2 ^ Zpos (digits2_pos p) <= 2 ^ (d - 1))
      by (apply Z.pow_le_mono_r; lia). lia.
  - assert (2 ^ d <= 2 ^ (Zpos (digits2_pos p) - 1))
      by (apply Z.pow_le_mono_r; lia). lia.
Qed.

Lemma digits2_pos_le p k :
  0 <= k -> Zpos p < 2 ^ k -> Zpos (digits2_pos p) <= k.
Proof.
  intros Hk Hp. pose proof (digits2_pos_bounds p) as [Bl _].
  destruct (Z_le_gt_dec (Zpos (digits2_pos p)) k); [assumption|].
  assert (2 ^ k <= 2 ^ (Zpos (digits2_pos p) - 1))
    by (apply Z.pow_le_mono_r; lia). lia.
Qed.

Lemma iter_xO_value k p : Zpos (Pos.iter xO p k) = Zpos p * 2 ^ Zpos k.
Proof.
  induction k as [|k IH] using Pos.peano_ind.
  - cbn [Pos.iter]. change (2 ^ 1) with 2. lia.
  - rewrite Pos.iter_succ.
    change (Zpos (Pos.iter xO p k)~0) with (2 * Zpos (Pos.iter xO p k)).
    rewrite IH, Pos2Z.inj_succ, Z.pow_succ_r by lia. lia.
Qed.

Lemma shl_align_value mx ex ex' :
  ex' <= ex ->
  Zpos (fst (shl_align mx ex ex')) = Zpos mx * 2 ^ (ex - ex') /\
  snd (shl_align mx ex ex') = ex'.
Proof.
  intros H. unfold shl_align.
  destruct (ex' - ex) as [|d|d] eqn:E; [| lia |].
  - assert (ex = ex') by lia. subst. cbn [fst snd].
    rewrite Z.sub_diag. cbn. split; lia.
  - cbn [fst snd]. rewrite iter_xO_value.
    replace (ex - ex') with (Zpos d) by lia. split; reflexivity.
Qed.

(** Rounding a mantissa of at most 24 bits is exact: the result is the
    normal number of the same value. *)
Lemma binary_round_exact s p ex :
  Zpos p < 2 ^ 24 -> -100 <= ex <= 80 ->
  exists m' e',
    binary_round F32.prec F32.emax s p ex = S754_finite s m' e' /\
    2 ^ 23 <= Zpos m' < 2 ^ 24 /\
    e' = ex - (24 - Zpos (digits2_pos p)) /\
    Zpos m' = Zpos p * 2 ^ (ex - e').
Proof.
  intros Hp He. pose proof (digits2_pos_bounds p) as [Bl Bu].
  set (d := Zpos (digits2_pos p)) in *.
  assert (Hd : 1 <= d <= 24).
  { split; [subst d; lia|].
    destruct (Z_le_gt_dec d 24); [assumption|].
    assert (2 ^ 24 <= 2 ^ (d - 1)) by (apply Z.pow_le_mono_r; lia). lia. }
  unfold binary_round.
  assert (Hf : fexp F32.prec F32.emax (d + ex) = ex - (24 - d)).
  { unfold fexp, emin, F32.prec, F32.emax. lia. }
  fold d. rewrite Hf.
  destruct (shl_align_value p ex (ex - (24 - d)) ltac:(lia)) as [Hv Hs].
  destruct (shl_align p ex (ex - (24 - d))) as [mz ez]. cbn [fst snd] in Hv, Hs.
  subst ez. replace (ex - (ex - (24 - d))) with (24 - d) in Hv by lia.
  assert (Hm : 2 ^ 23 <= Zpos mz < 2 ^ 24).
  { rewrite Hv.
    assert (E23 : 2 ^ 23 = 2 ^ (d - 1) * 2 ^ (24 - d))
      by (rewrite <- Z.pow_add_r by lia; f_equal; lia).
    assert (E24 : 2 ^ 24 = 2 ^ d * 2 ^ (24 - d))
      by (rewrite <- Z.pow_add_r by lia; f_equal; lia).
    assert (0 < 2 ^ (24 - d)) by (apply Z.pow_pos_nonneg; lia).
    rewrite E23, E24. split.
    - apply Z.mul_le_mono_nonneg_r; lia.
    - apply Z.mul_lt_mono_pos_r; lia. }
  assert (Hdz : Zpos (digits2_pos mz) = 24)
    by (apply digits2_pos_unique; exact Hm).
  exists mz, (ex - (24 - d)).
  split; [|split; [exact Hm|split; [reflexivity|]]].
  - unfold binary_round_aux, shr_fexp. cbn [Zdigits2 shr_record_of_loc].
    rewrite Hdz.
    assert (Hf2 : fexp F32.prec F32.emax (24 + (ex - (24 - d))) = ex - (24 - d)).
    { unfold fexp, emin, F32.prec, F32.emax. lia. }
    rewrite Hf2, Z.sub_diag. cbn [shr shr_m loc_of_shr_record round_nearest_even].
    cbn [Zdigits2 shr_record_of_loc]. rewrite Hdz, Hf2, Z.sub_diag.
    cbn [shr shr_m].
    replace (ex - (24 - d) <=? F32.emax - F32.prec) with true; [reflexivity|].
    symmetry. apply Z.leb_le. unfold F32.emax, F32.prec. lia.
  - rewrite Hv. f_equal. f_equal. lia.
Qed.

Lemma of_bits_sign b : has_sign (Z.testbit b 31) (F32.of_bits b).
Proof.
  unfold F32.of_bits.
  destruct (Z.land (Z.shiftr b 23) 255 =? 0).
  - destruct (Z.land b (2 ^ 23 - 1)); reflexivity.
  - destruct (Z.land (Z.shiftr b 23) 255 =? 255).
    + destruct (Z.land b (2 ^ 23 - 1) =? 0); reflexivity.
    + destruct (Z.land b (2 ^ 23 - 1) + 2 ^ 23); reflexivity.
Qed.

Lemma land_low b : Z.land b (2 ^ 23 - 1) = b mod 2 ^ 23.
Proof. change (2 ^ 23 - 1) with (Z.ones 23). apply Z.land_ones. lia. Qed.

Lemma land_byte b : Z.land b 255 = b mod 2 ^ 8.
Proof. change 255 with (Z.ones 8). apply Z.land_ones. lia. Qed.

(** Decoding yields a zero, an infinity, a NaN, a subnormal or a normal
    number. *)
Lemma of_bits_shape b :
  match F32.of_bits b with
  | S754_finite _ m e =>
      (Zpos m < 2 ^ 23 /\ e = -149) \/
      (2 ^ 23 <= Zpos m < 2 ^ 24 /\ -149 <= e <= 104)
  | _ => True
  end.
Proof.
  unfold F32.of_bits. rewrite land_low, land_byte.
  pose proof (Z.mod_pos_bound b (2 ^ 23) ltac:(lia)) as Hm.
  pose proof (Z.mod_pos_bound (Z.shiftr b 23) (2 ^ 8) ltac:(lia)) as He.
  destruct (Z.eqb_spec (Z.shiftr b 23 mod 2 ^ 8) 0) as [E0|E0].
  - destruct (b mod 2 ^ 23) as [|p|p] eqn:E; [exact I| |exact I].
    left. split; [lia|reflexivity].
  - destruct (Z.eqb_spec (Z.shiftr b 23 mod 2 ^ 8) 255) as [E1|E1].
    + destruct (b mod 2 ^ 23 =? 0); exact I.
    + destruct (b mod 2 ^ 23 + 2 ^ 23) as [|p|p] eqn:E; [exact I| |exact I].
      right. change (2 ^ 8) with 256 in *. lia.
Qed.

(** Encoding then decoding a normal number gives it back. *)
Lemma of_to_bits_normal s m e :
  2 ^ 23 <= Zpos m < 2 ^ 24 -> -149 <= e <= 104 ->
  F32.of_bits (F32.to_bits (S754_finite s m e)) = S754_finite s m e.
Proof.
  intros Hm He. unfold F32.to_bits.
  replace (Zpos m <? 2 ^ 23) with false by (symmetry; apply Z.ltb_ge; lia).
  rewrite (Z.mod_small (e + 150)) by lia.
  rewrite (Z.mod_small (Zpos m - 2 ^ 23)) by lia.
  set (S := if s then 2 ^ 31 else 0).
  set (E := e + 150). set (M := Zpos m - 2 ^ 23).
  assert (HS : S = 0 \/ S = 2 ^ 31) by (subst S; destruct s; auto).
  assert (HE : 1 <= E <= 254) by (subst E; lia).
  assert (HM : 0 <= M < 2 ^ 23) by (subst M; lia).
  unfold F32.of_bits. rewrite land_low, land_byte, Z.shiftr_div_pow2 by lia.
  assert (HS' : exists k, (k = 0 \/ k = 256) /\ S = k * 2 ^ 23).
  { destruct HS as [->| ->]; [exists 0|exists 256]; split; auto. }
  destruct HS' as (k & Hk & HSk).
  assert (D23 : (S + E * 2 ^ 23 + M) / 2 ^ 23 = k + E).
  { rewrite HSk. replace (k * 2 ^ 23 + E * 2 ^ 23 + M) with (M + (k + E) * 2 ^ 23) by lia.
    rewrite Z.div_add by lia. rewrite Z.div_small by lia. lia. }
  assert (M23 : (S + E * 2 ^ 23 + M) mod 2 ^ 23 = M).
  { rewrite HSk. replace (k * 2 ^ 23 + E * 2 ^ 23 + M) with (M + (k + E) * 2 ^ 23) by lia.
    rewrite Z.mod_add by lia. apply Z.mod_small. lia. }
  assert (E8 : (k + E) mod 2 ^ 8 = E).
  { change (2 ^ 8) with 256. destruct Hk as [->| ->].
    - rewrite Z.add_0_l. apply Z.mod_small. lia.
    - replace (256 + E) with (E + 1 * 256) by lia.
      rewrite Z.mod_add by lia. apply Z.mod_small. lia. }
  assert (T : Z.testbit (S + E * 2 ^ 23 + M) 31 = s).
  { destruct s; subst S.
    - apply Z.testbit_true; [lia|].
      replace (2 ^ 31 + E * 2 ^ 23 + M) with (E * 2 ^ 23 + M + 1 * 2 ^ 31) by lia.
      rewrite Z.div_add by lia. rewrite Z.div_small; [reflexivity|].
      change (2 ^ 31) with (256 * 2 ^ 23). lia.
    - apply Z.testbit_false; [lia|].
      rewrite Z.add_0_l. rewrite Z.div_small; [reflexivity|].
      change (2 ^ 31) with (256 * 2 ^ 23). lia. }
  rewrite D23, M23, E8, T.
  replace (E =? 0) with false by (symmetry; apply Z.eqb_neq; lia).
  replace (E =? 255) with false by (symmetry; apply Z.eqb_neq; lia).
  subst M E. replace (Zpos m - 2 ^ 23 + 2 ^ 23) with (Zpos m) by lia.
  f_equal. lia.
Qed.

(** Encoding then decoding keeps the sign. *)
Lemma of_to_bits_sign s x :
  has_sign s x -> has_sign s (F32.of_bits (F32.to_bits x)).
Proof.
  destruct x as [s'|s'| |s' m e]; cbn [has_sign].
  - intros ->. destruct s; vm_compute; reflexivity.
  - intros ->. destruct s; vm_compute; reflexivity.
  - intros _. vm_compute. exact I.
  - intros ->.
    assert (T : exists y, F32.to_bits (S754_finite s m e)
                          = (if s then 2 ^ 31 else 0) + y /\ 0 <= y < 2 ^ 31).
    { unfold F32.to_bits. destruct (Z.ltb_spec (Zpos m) (2 ^ 23)).
      - exists (Zpos m). split; [reflexivity|]. change (2 ^ 31) with (256 * 2 ^ 23). lia.
      - exists (((e + 150) mod 256) * 2 ^ 23 + (Zpos m - 2 ^ 23) mod 2 ^ 23).
        split; [lia|].
        pose proof (Z.mod_pos_bound (e + 150) 256 ltac:(lia)).
        pose proof (Z.mod_pos_bound (Zpos m - 2 ^ 23) (2 ^ 23) ltac:(lia)).
        change (2 ^ 31) with (256 * 2 ^ 23). lia. }
    destruct T as (y & -> & Hy).
    assert (B : Z.testbit ((if s then 2 ^ 31 else 0) + y) 31 = s).
    { destruct s.
      - apply Z.testbit_true; [lia|].
        replace (2 ^ 31 + y) with (y + 1 * 2 ^ 31) by lia.
        rewrite Z.div_add by lia. rewrite Z.div_small by lia. reflexivity.
      - apply Z.testbit_false; [lia|].
        rewrite Z.add_0_l, Z.div_small by lia. reflexivity. }
    pose proof (of_bits_sign ((if s then 2 ^ 31 else 0) + y)) as Hs.
    rewrite B in Hs. exact Hs.
Qed.

Lemma binary_round_sign s p e :
  has_sign s (binary_round F32.prec F32.emax s p e).
Proof.
  unfold binary_round, binary_round_aux.
  destruct (shl_align _ _ _) as [mz ez].
  destruct (shr_fexp _ _ _ _ _) as [mrs e'].
  destruct (shr_fexp _ _ _ _ _) as [mrs' e''].
  destruct (shr_m mrs'); cbn [has_sign]; [reflexivity| |exact I].
  destruct (e'' <=? F32.emax - F32.prec); reflexivity.
Qed.

Lemma not_above_negative M E y :
  has_sign true y -> SFltb (S754_finite false M E) y = false.
Proof. destruct y; cbn; intros H; try subst; reflexivity. Qed.

Lemma not_below_positive M E y :
  has_sign false y -> SFltb y (S754_finite true M E) = false.
Proof. destruct y; cbn; intros H; try subst; reflexivity. Qed.

Lemma of_int_180 : F32.of_bits (F32.of_int 180) = C180.
Proof. vm_compute. reflexivity. Qed.
Lemma of_int_360 : F32.of_bits (F32.of_int 360) = C360.
Proof. vm_compute. reflexivity. Qed.
Lemma of_int_m180 : F32.of_bits (F32.of_int (-180)) = Cm180.
Proof. vm_compute. reflexivity. Qed.

(** Numbers below -180: minus infinity, or a normal negative number of
    larger magnitude than 180. *)
Lemma below_m180 b :
  SFltb (F32.of_bits b) Cm180 = true ->
  F32.of_bits b = S754_infinity true \/
  exists m e,
    F32.of_bits b = S754_finite true m e /\
    2 ^ 23 <= Zpos m < 2 ^ 24 /\ e <= 104 /\
    (-16 < e \/ (e = -16 /\ 11796480 < Zpos m)).
Proof.
  pose proof (of_bits_shape b) as Sh.
  destruct (F32.of_bits b) as [s|s| |s m e]; unfold SFltb, SFcompare, Cm180.
  - discriminate.
  - destruct s; [left; reflexivity|discriminate].
  - discriminate.
  - destruct s; [|discriminate]. intros H. right. exists m, e.
    destruct (Z.compare_spec e (-16)) as [E|E|E]; try discriminate.
    + destruct Sh as [[_ ?]|[? ?]]; [lia|].
      split; [reflexivity|]. split; [assumption|]. split; [lia|]. right.
      split; [exact E|].
      pose proof (Pos.compare_spec m 11796480) as C.
      unfold Pos.compare in C. destruct C; try discriminate. lia.
    + destruct Sh as [[_ ?]|[? ?]]; [lia|].
      split; [reflexivity|]. split; [assumption|]. split; [lia|]. left. lia.
Qed.

(** Adding 360 to a number below -180 never gives a number above 180. *)
Lemma add_360_not_above b :
  F32.lt b (F32.of_int (-180)) = true ->
  F32.gt (F32.add b (F32.of_int 360)) (F32.of_int 180) = false.
Proof.
  unfold F32.lt, F32.gt, F32.add. rewrite of_int_180, of_int_360, of_int_m180.
  intros H. apply below_m180 in H. destruct H as [->|(m & e & -> & Hm & He & Hc)].
  - vm_compute. reflexivity.
  - unfold C360. cbn [SFadd cond_Zopp].
    set (ez := Z.min e (-15)).
    destruct (shl_align_value m e ez ltac:(subst ez; lia)) as [HA _].
    destruct (shl_align_value 11796480 (-15) ez ltac:(subst ez; lia)) as [HB _].
    set (A := Zpos (fst (shl_align m e ez))) in *.
    set (B := Zpos (fst (shl_align 11796480 (-15) ez))) in *.
    assert (Hsum : (e = -16 /\ ez = -16 /\ 6815744 < - A + B < 11796480) \/
                   (ez = -15 /\ - A + B <= 3407872)).
    { destruct (Z.eq_dec e (-16)) as [->|Hne].
      - left. subst ez. cbn in HA, HB. split; [reflexivity|].
        split; [reflexivity|]. change (2 ^ 24) with 16777216 in Hm. lia.
      - right. assert (Ez : ez = -15) by (subst ez; lia). split; [exact Ez|].
        rewrite Ez in HA, HB. rewrite Z.sub_diag in HB.
        change (2 ^ 0) with 1 in HB.
        assert (0 < 2 ^ (e - -15)) by (apply Z.pow_pos_nonneg; lia).
        change (2 ^ 23) with 8388608 in Hm. nia. }
    destruct (- A + B) as [|p|p] eqn:Es.
    + vm_compute. reflexivity.
    + cbn [binary_normalize].
      assert (Hp : Zpos p < 2 ^ 24)
        by (change (2 ^ 24) with 16777216; lia).
      assert (Hez : -100 <= ez <= 80) by (clear - Hsum; lia).
      pose proof (digits2_pos_le p 24 ltac:(lia) Hp) as Hd.
      pose proof (digits2_pos_bounds p) as [Dl Du].
      destruct (binary_round_exact false p ez Hp Hez)
        as (m' & e' & -> & Hm' & He' & Hv).
      rewrite of_to_bits_normal by (try assumption; lia).
      unfold SFltb, SFcompare, C180.
      destruct (Z.compare_spec (-16) e') as [E|E|E]; [| |reflexivity].
      * destruct Hsum as [(_ & Ez & Hs)|(Ez & Hs)]; [|exfalso].
        -- assert (D : Zpos (digits2_pos p) = 24) by lia.
           rewrite Ez, <- E, Z.sub_diag in Hv. change (2 ^ 0) with 1 in Hv.
           pose proof (Pos.compare_spec 11796480 m') as C.
           unfold Pos.compare in C. destruct C; try reflexivity; lia.
        -- assert (Zpos (digits2_pos p) <= 22)
             by (apply digits2_pos_le;
                 [lia|change (2 ^ 22) with 4194304; lia]).
           lia.
      * exfalso. destruct Hsum as [(_ & Ez & Hs)|(Ez & Hs)]; [lia|].
        assert (Zpos (digits2_pos p) <= 22)
          by (apply digits2_pos_le;
              [lia|change (2 ^ 22) with 4194304; lia]).
        lia.
    + cbn [binary_normalize]. apply not_above_negative.
      apply of_to_bits_sign. apply binary_round_sign.
Qed.

End F32Facts.

(** ** Heading correction *)

Section HeadingClaims.
Import HeadingSpec F32Facts.

Lemma wrap_down_exit fuel : forall x e,
  wrap_down fuel x = Some e -> F32.gt e (F32.of_int 180) = false.
Proof.
  induction fuel as [|fuel IH]; intros x e; cbn [wrap_down];
    destruct (F32.gt x (F32.of_int 180)) eqn:G; try discriminate.
  - intros H. inversion H; subst. exact G.
  - apply IH.
  - intros H. inversion H; subst. exact G.
Qed.

Lemma wrap_up_range fuel : forall x e,
  F32.gt x (F32.of_int 180) = false ->
  wrap_up fuel x = Some e ->
  F32.gt e (F32.of_int 180) = false /\ F32.lt e (F32.of_int (-180)) = false.
Proof.
  induction fuel as [|fuel IH]; intros x e Hx; cbn [wrap_up];
    destruct (F32.lt x (F32.of_int (-180))) eqn:L; try discriminate.
  - intros H. inversion H; subst. split; assumption.
  - apply IH. apply add_360_not_above. exact L.
  - intros H. inversion H; subst. split; assumption.
Qed.

(** Whenever the normalisation returns, its result is neither above 180
    nor below -180. *)
Lemma wrap180_range fuel x e :
  wrap180 fuel x = Some e ->
  F32.gt e (F32.of_int 180) = false /\ F32.lt e (F32.of_int (-180)) = false.
Proof.
  unfold wrap180. destruct (wrap_down fuel x) as [y|] eqn:D; [|discriminate].
  apply wrap_up_range. eapply wrap_down_exit. exact D.
Qed.

Lemma above_30_not_below c :
  F32.gt c (F32.of_int 30) = true -> F32.lt c (F32.of_int (-30)) = false.
Proof.
  unfold F32.gt, F32.lt.
  replace (F32.of_bits (F32.of_int 30)) with (S754_finite false 15728640 (-19))
    by (vm_compute; reflexivity).
  replace (F32.of_bits (F32.of_int (-30))) with (S754_finite true 15728640 (-19))
    by (vm_compute; reflexivity).
  destruct (F32.of_bits c) as [s|s| |s m e]; try destruct s;
    unfold SFltb, SFcompare; intros H;
    first [reflexivity | discriminate H].
Qed.

Lemma clamp_steps_30 c :
  (let c1 := if F32.gt c (F32.of_int 30) then F32.of_int 30 else c in
   if F32.lt c1 (F32.of_int (-30)) then F32.of_int (-30) else c1)
  = clampF c (F32.of_int (-30)) (F32.of_int 30).
Proof.
  unfold clampF. cbv zeta. destruct (F32.gt c (F32.of_int 30)) eqn:G.
  - rewrite (above_30_not_below c G). vm_compute. reflexivity.
  - destruct (F32.lt c (F32.of_int (-30))); reflexivity.
Qed.

Lemma clamp_steps_127 v :
  (let v1 := if v >? 127 then 127 else v in
   if v1 <? -127 then -127 else v1)
  = clampZ v (-127) 127.
Proof.
  unfold clampZ. cbv zeta.
  destruct (Z.gtb_spec v 127).
  - change (127 <? -127) with false. cbv iota. lia.
  - destruct (Z.ltb_spec v (-127)); lia.
Qed.

Lemma applyHeadingCorrection_commanded fuel gain left right target current error :
  wrap180 fuel (F32.sub target current) = Some error ->
  applyHeadingCorrection fuel gain left right target current
  = commanded (correction error gain) left right.
Proof.
  unfold wrap180, applyHeadingCorrection, commanded, correction.
  destruct (wrap_down fuel (F32.sub target current)) as [e1|]; [|discriminate].
  intros ->. cbv zeta.
  pose proof (clamp_steps_30 (F32.mul error gain)) as C. cbv zeta in C.
  rewrite C.
  destruct (F32.to_int _) as [l|]; [|reflexivity].
  destruct (F32.to_int _) as [r|]; [|reflexivity].
  pose proof (clamp_steps_127 l) as Cl. pose proof (clamp_steps_127 r) as Cr.
  cbv zeta in Cl, Cr. rewrite Cl, Cr. reflexivity.
Qed.

End HeadingClaims.

(** C2, as stated, fails: with sticks at 100, a recorded heading of 0.25
    degrees, a live heading of 0 and the default gain, the correction is
    0.5; the stated formulas give 99.5 and 100.5, the code commands 99
    and 100. *)
Lemma heading_correction_truncates :
  HeadingSpec.wrap180 0 (F32.sub QUARTER_DEGREE 0) = Some QUARTER_DEGREE /\
  HeadingSpec.correction QUARTER_DEGREE GAIN_DEFAULT = HALF /\
  applyHeadingCorrection 0 GAIN_DEFAULT 100 100 QUARTER_DEGREE 0 = Some (99, 100) /\
  HeadingSpec.stated_left HALF 100 = 0x42C70000 /\
  HeadingSpec.stated_right HALF 100 = 0x42C90000 /\
  HeadingSpec.stated_left HALF 100 <> F32.of_int 99 /\
  HeadingSpec.stated_right HALF 100 <> F32.of_int 100.
Proof.
  repeat split; vm_compute; try reflexivity; discriminate.
Qed.

(** ** Repeated playback *)

(** C1 fails on the code.  [playback] resets the previous mask but not
    the latches, which are function-local statics.  Playing the log
    [one_press] twice in a row: the first run ends with [intakeForward]
    set and answers the R1 press with [IntakeMove 127]; the second run
    starts from that latch and answers the same press with
    [IntakeMove 0]. *)
Theorem playback_twice_differs :
  exists s1 s2,
    playback idle_sensors 3 0 one_press = Some s1 /\
    playback idle_sensors 3 0 s1 = Some s2 /\
    prevButtons (self (snd (playback_prologue s1))) = 0 /\
    latches (snd (playback_prologue s1)) = latches s1 /\
    intakeForward (latches s1) = true /\
    actuator_commands one_press s1
    = [LeftMotorsMove 100; RightMotorsMove 100; IntakeMove 127;
       LeftMotorsMove 0; RightMotorsMove 0; IntakeMove 0; OuttakeMove 0] /\
    actuator_commands s1 s2
    = [LeftMotorsMove 100; RightMotorsMove 100; IntakeMove 0;
       LeftMotorsMove 0; RightMotorsMove 0; IntakeMove 0; OuttakeMove 0].
Proof.
  destruct (playback idle_sensors 3 0 one_press) as [s1|] eqn:E1;
    [|vm_compute in E1; discriminate].
  destruct (playback idle_sensors 3 0 s1) as [s2|] eqn:E2.
  - exists s1, s2. split; [reflexivity|]. split; [exact E2|].
    vm_compute in E1. inversion E1; subst s1; clear E1.
    vm_compute in E2. inversion E2; subst s2; clear E2.
    repeat split; vm_compute; reflexivity.
  - vm_compute in E1. inversion E1; subst s1. vm_compute in E2. discriminate.
Qed.

(** * Further properties *)

(** ** binary32: rounding, magnitudes and exact sums *)

Import F32Facts.

Lemma shr_1_m mrs : 0 <= shr_m mrs -> shr_m (shr_1 mrs) = shr_m mrs / 2.
Proof.
  destruct mrs as [m r s]. cbn [shr_m]. intros H.
  destruct m as [|p|p]; [reflexivity| |lia].
  destruct p as [p|p|]; cbn [shr_1 shr_m].
  - apply Z.div_unique with (r := 1); lia.
  - apply Z.div_unique with (r := 0); lia.
  - reflexivity.
Qed.

Lemma iter_shr_m n : forall mrs,
  0 <= shr_m mrs ->
  shr_m (iter_pos shr_1 n mrs) = shr_m mrs / 2 ^ Zpos n.
Proof.
  induction n as [n IH|n IH|]; intros mrs H; cbn [iter_pos].
  - assert (P : 0 < 2 ^ Zpos n) by (apply Z.pow_pos_nonneg; lia).
    assert (H1 : 0 <= shr_m (shr_1 mrs))
      by (rewrite shr_1_m by exact H; apply Z.div_pos; lia).
    assert (H2 : 0 <= shr_m (iter_pos shr_1 n (shr_1 mrs)))
      by (rewrite IH by exact H1; apply Z.div_pos; lia).
    rewrite IH by exact H2. rewrite IH by exact H1. rewrite shr_1_m by exact H.
    rewrite !Z.div_div by lia.
    f_equal. change (Zpos n~1) with (2 * Zpos n + 1).
    replace (2 * Zpos n + 1) with (1 + Zpos n + Zpos n) by lia.
    rewrite !Z.pow_add_r by lia. change (2 ^ 1) with 2. lia.
  - assert (P : 0 < 2 ^ Zpos n) by (apply Z.pow_pos_nonneg; lia).
    assert (H2 : 0 <= shr_m (iter_pos shr_1 n mrs))
      by (rewrite IH by exact H; apply Z.div_pos; lia).
    rewrite IH by exact H2. rewrite IH by exact H.
    rewrite !Z.div_div by lia.
    f_equal. change (Zpos n~0) with (2 * Zpos n).
    replace (2 * Zpos n) with (Zpos n + Zpos n) by lia.
    rewrite !Z.pow_add_r by lia. reflexivity.
  - rewrite shr_1_m by exact H. reflexivity.
Qed.

Lemma round_nearest_even_cases m l :
  round_nearest_even m l = m \/ round_nearest_even m l = m + 1.
Proof.
  destruct l as [|[]]; cbn [round_nearest_even]; auto.
  destruct (Z.even m); auto.
Qed.

Lemma pow2_pos k : 0 <= k -> 0 < 2 ^ k.
Proof. intros. apply Z.pow_pos_nonneg; lia. Qed.

Lemma fexp32 k : fexp F32.prec F32.emax k = Z.max (k - 24) (-149).
Proof. reflexivity. Qed.

(** Rounding a number below [2^K] gives a canonical number of at most
    [2^K]. *)
Lemma binary_round_bound s p ex K :
  -149 <= ex -> K <= 127 ->
  Zpos p * 2 ^ (ex + 149) < 2 ^ (K + 149) ->
  exists m' e',
    binary_round F32.prec F32.emax s p ex = S754_finite s m' e' /\
    canonical32 m' e' /\
    Zpos m' * 2 ^ (e' + 149) <= 2 ^ (K + 149).
Proof.
  intros Hex HK Hv. pose proof (digits2_pos_bounds p) as [Bl Bu].
  set (d := Zpos (digits2_pos p)) in *.
  assert (Hd1 : 1 <= d) by (subst d; lia).
  assert (HK0 : 0 <= K + 149).
  { destruct (Z_lt_le_dec (K + 149) 0) as [N|N]; [|exact N].
    rewrite (Z.pow_neg_r 2 (K + 149)) in Hv by exact N.
    pose proof (pow2_pos (ex + 149) ltac:(lia)). nia. }
  assert (HdK : d + ex <= K).
  { assert (L : 2 ^ (d - 1 + ex + 149) < 2 ^ (K + 149)).
    { replace (d - 1 + ex + 149) with ((d - 1) + (ex + 149)) by lia.
      rewrite Z.pow_add_r by lia.
      pose proof (pow2_pos (ex + 149) ltac:(lia)).
      nia. }
    apply Z.pow_lt_mono_r_iff in L; lia. }
  unfold binary_round. fold d. rewrite fexp32.
  set (E := Z.max (d + ex - 24) (-149)).
  destruct (Z_lt_le_dec ex E) as [Hr|He].
  - (* the mantissa has more than 24 digits *)
    assert (EE : E = d + ex - 24) by (subst E; lia).
    assert (Hd : 24 < d) by lia.
    unfold shl_align. destruct (E - ex) as [|n|n] eqn:En; [lia| |lia].
    unfold binary_round_aux, shr_fexp. cbn [Zdigits2]. fold d. rewrite fexp32. fold E.
    rewrite En. cbn [shr shr_record_of_loc].
    set (mrs := iter_pos shr_1 n _).
    assert (Hm1 : shr_m mrs = Zpos p / 2 ^ Zpos n)
      by (subst mrs; rewrite iter_shr_m; cbn [shr_m]; [reflexivity|lia]).
    assert (Hn : Zpos n = d - 24) by lia.
    assert (B1 : 2 ^ 23 <= shr_m mrs < 2 ^ 24).
    { rewrite Hm1, Hn. pose proof (pow2_pos (d - 24) ltac:(lia)).
      split.
      - apply Z.div_le_lower_bound; [lia|].
        rewrite Z.mul_comm, <- Z.pow_add_r by lia.
        replace (23 + (d - 24)) with (d - 1) by lia. exact Bl.
      - apply Z.div_lt_upper_bound; [lia|].
        rewrite Z.mul_comm, <- Z.pow_add_r by lia.
        replace (24 + (d - 24)) with d by lia. exact Bu. }
    replace (ex + Zpos n) with E by lia.
    set (m1 := shr_m mrs) in *.
    destruct (round_nearest_even_cases m1 (loc_of_shr_record mrs)) as [R|R];
      rewrite R; clear R.
    + destruct m1 as [|q|q] eqn:Eq1; [lia| |lia].
      cbn [Zdigits2].
      rewrite (digits2_pos_unique q 24) by exact B1.
      rewrite fexp32.
      replace (Z.max (24 + E - 24) (-149) - E) with 0 by lia.
      cbn [shr shr_record_of_loc shr_m].
      replace (E <=? F32.emax - F32.prec) with true
        by (symmetry; apply Z.leb_le; unfold F32.emax, F32.prec; lia).
      exists q, E. split; [reflexivity|]. split; [right; lia|].
      replace (K + 149) with ((K - E) + (E + 149)) by lia.
      rewrite (Z.pow_add_r 2 (K - E) (E + 149)) by lia.
      pose proof (pow2_pos (E + 149) ltac:(lia)).
      assert (2 ^ 24 <= 2 ^ (K - E)) by (apply Z.pow_le_mono_r; lia).
      nia.
    + destruct (Z.eq_dec (m1 + 1) (2 ^ 24)) as [T|T].
      * rewrite T. change (2 ^ 24) with 16777216. cbn [Zdigits2].
        change (Zpos (digits2_pos 16777216)) with 25.
        rewrite fexp32.
        replace (Z.max (25 + E - 24) (-149) - E) with 1 by lia.
        cbn [shr shr_record_of_loc shr_m iter_pos shr_1].
        replace (E + 1 <=? F32.emax - F32.prec) with true
          by (symmetry; apply Z.leb_le; unfold F32.emax, F32.prec; lia).
        exists 8388608%positive, (E + 1). split; [reflexivity|].
        split; [right; change (2 ^ 23) with 8388608; change (2 ^ 24) with 16777216; lia|].
        change (Zpos 8388608) with (2 ^ 23).
        rewrite <- Z.pow_add_r by lia.
        apply Z.pow_le_mono_r; lia.
      * destruct (m1 + 1) as [|q|q] eqn:Eq1; [lia| |lia].
        cbn [Zdigits2].
        rewrite (digits2_pos_unique q 24) by lia.
        rewrite fexp32.
        replace (Z.max (24 + E - 24) (-149) - E) with 0 by lia.
        cbn [shr shr_record_of_loc shr_m].
        replace (E <=? F32.emax - F32.prec) with true
          by (symmetry; apply Z.leb_le; unfold F32.emax, F32.prec; lia).
        exists q, E. split; [reflexivity|]. split; [right; lia|].
        replace (K + 149) with ((K - E) + (E + 149)) by lia.
        rewrite (Z.pow_add_r 2 (K - E) (E + 149)) by lia.
        pose proof (pow2_pos (E + 149) ltac:(lia)).
        assert (2 ^ 24 <= 2 ^ (K - E)) by (apply Z.pow_le_mono_r; lia).
        nia.
  - (* the mantissa fits: the result is exact *)
    destruct (shl_align_value p ex E He) as [Hz Hez].
    destruct (shl_align p ex E) as [mz ez]. cbn [fst snd] in Hz, Hez. subst ez.
    pose proof (pow2_pos (ex - E) ltac:(lia)) as Ppos.
    assert (Dz : Zpos (digits2_pos mz) = d + ex - E).
    { apply digits2_pos_unique. rewrite Hz. split.
      - replace (d + ex - E - 1) with ((d - 1) + (ex - E)) by lia.
        rewrite Z.pow_add_r by lia. nia.
      - replace (d + ex - E) with (d + (ex - E)) by lia.
        rewrite Z.pow_add_r by lia. nia. }
    unfold binary_round_aux, shr_fexp. cbn [Zdigits2]. rewrite Dz, fexp32.
    replace (d + ex - E + E - 24) with (d + ex - 24) by lia. fold E.
    rewrite Z.sub_diag. cbn [shr shr_record_of_loc shr_m loc_of_shr_record round_nearest_even].
    cbn [Zdigits2]. rewrite Dz, fexp32.
    replace (d + ex - E + E - 24) with (d + ex - 24) by lia. fold E.
    rewrite Z.sub_diag. cbn [shr shr_record_of_loc shr_m].
    replace (E <=? F32.emax - F32.prec) with true
      by (symmetry; apply Z.leb_le; unfold F32.emax, F32.prec; lia).
    exists mz, E. split; [reflexivity|].
    pose proof (digits2_pos_bounds mz) as [Zl Zu]. rewrite Dz in Zl, Zu.
    split.
    + destruct (Z_le_gt_dec (d + ex - E) 23) as [S23|S23].
      * left. split; [|subst E; lia].
        assert (2 ^ (d + ex - E) <= 2 ^ 23) by (apply Z.pow_le_mono_r; lia). lia.
      * assert (D24 : d + ex - E = 24) by (subst E; lia).
        right. rewrite D24 in Zl, Zu. change (24 - 1) with 23 in Zl.
        split; [lia|subst E; lia].
    + rewrite Hz, <- Z.mul_assoc, <- Z.pow_add_r by lia.
      replace (ex - E + (E + 149)) with (ex + 149) by lia. lia.
Qed.

(** The three fields of a bit pattern. *)
Lemma decode_fields (s : bool) E M :
  0 <= E <= 255 -> 0 <= M < 2 ^ 23 ->
  let b := (if s then 2 ^ 31 else 0) + E * 2 ^ 23 + M in
  Z.testbit b 31 = s /\
  Z.land (Z.shiftr b 23) 255 = E /\
  Z.land b (2 ^ 23 - 1) = M.
Proof.
  intros HE HM b.
  set (S := if s then 2 ^ 31 else 0) in *.
  assert (HS' : exists k, (k = 0 \/ k = 256) /\ S = k * 2 ^ 23).
  { subst S. destruct s; [exists 256|exists 0]; split; auto. }
  destruct HS' as (k & Hk & HSk).
  rewrite land_low, land_byte, Z.shiftr_div_pow2 by lia.
  assert (D23 : b / 2 ^ 23 = k + E).
  { subst b. rewrite HSk.
    replace (k * 2 ^ 23 + E * 2 ^ 23 + M) with (M + (k + E) * 2 ^ 23) by lia.
    rewrite Z.div_add by lia. rewrite Z.div_small by lia. lia. }
  assert (M23 : b mod 2 ^ 23 = M).
  { subst b. rewrite HSk.
    replace (k * 2 ^ 23 + E * 2 ^ 23 + M) with (M + (k + E) * 2 ^ 23) by lia.
    rewrite Z.mod_add by lia. apply Z.mod_small. lia. }
  assert (E8 : (k + E) mod 2 ^ 8 = E).
  { change (2 ^ 8) with 256. destruct Hk as [->| ->].
    - rewrite Z.add_0_l. apply Z.mod_small. lia.
    - replace (256 + E) with (E + 1 * 256) by lia.
      rewrite Z.mod_add by lia. apply Z.mod_small. lia. }
  rewrite D23, M23, E8. split; [|split; reflexivity].
  subst b S. destruct s.
  - apply Z.testbit_true; [lia|].
    replace (2 ^ 31 + E * 2 ^ 23 + M) with (E * 2 ^ 23 + M + 1 * 2 ^ 31) by lia.
    rewrite Z.div_add by lia. rewrite Z.div_small; [reflexivity|].
    change (2 ^ 31) with (256 * 2 ^ 23). lia.
  - apply Z.testbit_false; [lia|].
    rewrite Z.add_0_l. rewrite Z.div_small; [reflexivity|].
    change (2 ^ 31) with (256 * 2 ^ 23). lia.
Qed.

Lemma of_to_bits_subnormal s m :
  Zpos m < 2 ^ 23 ->
  F32.of_bits (F32.to_bits (S754_finite s m (-149))) = S754_finite s m (-149).
Proof.
  intros Hm. unfold F32.to_bits.
  replace (Zpos m <? 2 ^ 23) with true by (symmetry; apply Z.ltb_lt; lia).
  destruct (decode_fields s 0 (Zpos m) ltac:(lia) ltac:(lia)) as (T & E & M).
  rewrite Z.mul_0_l, Z.add_0_r in T, E, M.
  unfold F32.of_bits. rewrite T, E, M. reflexivity.
Qed.

Lemma of_to_bits_canonical s m e :
  canonical32 m e ->
  F32.of_bits (F32.to_bits (S754_finite s m e)) = S754_finite s m e.
Proof.
  intros [[Hm ->]|[Hm He]].
  - apply of_to_bits_subnormal. exact Hm.
  - apply of_to_bits_normal; assumption.
Qed.

Lemma of_to_bits_zero s : F32.of_bits (F32.to_bits (S754_zero s)) = S754_zero s.
Proof. destruct s; vm_compute; reflexivity. Qed.

Lemma of_to_bits_finite32 x : finite32 x -> F32.of_bits (F32.to_bits x) = x.
Proof.
  destruct x as [s|s| |s m e]; cbn [finite32]; try contradiction.
  - intros _. apply of_to_bits_zero.
  - apply of_to_bits_canonical.
Qed.

Lemma of_bits_finite32 b : is_finite b = true -> finite32 (F32.of_bits b).
Proof.
  unfold is_finite. pose proof (of_bits_shape b) as Sh.
  destruct (F32.of_bits b); try discriminate; intros _; [exact I|exact Sh].
Qed.

Lemma finite32_is_finite b : finite32 (F32.of_bits b) -> is_finite b = true.
Proof. unfold is_finite. destruct (F32.of_bits b); cbn; tauto. Qed.

Lemma binary_normalize_bound z ez K :
  -149 <= ez -> K <= 127 ->
  Z.abs z * 2 ^ (ez + 149) < 2 ^ (K + 149) ->
  mag_le K (binary_normalize F32.prec F32.emax z ez false).
Proof.
  intros Hez HK Hv. destruct z as [|p|p]; cbn [binary_normalize].
  - exact I.
  - destruct (binary_round_bound false p ez K Hez HK Hv) as (m' & e' & -> & C & B).
    split; assumption.
  - destruct (binary_round_bound true p ez K Hez HK Hv) as (m' & e' & -> & C & B).
    split; assumption.
Qed.

Lemma mag_le_finite32 K x : mag_le K x -> finite32 x.
Proof. destruct x; cbn; tauto. Qed.

Lemma mag_le_mag149 K x : 0 <= K + 149 -> mag_le K x -> mag149 x <= 2 ^ (K + 149).
Proof.
  intros HK. destruct x; cbn; try tauto; intros _; apply Z.lt_le_incl, pow2_pos; lia.
Qed.

Lemma mag149_aligned m e ez :
  -149 <= ez -> ez <= e ->
  Zpos (fst (shl_align m e ez)) * 2 ^ (ez + 149) = Zpos m * 2 ^ (e + 149).
Proof.
  intros H1 H2. destruct (shl_align_value m e ez H2) as [-> _].
  rewrite <- Z.mul_assoc, <- Z.pow_add_r by lia. do 2 f_equal. lia.
Qed.

(** The sum and the difference of two finite numbers whose magnitudes
    add up to less than [2^K]. *)
Lemma SFadd_bound x y K :
  finite32 x -> finite32 y -> K <= 127 ->
  mag149 x + mag149 y < 2 ^ (K + 149) ->
  mag_le K (SFadd F32.prec F32.emax x y) /\ mag_le K (SFsub F32.prec F32.emax x y).
Proof.
  intros Fx Fy HK Hs.
  assert (HK0 : 0 <= K + 149).
  { destruct (Z_lt_le_dec (K + 149) 0) as [N|N]; [|exact N].
    rewrite (Z.pow_neg_r 2 (K + 149)) in Hs by exact N.
    destruct x, y; cbn [mag149 finite32] in *; try contradiction; try lia.
    all: repeat match goal with
         | H : canonical32 _ ?e |- _ =>
             let P := fresh in
             assert (P : 0 < 2 ^ (e + 149))
               by (apply pow2_pos; destruct H as [[_ ?]|[_ ?]]; lia);
             clear H
         end; nia. }
  destruct x as [sx|sx| |sx mx ex], y as [sy|sy| |sy my ey];
    cbn [finite32] in Fx, Fy; try contradiction; cbn [mag149] in Hs.
  - split; cbn [SFadd SFsub]; destruct sx, sy; exact I.
  - assert (0 < 2 ^ (ey + 149)) by (apply pow2_pos; destruct Fy as [[_ ?]|[_ ?]]; lia).
    split; cbn [SFadd SFsub mag_le]; (split; [exact Fy|lia]).
  - assert (0 < 2 ^ (ex + 149)) by (apply pow2_pos; destruct Fx as [[_ ?]|[_ ?]]; lia).
    split; cbn [SFadd SFsub mag_le]; (split; [exact Fx|lia]).
  - assert (Ex : -149 <= ex) by (destruct Fx as [[_ ?]|[_ ?]]; lia).
    assert (Ey : -149 <= ey) by (destruct Fy as [[_ ?]|[_ ?]]; lia).
    cbn [SFadd SFsub]. set (ez := Z.min ex ey).
    pose proof (mag149_aligned mx ex ez ltac:(subst ez; lia) ltac:(subst ez; lia)) as HX.
    pose proof (mag149_aligned my ey ez ltac:(subst ez; lia) ltac:(subst ez; lia)) as HY.
    set (X := Zpos (fst (shl_align mx ex ez))) in *.
    set (Y := Zpos (fst (shl_align my ey ez))) in *.
    assert (0 < 2 ^ (ez + 149)) by (apply pow2_pos; subst ez; lia).
    assert (0 < X) by (subst X; lia). assert (0 < Y) by (subst Y; lia).
    split; apply binary_normalize_bound; try (subst ez; lia);
      destruct sx, sy; cbn [cond_Zopp];
      match goal with
      | |- Z.abs ?z * _ < _ =>
          assert (Z.abs z <= X + Y) by lia
      end; nia.
Qed.

Lemma SFltb_zero_sign s m e :
  SFltb (S754_finite s m e) (S754_zero false) = false -> s = false.
Proof. unfold SFltb, SFcompare. destruct s; [discriminate|reflexivity]. Qed.

Lemma of_int_0 : F32.of_bits (F32.of_int 0) = S754_zero false.
Proof. vm_compute. reflexivity. Qed.

(** A valid heading is a finite number from 0 to 360. *)
Lemma valid_heading_shape b :
  valid_heading b = true ->
  finite32 (F32.of_bits b) /\
  SFltb (F32.of_bits b) (S754_zero false) = false /\
  mag149 (F32.of_bits b) < 2 ^ 158.
Proof.
  unfold valid_heading. intros H.
  apply andb_true_iff in H. destruct H as [H G].
  apply andb_true_iff in H. destruct H as [F L].
  apply negb_true_iff in G. apply negb_true_iff in L.
  unfold F32.gt in G. unfold F32.lt in L. rewrite of_int_360 in G. rewrite of_int_0 in L.
  apply of_bits_finite32 in F.
  split; [exact F|]. split; [exact L|].
  destruct (F32.of_bits b) as [s|s| |s m e]; cbn [finite32 mag149] in *;
    try contradiction; [apply pow2_pos; lia|].
  apply SFltb_zero_sign in L. subst s.
  assert (He : e <= -15).
  { unfold SFltb, SFcompare, C360 in G.
    destruct (Z.compare_spec (-15) e); try discriminate; lia. }
  assert (Hm : Zpos m < 2 ^ 24) by (destruct F as [[? _]|[? _]]; lia).
  assert (Hl : -149 <= e) by (destruct F as [[_ ?]|[_ ?]]; lia).
  assert (P : 0 < 2 ^ (e + 149)) by (apply pow2_pos; lia).
  assert (Q : 2 ^ (e + 149) <= 2 ^ 134) by (apply Z.pow_le_mono_r; lia).
  change (2 ^ 158) with (2 ^ 24 * 2 ^ 134). nia.
Qed.

(** The difference of two non-negative finite numbers below [2^K]. *)
Lemma SFsub_bound_nonneg x y K :
  finite32 x -> finite32 y ->
  SFltb x (S754_zero false) = false -> SFltb y (S754_zero false) = false ->
  K <= 127 -> mag149 x < 2 ^ (K + 149) -> mag149 y < 2 ^ (K + 149) ->
  mag_le K (SFsub F32.prec F32.emax x y).
Proof.
  intros Fx Fy Sx Sy HK Hx Hy.
  destruct x as [sx|sx| |sx mx ex], y as [sy|sy| |sy my ey];
    cbn [finite32] in Fx, Fy; try contradiction;
    try (apply SFltb_zero_sign in Sx; subst sx);
    try (apply SFltb_zero_sign in Sy; subst sy);
    cbn [mag149] in Hx, Hy; cbn [SFsub negb].
  - destruct sx, sy; exact I.
  - split; [exact Fy|lia].
  - split; [exact Fx|lia].
  - assert (Ex : -149 <= ex) by (destruct Fx as [[_ ?]|[_ ?]]; lia).
    assert (Ey : -149 <= ey) by (destruct Fy as [[_ ?]|[_ ?]]; lia).
    set (ez := Z.min ex ey).
    pose proof (mag149_aligned mx ex ez ltac:(subst ez; lia) ltac:(subst ez; lia)) as HX.
    pose proof (mag149_aligned my ey ez ltac:(subst ez; lia) ltac:(subst ez; lia)) as HY.
    set (X := Zpos (fst (shl_align mx ex ez))) in *.
    set (Y := Zpos (fst (shl_align my ey ez))) in *.
    assert (0 < 2 ^ (ez + 149)) by (apply pow2_pos; subst ez; lia).
    assert (0 < X) by (subst X; lia). assert (0 < Y) by (subst Y; lia).
    apply binary_normalize_bound; try (subst ez; lia).
    cbn [cond_Zopp].
    assert (Z.abs (X - Y) <= X \/ Z.abs (X - Y) <= Y) by lia.
    nia.
Qed.

(** The difference of two valid headings is at most 512 in magnitude. *)
Lemma heading_error_bound target current :
  valid_heading target = true -> valid_heading current = true ->
  mag_le 9 (F32.of_bits (F32.sub target current)).
Proof.
  intros Ht Hc.
  destruct (valid_heading_shape target Ht) as (Ft & St & Mt).
  destruct (valid_heading_shape current Hc) as (Fc & Sc & Mc).
  assert (B : mag_le 9 (SFsub F32.prec F32.emax (F32.of_bits target) (F32.of_bits current)))
    by (apply SFsub_bound_nonneg; try assumption; lia).
  unfold F32.sub. rewrite of_to_bits_finite32 by exact (mag_le_finite32 _ _ B).
  exact B.
Qed.

(** Numbers of magnitude at most 180 are neither above 180 nor below
    -180. *)
Lemma within_180 x :
  finite32 x -> mag149 x <= 11796480 * 2 ^ 133 ->
  SFltb C180 x = false /\ SFltb x Cm180 = false.
Proof.
  destruct x as [s|s| |s m e]; cbn [finite32 mag149]; try contradiction.
  - intros _ _. split; reflexivity.
  - intros C B.
    assert (He : e <= -16 /\ (e = -16 -> Zpos m <= 11796480)).
    { destruct C as [[Hm ->]|[Hm He]]; [lia|].
      destruct (Z_le_gt_dec e (-17)) as [|G]; [lia|].
      replace (e + 149) with ((e + 16) + 133) in B by lia.
      rewrite Z.pow_add_r in B by lia.
      assert (P : 0 < 2 ^ 133) by (apply pow2_pos; lia).
      assert (Q : Zpos m * 2 ^ (e + 16) <= 11796480) by nia.
      destruct (Z.eq_dec e (-16)) as [->|N].
      - change (2 ^ (-16 + 16)) with 1 in Q. lia.
      - assert (2 ^ 1 <= 2 ^ (e + 16)) by (apply Z.pow_le_mono_r; lia).
        change (2 ^ 1) with 2 in *. change (2 ^ 23) with 8388608 in Hm. nia. }
    destruct He as [He Hm].
    unfold SFltb, SFcompare, C180, Cm180. destruct s.
    + split; [reflexivity|].
      destruct (Z.compare_spec e (-16)) as [E|E|E]; [|reflexivity|lia].
      destruct (Pos.compare_cont Eq m 11796480) eqn:Cc; try reflexivity.
      exfalso. apply (Pos.compare_gt_iff m 11796480) in Cc. lia.
    + split; [|reflexivity].
      destruct (Z.compare_spec (-16) e) as [E|E|E]; [|lia|reflexivity].
      destruct (Pos.compare_cont Eq 11796480 m) eqn:Cc; try reflexivity.
      exfalso. pose proof (proj1 (Pos.compare_lt_iff 11796480 m) Cc). lia.
Qed.

(** Numbers of magnitude above 180 and at most 512. *)
Lemma beyond_180_shape s m e :
  canonical32 m e -> Zpos m * 2 ^ (e + 149) <= 2 ^ 158 ->
  SFltb C180 (S754_finite s m e) = true \/ SFltb (S754_finite s m e) Cm180 = true ->
  ((e = -16 /\ 11796480 < Zpos m < 2 ^ 24) \/
   (e = -15 /\ 2 ^ 23 <= Zpos m < 2 ^ 24) \/
   (e = -14 /\ Zpos m = 2 ^ 23)) /\
  (SFltb C180 (S754_finite s m e) = true -> s = false) /\
  (SFltb (S754_finite s m e) Cm180 = true -> s = true).
Proof.
  intros C B H.
  assert (L : -16 < e \/ (e = -16 /\ 11796480 < Zpos m)).
  { unfold SFltb, SFcompare, C180, Cm180 in H. destruct s, H as [H|H]; try discriminate.
    - destruct (Z.compare_spec e (-16)) as [E|E|E]; try discriminate; [|lia].
      right. split; [exact E|].
      destruct (Pos.compare_cont Eq m 11796480) eqn:Cc; try discriminate.
      apply (Pos.compare_gt_iff m 11796480) in Cc. lia.
    - destruct (Z.compare_spec (-16) e) as [E|E|E]; try discriminate; [|lia].
      right. split; [lia|].
      destruct (Pos.compare_cont Eq 11796480 m) eqn:Cc; try discriminate.
      pose proof (proj1 (Pos.compare_lt_iff 11796480 m) Cc). lia. }
  split; [|split].
  - destruct C as [[Hm ->]|[Hm He]]; [lia|].
    assert (U : e <= -14).
    { destruct (Z_le_gt_dec e (-14)) as [|G]; [assumption|].
      assert (2 ^ 136 <= 2 ^ (e + 149)) by (apply Z.pow_le_mono_r; lia).
      change (2 ^ 158) with (2 ^ 22 * 2 ^ 136) in B.
      assert (0 < 2 ^ 136) by (apply pow2_pos; lia).
      change (2 ^ 23) with (2 * 2 ^ 22) in Hm.
      assert (0 < 2 ^ 22) by (apply pow2_pos; lia). nia. }
    destruct L as [L|[-> L]]; [|left; lia].
    destruct (Z.eq_dec e (-15)) as [->|N]; [right; left; lia|].
    assert (e = -14) by lia. subst e. right. right. split; [reflexivity|].
    change (2 ^ (-14 + 149)) with (2 ^ 135) in B.
    change (2 ^ 158) with (2 ^ 23 * 2 ^ 135) in B.
    assert (0 < 2 ^ 135) by (apply pow2_pos; lia). nia.
  - unfold SFltb, SFcompare, C180. destruct s; [discriminate|reflexivity].
  - unfold SFltb, SFcompare, Cm180. destruct s; [reflexivity|discriminate].
Qed.

(** A sum that fits in 24 bits is computed exactly. *)
Lemma binary_normalize_exact z ez :
  Z.abs z < 2 ^ 24 -> -100 <= ez <= 80 ->
  finite32 (binary_normalize F32.prec F32.emax z ez false) /\
  mag149 (binary_normalize F32.prec F32.emax z ez false) = Z.abs z * 2 ^ (ez + 149).
Proof.
  intros Hz He.
  assert (R : forall s p, Zpos p < 2 ^ 24 ->
            finite32 (binary_round F32.prec F32.emax s p ez) /\
            mag149 (binary_round F32.prec F32.emax s p ez) = Zpos p * 2 ^ (ez + 149)).
  { intros s p Hp. pose proof (digits2_pos_le p 24 ltac:(lia) Hp) as Hd.
    assert (1 <= Zpos (digits2_pos p)) by lia.
    destruct (binary_round_exact s p ez Hp He) as (m' & e' & -> & Hm' & He' & Hv).
    cbn [finite32 mag149]. split; [right; lia|].
    rewrite Hv, <- Z.mul_assoc, <- Z.pow_add_r by lia. do 2 f_equal. lia. }
  destruct z as [|p|p]; cbn [binary_normalize].
  - split; [exact I|reflexivity].
  - apply R. exact Hz.
  - apply R. exact Hz.
Qed.

(** Taking 360 from a number in (180, 512], or adding 360 to a number in
    [-512, -180), gives a number of magnitude below 180. *)
Lemma shift_360 (s : bool) m e :
  (e = -16 /\ 11796480 < Zpos m < 2 ^ 24) \/
  (e = -15 /\ 2 ^ 23 <= Zpos m < 2 ^ 24) \/
  (e = -14 /\ Zpos m = 2 ^ 23) ->
  let r := if s then SFadd F32.prec F32.emax (S754_finite s m e) C360
           else SFsub F32.prec F32.emax (S754_finite s m e) C360 in
  finite32 r /\ mag149 r <= 11796480 * 2 ^ 133.
Proof.
  intros H.
  assert (He : -16 <= e <= -14) by lia.
  set (ez := Z.min e (-15)).
  destruct (shl_align_value m e ez ltac:(subst ez; lia)) as [HA _].
  destruct (shl_align_value 11796480 (-15) ez ltac:(subst ez; lia)) as [HB _].
  assert (G : forall z,
             (z = Zpos (fst (shl_align m e ez)) - Zpos (fst (shl_align 11796480 (-15) ez)) \/
              z = - Zpos (fst (shl_align m e ez)) + Zpos (fst (shl_align 11796480 (-15) ez))) ->
             finite32 (binary_normalize F32.prec F32.emax z ez false) /\
             mag149 (binary_normalize F32.prec F32.emax z ez false) <= 11796480 * 2 ^ 133).
  { intros z Hz.
    set (A := Zpos (fst (shl_align m e ez))) in *.
    set (B := Zpos (fst (shl_align 11796480 (-15) ez))) in *.
    assert (Hab : (ez = -16 /\ Z.abs (A - B) < 11796480) \/
                  (ez = -15 /\ Z.abs (A - B) <= 4980736)).
    { change (2 ^ 24) with 16777216 in H. change (2 ^ 23) with 8388608 in H.
      destruct H as [[-> Hm]|[[-> Hm]|[-> Hm]]]; subst ez; cbn in HA, HB; [left|right|right];
        (split; [reflexivity|lia]). }
    assert (Hzz : Z.abs z = Z.abs (A - B)) by (destruct Hz; subst z; lia).
    destruct (binary_normalize_exact z ez) as [F M].
    - change (2 ^ 24) with 16777216. lia.
    - lia.
    - split; [exact F|]. rewrite M, Hzz.
      destruct Hab as [[-> Hab]|[-> Hab]].
      + change (2 ^ (-16 + 149)) with (2 ^ 133).
        assert (0 < 2 ^ 133) by (apply pow2_pos; lia). nia.
      + change (2 ^ (-15 + 149)) with (2 * 2 ^ 133).
        assert (0 < 2 ^ 133) by (apply pow2_pos; lia). nia. }
  destruct s; cbv zeta; unfold C360; cbn [SFadd SFsub cond_Zopp]; fold ez;
    apply G; auto.
Qed.

Lemma wrap_down_stay fuel x :
  F32.gt x (F32.of_int 180) = false -> wrap_down fuel x = Some x.
Proof. intros H. destruct fuel; cbn [wrap_down]; rewrite H; reflexivity. Qed.

Lemma wrap_up_stay fuel x :
  F32.lt x (F32.of_int (-180)) = false -> wrap_up fuel x = Some x.
Proof. intros H. destruct fuel; cbn [wrap_up]; rewrite H; reflexivity. Qed.

Lemma case_bool (b : bool) : b = true \/ b = false.
Proof. destruct b; auto. Qed.

(** One turn of each loop brings an error of magnitude at most 512 into
    range. *)
Lemma wrap180_total fuel x :
  mag_le 9 (F32.of_bits x) ->
  exists e, HeadingSpec.wrap180 (S fuel) x = Some e /\ finite32 (F32.of_bits e).
Proof.
  intros B. unfold HeadingSpec.wrap180.
  assert (Sh : forall r,
            finite32 r -> mag149 r <= 11796480 * 2 ^ 133 ->
            F32.gt (F32.to_bits r) (F32.of_int 180) = false /\
            F32.lt (F32.to_bits r) (F32.of_int (-180)) = false /\
            finite32 (F32.of_bits (F32.to_bits r))).
  { intros r F M. unfold F32.gt, F32.lt.
    rewrite of_int_180, of_int_m180, of_to_bits_finite32 by exact F.
    destruct (within_180 r F M) as [W1 W2].
    split; [exact W1|]. split; [exact W2|exact F]. }
  destruct (case_bool (F32.gt x (F32.of_int 180))) as [G|G].
  - cbn [wrap_down]. rewrite G.
    unfold F32.gt in G. rewrite of_int_180 in G.
    unfold F32.sub. rewrite of_int_360.
    destruct (F32.of_bits x) as [s|s| |s m e] eqn:Ex; cbn [mag_le] in B; try contradiction;
      [unfold SFltb, SFcompare, C180 in G; discriminate|].
    destruct B as [C B]. change (9 + 149) with 158 in B.
    destruct (beyond_180_shape s m e C B (or_introl G)) as (H & S1 & _).
    rewrite (S1 G) in *.
    destruct (shift_360 false m e H) as [F M]. cbv zeta in F, M.
    destruct (Sh _ F M) as (G' & L' & F').
    rewrite (wrap_down_stay _ _ G'), (wrap_up_stay _ _ L').
    eexists. split; [reflexivity|exact F'].
  - rewrite (wrap_down_stay _ _ G).
    destruct (case_bool (F32.lt x (F32.of_int (-180)))) as [L|L].
    + cbn [wrap_up]. rewrite L.
      unfold F32.lt in L. rewrite of_int_m180 in L.
      unfold F32.add. rewrite of_int_360.
      destruct (F32.of_bits x) as [s|s| |s m e] eqn:Ex; cbn [mag_le] in B; try contradiction;
        [unfold SFltb, SFcompare, Cm180 in L; discriminate|].
      destruct B as [C B]. change (9 + 149) with 158 in B.
      destruct (beyond_180_shape s m e C B (or_intror L)) as (H & _ & S1).
      rewrite (S1 L) in *.
      destruct (shift_360 true m e H) as [F M]. cbv zeta in F, M.
      destruct (Sh _ F M) as (G' & L' & F').
      rewrite (wrap_up_stay _ _ L').
      eexists. split; [reflexivity|exact F'].
    + rewrite (wrap_up_stay _ _ L).
      eexists. split; [reflexivity|exact (mag_le_finite32 _ _ B)].
Qed.

Lemma shr_record_of_loc_m m l : shr_m (shr_record_of_loc m l) = m.
Proof. destruct l as [|[]]; reflexivity. Qed.

Lemma shr_fexp_shape m e l :
  0 <= m ->
  0 <= shr_m (fst (shr_fexp F32.prec F32.emax m e l)) /\
  -149 <= snd (shr_fexp F32.prec F32.emax m e l).
Proof.
  intros Hm. unfold shr_fexp. rewrite fexp32.
  set (n := Z.max (Zdigits2 m + e - 24) (-149) - e).
  assert (Hn : -149 <= e + n) by (subst n; lia).
  destruct n as [|p|p] eqn:En; cbn [shr fst snd].
  - rewrite shr_record_of_loc_m. lia.
  - rewrite iter_shr_m by (rewrite shr_record_of_loc_m; exact Hm).
    rewrite shr_record_of_loc_m. split; [|lia].
    apply Z.div_pos; [exact Hm|apply pow2_pos; lia].
  - rewrite shr_record_of_loc_m. lia.
Qed.

(** Rounding never invents a NaN, and a finite result has its exponent
    in range. *)
Lemma binary_round_aux_shape s p e :
  match binary_round_aux F32.prec F32.emax s (Zpos p) e loc_Exact with
  | S754_nan => False
  | S754_finite _ _ e' => -149 <= e' <= 104
  | _ => True
  end.
Proof.
  unfold binary_round_aux.
  pose proof (shr_fexp_shape (Zpos p) e loc_Exact ltac:(lia)) as [H1 _].
  destruct (shr_fexp F32.prec F32.emax (Zpos p) e loc_Exact) as [mrs' e'].
  cbn [fst snd] in H1.
  assert (H2 : 0 <= round_nearest_even (shr_m mrs') (loc_of_shr_record mrs'))
    by (destruct (round_nearest_even_cases (shr_m mrs') (loc_of_shr_record mrs'))
          as [-> | ->]; lia).
  pose proof (shr_fexp_shape _ e' loc_Exact H2) as [H3 H4].
  destruct (shr_fexp F32.prec F32.emax _ e' loc_Exact) as [mrs'' e''].
  cbn [fst snd] in H3, H4.
  destruct (shr_m mrs'') as [|q|q]; [exact I| |lia].
  destruct (Z.leb_spec e'' (F32.emax - F32.prec)) as [L|L]; [|exact I].
  unfold F32.emax, F32.prec in L. lia.
Qed.

(** A bit pattern whose exponent field is not all ones decodes to a
    finite number. *)
Lemma of_bits_finite_field b :
  Z.land (Z.shiftr b 23) 255 <> 255 -> finite32 (F32.of_bits b).
Proof.
  intros H. pose proof (of_bits_shape b) as Sh. unfold F32.of_bits in *.
  destruct (Z.land (Z.shiftr b 23) 255 =? 0).
  - destruct (Z.land b (2 ^ 23 - 1)); [exact I|exact Sh|exact I].
  - destruct (Z.eqb_spec (Z.land (Z.shiftr b 23) 255) 255) as [E|E]; [contradiction|].
    rewrite land_low in *.
    pose proof (Z.mod_pos_bound b (2 ^ 23) ltac:(lia)).
    destruct (b mod 2 ^ 23 + 2 ^ 23) eqn:Em; [lia|exact Sh|lia].
Qed.

Lemma of_to_bits_loose s m e :
  -149 <= e <= 104 -> finite32 (F32.of_bits (F32.to_bits (S754_finite s m e))).
Proof.
  intros He. apply of_bits_finite_field. unfold F32.to_bits.
  destruct (Z.ltb_spec (Zpos m) (2 ^ 23)) as [L|L].
  - destruct (decode_fields s 0 (Zpos m) ltac:(lia) ltac:(lia)) as (_ & E & _).
    rewrite Z.mul_0_l, Z.add_0_r in E. rewrite E. lia.
  - rewrite (Z.mod_small (e + 150)) by lia.
    pose proof (Z.mod_pos_bound (Zpos m - 2 ^ 23) (2 ^ 23) ltac:(lia)) as HM.
    destruct (decode_fields s (e + 150) ((Zpos m - 2 ^ 23) mod 2 ^ 23) ltac:(lia) HM)
      as (_ & E & _).
    rewrite E. lia.
Qed.

Lemma of_to_bits_infinity s :
  F32.of_bits (F32.to_bits (S754_infinity s)) = S754_infinity s.
Proof. destruct s; vm_compute; reflexivity. Qed.

(** The product of two finite numbers is finite or infinite, never a
    NaN. *)
Lemma mul_not_nan a b :
  is_finite a = true -> is_finite b = true ->
  F32.of_bits (F32.mul a b) <> S754_nan.
Proof.
  intros Ha Hb. apply of_bits_finite32 in Ha. apply of_bits_finite32 in Hb.
  unfold F32.mul.
  destruct (F32.of_bits a) as [sa|sa| |sa ma ea], (F32.of_bits b) as [sb|sb| |sb mb eb];
    cbn [finite32] in Ha, Hb; try contradiction; cbn [SFmul];
    try (rewrite of_to_bits_zero; discriminate).
  pose proof (binary_round_aux_shape (xorb sa sb) (ma * mb) (ea + eb)) as Sh.
  destruct (binary_round_aux F32.prec F32.emax (xorb sa sb) (Zpos (ma * mb)) (ea + eb) loc_Exact)
    as [s|s| |s m e].
  - rewrite of_to_bits_zero. discriminate.
  - rewrite of_to_bits_infinity. discriminate.
  - contradiction.
  - pose proof (of_to_bits_loose s m e Sh) as F.
    destruct (F32.of_bits (F32.to_bits (S754_finite s m e))); cbn [finite32] in F;
      try contradiction; discriminate.
Qed.

(** The product of a finite number and a zero is a zero. *)
Lemma mul_zero_r a b s :
  is_finite a = true -> F32.of_bits b = S754_zero s ->
  exists s', F32.of_bits (F32.mul a b) = S754_zero s'.
Proof.
  intros Ha Hb. apply of_bits_finite32 in Ha. unfold F32.mul. rewrite Hb.
  destruct (F32.of_bits a) as [sa|sa| |sa ma ea]; cbn [finite32] in Ha;
    try contradiction; cbn [SFmul]; rewrite of_to_bits_zero; eexists; reflexivity.
Qed.

Lemma mul_zero_l a b s :
  F32.of_bits a = S754_zero s -> is_finite b = true ->
  exists s', F32.of_bits (F32.mul a b) = S754_zero s'.
Proof.
  intros Ha Hb. apply of_bits_finite32 in Hb. unfold F32.mul. rewrite Ha.
  destruct (F32.of_bits b) as [sb|sb| |sb mb eb]; cbn [finite32] in Hb;
    try contradiction; cbn [SFmul]; rewrite of_to_bits_zero; eexists; reflexivity.
Qed.

Lemma of_int_30 : F32.of_bits (F32.of_int 30) = S754_finite false 15728640 (-19).
Proof. vm_compute. reflexivity. Qed.
Lemma of_int_m30 : F32.of_bits (F32.of_int (-30)) = S754_finite true 15728640 (-19).
Proof. vm_compute. reflexivity. Qed.

Lemma mag_le_30 s : mag_le 5 (S754_finite s 15728640 (-19)).
Proof.
  split.
  - right. change (2 ^ 23) with 8388608. change (2 ^ 24) with 16777216. lia.
  - change (-19 + 149) with 130. change (5 + 149) with 154.
    change (2 ^ 154) with (16777216 * 2 ^ 130).
    assert (0 < 2 ^ 130) by (apply pow2_pos; lia). nia.
Qed.

(** The clamped correction is a finite number of magnitude at most 32
    (in fact 30) unless the product was a NaN. *)
Lemma correction_bound c :
  F32.of_bits c <> S754_nan ->
  mag_le 5 (F32.of_bits (HeadingSpec.clampF c (F32.of_int (-30)) (F32.of_int 30))).
Proof.
  intros Hn. unfold HeadingSpec.clampF.
  destruct (case_bool (F32.lt c (F32.of_int (-30)))) as [L|L]; rewrite L.
  - rewrite of_int_m30. apply mag_le_30.
  - destruct (case_bool (F32.gt c (F32.of_int 30))) as [G|G]; rewrite G.
    + rewrite of_int_30. apply mag_le_30.
    + unfold F32.lt in L. unfold F32.gt in G. rewrite of_int_m30 in L. rewrite of_int_30 in G.
      pose proof (of_bits_shape c) as Sh.
      destruct (F32.of_bits c) as [s|s| |s m e]; cbn [mag_le].
      * exact I.
      * unfold SFltb, SFcompare in L, G. destruct s; discriminate.
      * congruence.
      * assert (C : canonical32 m e) by exact Sh.
        split; [exact C|].
        assert (He : e <= -19).
        { unfold SFltb, SFcompare in L, G. destruct s.
          - destruct (Z.compare_spec e (-19)); try discriminate; lia.
          - destruct (Z.compare_spec (-19) e); try discriminate; lia. }
        assert (Hm : Zpos m < 2 ^ 24) by (destruct C as [[? _]|[? _]]; lia).
        assert (Hl : -149 <= e) by (destruct C as [[_ ?]|[_ ?]]; lia).
        assert (P : 0 < 2 ^ (e + 149)) by (apply pow2_pos; lia).
        assert (Q : 2 ^ (e + 149) <= 2 ^ 130) by (apply Z.pow_le_mono_r; lia).
        change (5 + 149) with 154. change (2 ^ 154) with (2 ^ 24 * 2 ^ 130). nia.
Qed.

(** A stick value converts exactly. *)
Lemma of_int_small v :
  Z.abs v < 2 ^ 24 ->
  finite32 (F32.of_bits (F32.of_int v)) /\
  mag149 (F32.of_bits (F32.of_int v)) = Z.abs v * 2 ^ 149.
Proof.
  intros Hv. unfold F32.of_int.
  destruct (binary_normalize_exact v 0 Hv ltac:(lia)) as [F M].
  rewrite of_to_bits_finite32 by exact F. split; [exact F|exact M].
Qed.

(** The conversion to [int] of a finite number of magnitude at most
    256 is defined. *)
Lemma to_int_defined a :
  mag_le 8 (F32.of_bits a) -> exists v, F32.to_int a = Some v /\ -256 <= v <= 256.
Proof.
  unfold F32.to_int. destruct (F32.of_bits a) as [s|s| |s m e]; cbn [mag_le];
    try contradiction.
  - intros _. exists 0. split; [reflexivity|lia].
  - intros [C B]. change (8 + 149) with 157 in B.
    assert (Hl : -149 <= e) by (destruct C as [[_ ?]|[_ ?]]; lia).
    assert (Hmag : exists mag,
               match e with
               | Zneg p => Z.shiftr (Zpos m) (Zpos p)
               | _ => Z.shiftl (Zpos m) e
               end = mag /\ 0 <= mag <= 256).
    { destruct e as [|p|p].
      - eexists. split; [reflexivity|]. cbn [Z.shiftl].
        change (0 + 149) with 149 in B. change (2 ^ 157) with (256 * 2 ^ 149) in B.
        assert (0 < 2 ^ 149) by (apply pow2_pos; lia). nia.
      - eexists. split; [reflexivity|]. rewrite Z.shiftl_mul_pow2 by lia.
        rewrite Z.pow_add_r in B by lia.
        change (2 ^ 157) with (256 * 2 ^ 149) in B.
        assert (0 < 2 ^ 149) by (apply pow2_pos; lia).
        assert (0 < 2 ^ Zpos p) by (apply pow2_pos; lia). nia.
      - eexists. split; [reflexivity|]. rewrite Z.shiftr_div_pow2 by lia.
        assert (P : 0 < 2 ^ Zpos p) by (apply pow2_pos; lia).
        split; [apply Z.div_pos; lia|].
        apply Z.div_le_upper_bound; [exact P|].
        replace 157 with ((Zneg p + 149) + (8 + Zpos p)) in B by lia.
        rewrite (Z.pow_add_r 2 (Zneg p + 149) (8 + Zpos p)) in B by lia.
        assert (0 < 2 ^ (Zneg p + 149)) by (apply pow2_pos; lia).
        rewrite (Z.pow_add_r 2 8 (Zpos p)) in B by lia. change (2 ^ 8) with 256 in B. nia. }
    destruct Hmag as (mag & -> & Hmag).
    exists (if s then - mag else mag).
    assert (R : -256 <= (if s then - mag else mag) <= 256) by (destruct s; lia).
    split; [|exact R].
    replace (INT_MIN <=? (if s then - mag else mag)) with true
      by (symmetry; apply Z.leb_le; unfold INT_MIN; change (2 ^ 31) with 2147483648; lia).
    replace ((if s then - mag else mag) <=? INT_MAX) with true
      by (symmetry; apply Z.leb_le; unfold INT_MAX; change (2 ^ 31) with 2147483648; lia).
    reflexivity.
Qed.

(** Both drive commands are defined when the stick is an [int8_t] and
    the correction is in range. *)
Lemma commanded_defined c left right :
  is_i8 left -> is_i8 right -> mag_le 5 (F32.of_bits c) ->
  exists l r, HeadingSpec.commanded c left right = Some (l, r) /\
              -127 <= l <= 127 /\ -127 <= r <= 127.
Proof.
  intros Hl Hr Hc. unfold HeadingSpec.commanded.
  assert (D : forall v, is_i8 v ->
            (exists x, F32.to_int (F32.sub (F32.of_int v) c) = Some x) /\
            (exists x, F32.to_int (F32.add (F32.of_int v) c) = Some x)).
  { intros v Hv. unfold is_i8 in Hv.
    destruct (of_int_small v) as [F M]; [change (2 ^ 24) with 16777216; lia|].
    pose proof (mag_le_mag149 5 _ ltac:(lia) Hc) as Mc.
    change (5 + 149) with 154 in Mc.
    assert (S : mag149 (F32.of_bits (F32.of_int v)) + mag149 (F32.of_bits c) < 2 ^ (8 + 149)).
    { rewrite M. change (8 + 149) with 157.
      change (2 ^ 157) with (256 * 2 ^ 149). change (2 ^ 154) with (32 * 2 ^ 149) in Mc.
      assert (0 < 2 ^ 149) by (apply pow2_pos; lia). nia. }
    destruct (SFadd_bound _ _ 8 F (mag_le_finite32 _ _ Hc) ltac:(lia) S) as [Ba Bs].
    split.
    - assert (B' : mag_le 8 (F32.of_bits (F32.sub (F32.of_int v) c))).
      { unfold F32.sub. rewrite of_to_bits_finite32 by exact (mag_le_finite32 _ _ Bs).
        exact Bs. }
      destruct (to_int_defined _ B') as (x & E & _). exists x. exact E.
    - assert (B' : mag_le 8 (F32.of_bits (F32.add (F32.of_int v) c))).
      { unfold F32.add. rewrite of_to_bits_finite32 by exact (mag_le_finite32 _ _ Ba).
        exact Ba. }
      destruct (to_int_defined _ B') as (x & E & _). exists x. exact E. }
  destruct (D left Hl) as [[l ->] _]. destruct (D right Hr) as [_ [r ->]].
  eexists _, _. split; [reflexivity|]. unfold HeadingSpec.clampZ. lia.
Qed.

Lemma wrap_down_infinite fuel : forall e,
  F32.of_bits e = S754_infinity false -> wrap_down fuel e = None.
Proof.
  induction fuel as [|fuel IH]; intros e He; cbn [wrap_down];
    unfold F32.gt; rewrite of_int_180, He;
    change (SFltb C180 (S754_infinity false)) with true; cbv iota; [reflexivity|].
  apply IH. unfold F32.sub. rewrite He, of_int_360.
  change (SFsub F32.prec F32.emax (S754_infinity false) C360) with (S754_infinity false).
  apply of_to_bits_infinity.
Qed.

Lemma wrap_up_infinite fuel : forall e,
  F32.of_bits e = S754_infinity true -> wrap_up fuel e = None.
Proof.
  induction fuel as [|fuel IH]; intros e He; cbn [wrap_up];
    unfold F32.lt; rewrite of_int_m180, He;
    change (SFltb (S754_infinity true) Cm180) with true; cbv iota; [reflexivity|].
  apply IH. unfold F32.add. rewrite He, of_int_360.
  change (SFadd F32.prec F32.emax (S754_infinity true) C360) with (S754_infinity true).
  apply of_to_bits_infinity.
Qed.

Lemma sub_infinite target current :
  (is_finite target && is_infinite current
   || is_infinite target && is_finite current) = true ->
  exists s, F32.of_bits (F32.sub target current) = S754_infinity s.
Proof.
  unfold is_finite, is_infinite, F32.sub. intros H.
  destruct (F32.of_bits target) as [st|st| |st mt et],
           (F32.of_bits current) as [sc|sc| |sc mc ec];
    try discriminate H; cbn [SFsub];
    eexists; apply of_to_bits_infinity.
Qed.

(** An infinite heading error is never brought into range. *)
Lemma infinite_heading_stuck target current :
  (is_finite target && is_infinite current
   || is_infinite target && is_finite current) = true ->
  forall fuel gain left right,
    applyHeadingCorrection fuel gain left right target current = None.
Proof.
  intros H fuel gain left right. destruct (sub_infinite target current H) as [s E].
  unfold applyHeadingCorrection. destruct s.
  - rewrite wrap_down_stay.
    + rewrite (wrap_up_infinite fuel _ E). reflexivity.
    + unfold F32.gt. rewrite of_int_180, E. reflexivity.
  - rewrite (wrap_down_infinite fuel _ E). reflexivity.
Qed.

(** ** Heading correction on valid inputs *)

Lemma to_int_of_int v : Z.abs v < 2 ^ 24 -> F32.to_int (F32.of_int v) = Some v.
Proof.
  intros Hv.
  assert (R : forall s p, Zpos p < 2 ^ 24 ->
            F32.to_int (F32.to_bits (binary_round F32.prec F32.emax s p 0))
            = Some (if s then Zneg p else Zpos p)).
  { intros s p Hp.
    pose proof (digits2_pos_le p 24 ltac:(lia) Hp) as Hd.
    assert (1 <= Zpos (digits2_pos p)) by lia.
    destruct (binary_round_exact s p 0 Hp ltac:(lia)) as (m' & e' & -> & Hm & He & Hval).
    unfold F32.to_int. rewrite of_to_bits_normal by lia.
    assert (Hmag : match e' with
                   | Zneg q => Z.shiftr (Zpos m') (Zpos q)
                   | _ => Z.shiftl (Zpos m') e'
                   end = Zpos p).
    { destruct e' as [|q|q]; [|lia|].
      - cbn [Z.shiftl]. rewrite Hval. change (2 ^ (0 - 0)) with 1. lia.
      - rewrite Z.shiftr_div_pow2 by lia. rewrite Hval.
        replace (0 - Zneg q) with (Zpos q) by lia.
        apply Z.div_mul. apply Z.pow_nonzero; lia. }
    rewrite Hmag.
    assert (B : -2147483648 <= (if s then - Zpos p else Zpos p) <= 2147483647)
      by (change (2 ^ 24) with 16777216 in Hp; destruct s; lia).
    replace (INT_MIN <=? (if s then - Zpos p else Zpos p)) with true
      by (symmetry; apply Z.leb_le; unfold INT_MIN; change (2 ^ 31) with 2147483648; lia).
    replace ((if s then - Zpos p else Zpos p) <=? INT_MAX) with true
      by (symmetry; apply Z.leb_le; unfold INT_MAX; change (2 ^ 31) with 2147483648; lia).
    destruct s; reflexivity. }
  unfold F32.of_int. destruct v as [|p|p]; cbn [binary_normalize].
  - vm_compute. reflexivity.
  - apply (R false p Hv).
  - apply (R true p Hv).
Qed.

(** Adding or subtracting a zero does not change what the conversion to
    [int] gives. *)
Lemma to_int_with_zero v c s :
  Z.abs v < 2 ^ 24 -> F32.of_bits c = S754_zero s ->
  F32.to_int (F32.sub (F32.of_int v) c) = Some v /\
  F32.to_int (F32.add (F32.of_int v) c) = Some v.
Proof.
  intros Hv Hc.
  destruct (of_int_small v Hv) as [F _].
  pose proof (to_int_of_int v Hv) as T.
  unfold F32.sub, F32.add. rewrite Hc.
  unfold F32.to_int in T |- *.
  destruct (F32.of_bits (F32.of_int v)) as [sx|sx| |sx mx ex] eqn:Ex;
    cbn [finite32] in F; try contradiction; cbn [SFsub SFadd].
  - assert (Z0 : forall x, (exists s', x = S754_zero s') ->
                 match F32.of_bits (F32.to_bits x) with
                 | S754_zero _ => Some 0
                 | S754_finite s0 m e =>
                     let mag := match e with
                                | Zneg p => Z.shiftr (Zpos m) (Zpos p)
                                | _ => Z.shiftl (Zpos m) e
                                end in
                     let v0 := if s0 then - mag else mag in
                     if (INT_MIN <=? v0) && (v0 <=? INT_MAX) then Some v0 else None
                 | _ => None
                 end = Some 0).
    { intros x [s' ->]. rewrite of_to_bits_zero. reflexivity. }
    rewrite <- T. split; apply Z0; destruct sx, s; eexists; reflexivity.
  - rewrite of_to_bits_canonical by exact F. split; exact T.
Qed.

Lemma clampF_zero c s :
  F32.of_bits c = S754_zero s ->
  HeadingSpec.clampF c (F32.of_int (-30)) (F32.of_int 30) = c.
Proof.
  intros H. unfold HeadingSpec.clampF, F32.lt, F32.gt.
  rewrite H, of_int_m30, of_int_30. unfold SFltb, SFcompare. reflexivity.
Qed.

(** With a correction of zero the commands are the sticks, clamped. *)
Lemma commanded_zero c s left right :
  F32.of_bits c = S754_zero s -> is_i8 left -> is_i8 right ->
  HeadingSpec.commanded c left right
  = Some (HeadingSpec.clampZ left (-127) 127, HeadingSpec.clampZ right (-127) 127).
Proof.
  intros Hc Hl Hr. unfold HeadingSpec.commanded. unfold is_i8 in *.
  destruct (to_int_with_zero left c s) as [-> _];
    [change (2 ^ 24) with 16777216; lia|exact Hc|].
  destruct (to_int_with_zero right c s) as [_ ->];
    [change (2 ^ 24) with 16777216; lia|exact Hc|].
  reflexivity.
Qed.

Lemma sub_self h :
  is_finite h = true -> F32.of_bits (F32.sub h h) = S754_zero false.
Proof.
  unfold is_finite, F32.sub. intros H.
  destruct (F32.of_bits h) as [s|s| |s m e]; try discriminate H; cbn [SFsub].
  - destruct s; apply of_to_bits_zero.
  - rewrite Z.sub_diag. cbn [binary_normalize]. apply of_to_bits_zero.
Qed.

Lemma wrap180_zero fuel e s :
  F32.of_bits e = S754_zero s -> HeadingSpec.wrap180 fuel e = Some e.
Proof.
  intros H. unfold HeadingSpec.wrap180.
  rewrite wrap_down_stay, wrap_up_stay; [reflexivity| |].
  - unfold F32.lt. rewrite H, of_int_m180. reflexivity.
  - unfold F32.gt. rewrite H, of_int_180. reflexivity.
Qed.

Lemma on_heading fuel gain left right h :
  is_finite h = true -> is_finite gain = true -> is_i8 left -> is_i8 right ->
  applyHeadingCorrection fuel gain left right h h
  = Some (HeadingSpec.clampZ left (-127) 127, HeadingSpec.clampZ right (-127) 127).
Proof.
  intros Hh Hg Hl Hr.
  pose proof (sub_self h Hh) as Z.
  rewrite (applyHeadingCorrection_commanded _ _ _ _ _ _ _ (wrap180_zero fuel _ _ Z)).
  destruct (mul_zero_l _ gain _ Z Hg) as [s' M].
  unfold HeadingSpec.correction. rewrite (clampF_zero _ _ M).
  exact (commanded_zero _ _ _ _ M Hl Hr).
Qed.

(** X1.  On the inputs the recorder and the IMU produce -- headings
    that are finite numbers from 0 to 360, a finite gain, sticks that
    fit [int8_t] -- [applyHeadingCorrection] returns: each of its two
    normalisation loops runs at most once, both conversions to [int]
    are defined, and the two commands lie in [-127, 127]. *)
Theorem applyHeadingCorrection_total fuel gain left right target current :
  valid_heading target = true -> valid_heading current = true ->
  is_finite gain = true -> is_i8 left -> is_i8 right ->
  exists l r,
    applyHeadingCorrection (S fuel) gain left right target current = Some (l, r) /\
    -127 <= l <= 127 /\ -127 <= r <= 127.
Proof.
  intros Ht Hc Hg Hl Hr.
  destruct (wrap180_total fuel _ (heading_error_bound target current Ht Hc))
    as (e & W & Fe).
  rewrite (applyHeadingCorrection_commanded _ _ _ _ _ _ _ W).
  apply commanded_defined; try assumption.
  unfold HeadingSpec.correction. apply correction_bound.
  apply mul_not_nan; [apply finite32_is_finite; exact Fe|exact Hg].
Qed.

Lemma applyHeadingCorrection_total_witness :
  exists l r,
    applyHeadingCorrection 1 GAIN_DEFAULT 100 100 (F32.of_int 10) (F32.of_int 350)
    = Some (l, r) /\
    -127 <= l <= 127 /\ -127 <= r <= 127.
Proof.
  apply (applyHeadingCorrection_total 0 GAIN_DEFAULT 100 100 (F32.of_int 10) (F32.of_int 350)).
  - vm_compute. reflexivity.
  - vm_compute. reflexivity.
  - vm_compute. reflexivity.
  - unfold is_i8. lia.
  - unfold is_i8. lia.
Defined.

(** X2.  When one of the two headings is an infinity and the other a
    finite number, the heading error is an infinity, which adding or
    subtracting 360 never brings into range: whatever the bound on the
    number of iterations, the normalisation does not finish. *)
Theorem infinite_heading_never_returns target current :
  (is_finite target && is_infinite current
   || is_infinite target && is_finite current) = true ->
  forall fuel gain left right,
    applyHeadingCorrection fuel gain left right target current = None.
Proof.
  intros H fuel gain left right. destruct (sub_infinite target current H) as [s E].
  unfold applyHeadingCorrection. destruct s.
  - rewrite wrap_down_stay.
    + rewrite (wrap_up_infinite fuel _ E). reflexivity.
    + unfold F32.gt. rewrite of_int_180, E. reflexivity.
  - rewrite (wrap_down_infinite fuel _ E). reflexivity.
Qed.

Lemma infinite_heading_never_returns_witness :
  applyHeadingCorrection 1000 GAIN_DEFAULT 100 100 (F32.of_int 10) PLUS_INFINITY = None.
Proof.
  apply (infinite_heading_never_returns (F32.of_int 10) PLUS_INFINITY).
  vm_compute. reflexivity.
Defined.

(** X3.  A gain of 0.0 switches the correction off: whatever the two
    (valid) headings, the commands are the recorded sticks, clamped to
    [-127, 127]. *)
Theorem zero_gain_disables_correction fuel left right target current :
  valid_heading target = true -> valid_heading current = true ->
  is_i8 left -> is_i8 right ->
  applyHeadingCorrection (S fuel) (F32.of_int 0) left right target current
  = Some (HeadingSpec.clampZ left (-127) 127, HeadingSpec.clampZ right (-127) 127).
Proof.
  intros Ht Hc Hl Hr.
  destruct (wrap180_total fuel _ (heading_error_bound target current Ht Hc))
    as (e & W & Fe).
  rewrite (applyHeadingCorrection_commanded _ _ _ _ _ _ _ W).
  destruct (mul_zero_r e (F32.of_int 0) false (finite32_is_finite _ Fe) of_int_0)
    as [s' M].
  unfold HeadingSpec.correction. rewrite (clampF_zero _ _ M).
  exact (commanded_zero _ _ _ _ M Hl Hr).
Qed.

Lemma zero_gain_disables_correction_witness :
  applyHeadingCorrection 1 (F32.of_int 0) 100 (-128) (F32.of_int 10) (F32.of_int 350)
  = Some (100, -127).
Proof.
  apply (zero_gain_disables_correction 0 100 (-128) (F32.of_int 10) (F32.of_int 350)).
  - vm_compute. reflexivity.
  - vm_compute. reflexivity.
  - unfold is_i8. lia.
  - unfold is_i8. lia.
Defined.

(** X4.  A frame sampled by [recordFrame] is replayed with the sticks
    it was recorded with (clamped to [-127, 127]) whenever the IMU
    reads, at replay, the heading it read when the frame was sampled:
    on course the correction is zero. *)
Theorem recorded_frame_replays_sticks hw fuel s t :
  _isRecording (self s) = true ->
  is_finite (get_heading hw s) = true ->
  is_finite (imuCorrectionGain (self s)) = true ->
  to_u32 (imu_heading hw t) = get_heading hw s ->
  exists f,
    recording (self (recordFrame hw s)) = recording (self s) ++ [f] /\
    corrected hw fuel (imuCorrectionGain (self s)) f t
    = Some (HeadingSpec.clampZ (to_i8 (analog_left_y hw (millis s))) (-127) 127,
            HeadingSpec.clampZ (to_i8 (analog_right_y hw (millis s))) (-127) 127).
Proof.
  intros Hr Hh Hg Ht. eexists. split.
  - unfold recordFrame. rewrite Hr. cbn [negb].
    match goal with
    | |- context [if ?c then _ else _] => destruct c
    end; cbn [emit on_world on_self self recording with_recording]; reflexivity.
  - unfold corrected. cbn [leftStick rightStick heading]. rewrite Ht.
    apply on_heading; try assumption; apply to_i8_range.
Qed.

Lemma recorded_frame_replays_sticks_witness :
  exists f,
    recording (self (recordFrame idle_sensors (startRecording (initial no_card))))
    = recording (self (startRecording (initial no_card))) ++ [f] /\
    corrected idle_sensors 0
      (imuCorrectionGain (self (startRecording (initial no_card)))) f 0
    = Some (HeadingSpec.clampZ
              (to_i8 (analog_left_y idle_sensors
                        (millis (startRecording (initial no_card))))) (-127) 127,
            HeadingSpec.clampZ
              (to_i8 (analog_right_y idle_sensors
                        (millis (startRecording (initial no_card))))) (-127) 127).
Proof.
  apply (recorded_frame_replays_sticks idle_sensors 0
           (startRecording (initial no_card)) 0).
  - reflexivity.
  - vm_compute. reflexivity.
  - vm_compute. reflexivity.
  - reflexivity.
Defined.

(** ** How far the correction moves a command *)

Lemma shr_1_double j :
  0 <= j -> shr_1 (Build_shr_record (2 * j) false false) = Build_shr_record j false false.
Proof. intros H. destruct j as [|p|p]; [reflexivity|reflexivity|lia]. Qed.

(** Shifting out zeros is exact. *)
Lemma iter_shr_exact n : forall k,
  0 <= k ->
  iter_pos shr_1 n (Build_shr_record (k * 2 ^ Zpos n) false false)
  = Build_shr_record k false false.
Proof.
  induction n as [n IH|n IH|]; intros k Hk; cbn [iter_pos].
  - assert (P : 0 < 2 ^ Zpos n) by (apply pow2_pos; lia).
    replace (k * 2 ^ Zpos n~1) with (2 * ((k * 2 ^ Zpos n) * 2 ^ Zpos n)).
    2:{ change (Zpos n~1) with (2 * Zpos n + 1).
        replace (2 * Zpos n + 1) with (1 + Zpos n + Zpos n) by lia.
        rewrite !Z.pow_add_r by lia. change (2 ^ 1) with 2. lia. }
    rewrite shr_1_double by nia. rewrite IH by nia. apply IH. exact Hk.
  - assert (P : 0 < 2 ^ Zpos n) by (apply pow2_pos; lia).
    replace (k * 2 ^ Zpos n~0) with ((k * 2 ^ Zpos n) * 2 ^ Zpos n).
    2:{ change (Zpos n~0) with (2 * Zpos n).
        replace (2 * Zpos n) with (Zpos n + Zpos n) by lia.
        rewrite !Z.pow_add_r by lia. lia. }
    rewrite IH by nia. apply IH. exact Hk.
  - change (2 ^ 1) with 2. rewrite Z.mul_comm. apply shr_1_double. exact Hk.
Qed.

(** Rounding does not cross an integer: a number between two integers
    below [2^24] rounds to a number between them. *)
Lemma binary_round_between s p ex N1 N2 :
  -149 <= ex -> 0 <= N1 -> N2 < 2 ^ 24 ->
  N1 * 2 ^ 149 <= Zpos p * 2 ^ (ex + 149) <= N2 * 2 ^ 149 ->
  exists m' e',
    binary_round F32.prec F32.emax s p ex = S754_finite s m' e' /\
    canonical32 m' e' /\
    N1 * 2 ^ 149 <= Zpos m' * 2 ^ (e' + 149) <= N2 * 2 ^ 149.
Proof.
  intros Hex HN1 HN2 [Hlo Hhi]. pose proof (digits2_pos_bounds p) as [Bl Bu].
  set (d := Zpos (digits2_pos p)) in *.
  assert (Hd1 : 1 <= d) by (subst d; lia).
  assert (P149 : 0 < 2 ^ 149) by (apply pow2_pos; lia).
  assert (Pex : 0 < 2 ^ (ex + 149)) by (apply pow2_pos; lia).
  assert (HdK : d + ex <= 24).
  { assert (L : 2 ^ (d - 1 + ex + 149) < 2 ^ (24 + 149)).
    { replace (d - 1 + ex + 149) with ((d - 1) + (ex + 149)) by lia.
      rewrite Z.pow_add_r by lia.
      rewrite (Z.pow_add_r 2 24 149) by lia. nia. }
    apply Z.pow_lt_mono_r_iff in L; lia. }
  unfold binary_round. fold d. rewrite fexp32.
  set (E := Z.max (d + ex - 24) (-149)).
  destruct (Z_lt_le_dec ex E) as [Hr|He].
  - assert (EE : E = d + ex - 24) by (subst E; lia).
    assert (Hd : 24 < d) by lia.
    assert (HE0 : E <= 0) by lia.
    unfold shl_align. destruct (E - ex) as [|n|n] eqn:En; [lia| |lia].
    assert (Hn : Zpos n = d - 24) by lia.
    assert (PQ : 0 < 2 ^ Zpos n) by (apply pow2_pos; lia).
    assert (PE : 0 < 2 ^ (- E)) by (apply pow2_pos; lia).
    assert (S149 : 2 ^ 149 = 2 ^ (- E) * (2 ^ Zpos n * 2 ^ (ex + 149))).
    { rewrite <- !Z.pow_add_r by lia. f_equal. lia. }
    assert (SE : 2 ^ (E + 149) = 2 ^ Zpos n * 2 ^ (ex + 149)).
    { rewrite <- Z.pow_add_r by lia. f_equal. lia. }
    set (k1 := N1 * 2 ^ (- E)). set (k2 := N2 * 2 ^ (- E)).
    assert (Hk1 : k1 * 2 ^ Zpos n <= Zpos p) by (subst k1; rewrite S149 in Hlo; nia).
    assert (Hk2 : Zpos p <= k2 * 2 ^ Zpos n) by (subst k2; rewrite S149 in Hhi; nia).
    assert (Hk10 : 0 <= k1) by (subst k1; nia).
    unfold binary_round_aux, shr_fexp. cbn [Zdigits2]. fold d. rewrite fexp32. fold E.
    rewrite En. cbn [shr shr_record_of_loc].
    set (mrs := iter_pos shr_1 n _).
    assert (Hm1 : shr_m mrs = Zpos p / 2 ^ Zpos n)
      by (subst mrs; rewrite iter_shr_m; cbn [shr_m]; [reflexivity|lia]).
    assert (B1 : 2 ^ 23 <= shr_m mrs < 2 ^ 24).
    { rewrite Hm1, Hn. pose proof (pow2_pos (d - 24) ltac:(lia)).
      split.
      - apply Z.div_le_lower_bound; [lia|].
        rewrite Z.mul_comm, <- Z.pow_add_r by lia.
        replace (23 + (d - 24)) with (d - 1) by lia. exact Bl.
      - apply Z.div_lt_upper_bound; [lia|].
        rewrite Z.mul_comm, <- Z.pow_add_r by lia.
        replace (24 + (d - 24)) with d by lia. exact Bu. }
    assert (Hr1 : exists r,
               round_nearest_even (shr_m mrs) (loc_of_shr_record mrs) = r /\
               shr_m mrs <= r <= shr_m mrs + 1 /\ k1 <= r <= k2).
    { assert (L1 : k1 <= shr_m mrs)
        by (rewrite Hm1; apply Z.div_le_lower_bound; lia).
      destruct (Z.eq_dec (Zpos p) (k2 * 2 ^ Zpos n)) as [Ex|Nx].
      - assert (Hk20 : 0 <= k2) by nia.
        assert (Em : mrs = Build_shr_record k2 false false)
          by (subst mrs; rewrite Ex; apply iter_shr_exact; exact Hk20).
        rewrite Em. cbn [shr_m loc_of_shr_record round_nearest_even].
        exists k2. split; [reflexivity|]. rewrite Em in L1. cbn [shr_m] in L1. lia.
      - assert (L2 : shr_m mrs < k2)
          by (rewrite Hm1; apply Z.div_lt_upper_bound; lia).
        destruct (round_nearest_even_cases (shr_m mrs) (loc_of_shr_record mrs))
          as [-> | ->]; eexists; (split; [reflexivity|lia]). }
    destruct Hr1 as (r & -> & Hrm & Hrk).
    replace (ex + Zpos n) with E by lia.
    assert (Val : N1 * 2 ^ 149 <= r * 2 ^ (E + 149) <= N2 * 2 ^ 149).
    { rewrite S149, SE. subst k1 k2. split; nia. }
    destruct (Z.eq_dec r (2 ^ 24)) as [T|T].
    + rewrite T in *. change (2 ^ 24) with 16777216 in *. cbn [Zdigits2].
      change (Zpos (digits2_pos 16777216)) with 25.
      rewrite fexp32.
      replace (Z.max (25 + E - 24) (-149) - E) with 1 by lia.
      cbn [shr shr_record_of_loc shr_m iter_pos shr_1].
      replace (E + 1 <=? F32.emax - F32.prec) with true
        by (symmetry; apply Z.leb_le; unfold F32.emax, F32.prec; lia).
      exists 8388608%positive, (E + 1). split; [reflexivity|].
      split; [right; change (2 ^ 23) with 8388608; lia|].
      replace (E + 1 + 149) with (1 + (E + 149)) by lia.
      rewrite Z.pow_add_r by lia. change (2 ^ 1) with 2.
      replace (Zpos 8388608 * (2 * 2 ^ (E + 149))) with (16777216 * 2 ^ (E + 149)) by lia.
      exact Val.
    + destruct r as [|q|q] eqn:Eq1; [lia| |lia].
      cbn [Zdigits2].
      rewrite (digits2_pos_unique q 24) by lia.
      rewrite fexp32.
      replace (Z.max (24 + E - 24) (-149) - E) with 0 by lia.
      cbn [shr shr_record_of_loc shr_m].
      replace (E <=? F32.emax - F32.prec) with true
        by (symmetry; apply Z.leb_le; unfold F32.emax, F32.prec; lia).
      exists q, E. split; [reflexivity|]. split; [right; lia|exact Val].
  - destruct (shl_align_value p ex E He) as [Hz Hez].
    destruct (shl_align p ex E) as [mz ez]. cbn [fst snd] in Hz, Hez. subst ez.
    pose proof (pow2_pos (ex - E) ltac:(lia)) as Ppos.
    assert (Dz : Zpos (digits2_pos mz) = d + ex - E).
    { apply digits2_pos_unique. rewrite Hz. split.
      - replace (d + ex - E - 1) with ((d - 1) + (ex - E)) by lia.
        rewrite Z.pow_add_r by lia. nia.
      - replace (d + ex - E) with (d + (ex - E)) by lia.
        rewrite Z.pow_add_r by lia. nia. }
    unfold binary_round_aux, shr_fexp. cbn [Zdigits2]. rewrite Dz, fexp32.
    replace (d + ex - E + E - 24) with (d + ex - 24) by lia. fold E.
    rewrite Z.sub_diag. cbn [shr shr_record_of_loc shr_m loc_of_shr_record round_nearest_even].
    cbn [Zdigits2]. rewrite Dz, fexp32.
    replace (d + ex - E + E - 24) with (d + ex - 24) by lia. fold E.
    rewrite Z.sub_diag. cbn [shr shr_record_of_loc shr_m].
    replace (E <=? F32.emax - F32.prec) with true
      by (symmetry; apply Z.leb_le; unfold F32.emax, F32.prec; lia).
    exists mz, E. split; [reflexivity|].
    pose proof (digits2_pos_bounds mz) as [Zl Zu]. rewrite Dz in Zl, Zu.
    split.
    + destruct (Z_le_gt_dec (d + ex - E) 23) as [S23|S23].
      * left. split; [|subst E; lia].
        assert (2 ^ (d + ex - E) <= 2 ^ 23) by (apply Z.pow_le_mono_r; lia). lia.
      * assert (D24 : d + ex - E = 24) by (subst E; lia).
        right. rewrite D24 in Zl, Zu. change (24 - 1) with 23 in Zl.
        split; [lia|subst E; lia].
    + rewrite Hz, <- Z.mul_assoc, <- Z.pow_add_r by lia.
      replace (ex - E + (E + 149)) with (ex + 149) by lia. lia.
Qed.

Lemma pow149_pos : 0 < 2 ^ 149.
Proof. apply pow2_pos. lia. Qed.

Lemma binary_normalize_between z ez Lo Hi :
  -149 <= ez -> - 2 ^ 24 < Lo -> Hi < 2 ^ 24 ->
  Lo * 2 ^ 149 <= z * 2 ^ (ez + 149) <= Hi * 2 ^ 149 ->
  finite32 (binary_normalize F32.prec F32.emax z ez false) /\
  Lo * 2 ^ 149 <= val149 (binary_normalize F32.prec F32.emax z ez false) <= Hi * 2 ^ 149.
Proof.
  intros Hez HLo HHi [H1 H2]. pose proof pow149_pos as P.
  assert (Pe : 0 < 2 ^ (ez + 149)) by (apply pow2_pos; lia).
  destruct z as [|p|p]; cbn [binary_normalize].
  - cbn [finite32 val149]. split; [exact I|lia].
  - destruct (binary_round_between false p ez (Z.max 0 Lo) Hi Hez ltac:(lia) HHi)
      as (m' & e' & -> & C & B1 & B2).
    { split; [|exact H2].
      destruct (Z.max_spec 0 Lo) as [[_ ->]|[_ ->]]; [exact H1|nia]. }
    cbn [finite32 val149]. split; [exact C|]. split; [|exact B2].
    assert (Lo * 2 ^ 149 <= Z.max 0 Lo * 2 ^ 149) by nia. lia.
  - destruct (binary_round_between true p ez (Z.max 0 (- Hi)) (- Lo) Hez ltac:(lia) ltac:(lia))
      as (m' & e' & -> & C & B1 & B2).
    { split; [|lia].
      destruct (Z.max_spec 0 (- Hi)) as [[_ ->]|[_ ->]]; [lia|nia]. }
    cbn [finite32 val149]. split; [exact C|]. split; [lia|].
    assert (- Hi * 2 ^ 149 <= Z.max 0 (- Hi) * 2 ^ 149) by nia. lia.
Qed.

Lemma val149_aligned s m e ez :
  -149 <= ez -> ez <= e ->
  cond_Zopp s (Zpos (fst (shl_align m e ez))) * 2 ^ (ez + 149)
  = val149 (S754_finite s m e).
Proof.
  intros H1 H2. pose proof (mag149_aligned m e ez H1 H2) as A.
  cbn [val149]. destruct s; cbn [cond_Zopp]; lia.
Qed.

(** A sum or a difference that lies between two integers below [2^24]
    is rounded to a number between them. *)
Lemma SFadd_between x y Lo Hi :
  finite32 x -> finite32 y -> - 2 ^ 24 < Lo -> Hi < 2 ^ 24 ->
  Lo * 2 ^ 149 <= val149 x + val149 y <= Hi * 2 ^ 149 ->
  finite32 (SFadd F32.prec F32.emax x y) /\
  Lo * 2 ^ 149 <= val149 (SFadd F32.prec F32.emax x y) <= Hi * 2 ^ 149.
Proof.
  intros Fx Fy HLo HHi B.
  destruct x as [sx|sx| |sx mx ex], y as [sy|sy| |sy my ey];
    cbn [finite32] in Fx, Fy; try contradiction.
  - cbn [val149] in B. destruct sx, sy; cbn [SFadd Bool.eqb finite32 val149];
      (split; [exact I|lia]).
  - cbn [SFadd]. cbn [val149] in B. split; [exact Fy|exact B].
  - cbn [SFadd]. cbn [val149] in B. rewrite Z.add_0_r in B. split; [exact Fx|exact B].
  - assert (Ex : -149 <= ex) by (destruct Fx as [[_ ?]|[_ ?]]; lia).
    assert (Ey : -149 <= ey) by (destruct Fy as [[_ ?]|[_ ?]]; lia).
    cbn [SFadd]. set (ez := Z.min ex ey).
    apply binary_normalize_between; try (subst ez; lia).
    rewrite Z.mul_add_distr_r.
    rewrite !val149_aligned by (subst ez; lia). exact B.
Qed.

Lemma SFsub_between x y Lo Hi :
  finite32 x -> finite32 y -> - 2 ^ 24 < Lo -> Hi < 2 ^ 24 ->
  Lo * 2 ^ 149 <= val149 x - val149 y <= Hi * 2 ^ 149 ->
  finite32 (SFsub F32.prec F32.emax x y) /\
  Lo * 2 ^ 149 <= val149 (SFsub F32.prec F32.emax x y) <= Hi * 2 ^ 149.
Proof.
  intros Fx Fy HLo HHi B.
  destruct x as [sx|sx| |sx mx ex], y as [sy|sy| |sy my ey];
    cbn [finite32] in Fx, Fy; try contradiction.
  - cbn [val149] in B. destruct sx, sy; cbn [SFsub Bool.eqb negb finite32 val149];
      (split; [exact I|lia]).
  - cbn [SFsub]. cbn [val149] in B. cbn [finite32 val149]. split; [exact Fy|].
    destruct sy; cbn [negb]; lia.
  - cbn [SFsub]. cbn [val149] in B. rewrite Z.sub_0_r in B. split; [exact Fx|exact B].
  - assert (Ex : -149 <= ex) by (destruct Fx as [[_ ?]|[_ ?]]; lia).
    assert (Ey : -149 <= ey) by (destruct Fy as [[_ ?]|[_ ?]]; lia).
    cbn [SFsub]. set (ez := Z.min ex ey).
    apply binary_normalize_between; try (subst ez; lia).
    rewrite Z.mul_sub_distr_r.
    rewrite !val149_aligned by (subst ez; lia). exact B.
Qed.

(** The conversion to [int] of a number between two integers lies
    between them. *)
Lemma to_int_between x Lo Hi :
  finite32 x -> - 2 ^ 24 < Lo -> Hi < 2 ^ 24 ->
  Lo * 2 ^ 149 <= val149 x <= Hi * 2 ^ 149 ->
  exists q, F32.to_int (F32.to_bits x) = Some q /\ Lo <= q <= Hi.
Proof.
  intros Fx HLo HHi B. pose proof pow149_pos as P.
  unfold F32.to_int. rewrite of_to_bits_finite32 by exact Fx.
  destruct x as [s|s| |s m e]; cbn [finite32] in Fx; try contradiction;
    cbn [val149] in B.
  - exists 0. split; [reflexivity|nia].
  - assert (Hl : -149 <= e) by (destruct Fx as [[_ ?]|[_ ?]]; lia).
    assert (Pe : 0 < 2 ^ (e + 149)) by (apply pow2_pos; lia).
    assert (Hmag : exists mag,
               match e with
               | Zneg p => Z.shiftr (Zpos m) (Zpos p)
               | _ => Z.shiftl (Zpos m) e
               end = mag /\ 0 <= mag /\
               Lo <= (if s then - mag else mag) <= Hi).
    { destruct e as [|p|p].
      - eexists. split; [reflexivity|]. cbn [Z.shiftl].
        change (0 + 149) with 149 in B. destruct s; nia.
      - eexists. split; [reflexivity|]. rewrite Z.shiftl_mul_pow2 by lia.
        rewrite (Z.pow_add_r 2 (Zpos p) 149) in B by lia.
        assert (0 < 2 ^ Zpos p) by (apply pow2_pos; lia). destruct s; nia.
      - eexists. split; [reflexivity|]. rewrite Z.shiftr_div_pow2 by lia.
        assert (Pp : 0 < 2 ^ Zpos p) by (apply pow2_pos; lia).
        assert (S149 : 2 ^ 149 = 2 ^ Zpos p * 2 ^ (Zneg p + 149)).
        { rewrite <- Z.pow_add_r by lia. f_equal. lia. }
        rewrite S149 in B.
        assert (D0 : 0 <= Zpos m / 2 ^ Zpos p) by (apply Z.div_pos; lia).
        split; [exact D0|]. destruct s.
        + assert (U : Zpos m <= (- Lo) * 2 ^ Zpos p) by nia.
          assert (Zpos m / 2 ^ Zpos p <= - Lo)
            by (apply Z.div_le_upper_bound; lia).
          split; [lia|].
          destruct (Z_le_gt_dec Hi 0) as [Hn|Hp'].
          * assert (L : (- Hi) * 2 ^ Zpos p <= Zpos m) by nia.
            assert (- Hi <= Zpos m / 2 ^ Zpos p)
              by (apply Z.div_le_lower_bound; lia).
            lia.
          * lia.
        + assert (U : Zpos m <= Hi * 2 ^ Zpos p) by nia.
          assert (Zpos m / 2 ^ Zpos p <= Hi)
            by (apply Z.div_le_upper_bound; lia).
          split; [|lia].
          destruct (Z_le_gt_dec Lo 0) as [Hn|Hp'].
          * lia.
          * assert (L : Lo * 2 ^ Zpos p <= Zpos m) by nia.
            assert (Lo <= Zpos m / 2 ^ Zpos p)
              by (apply Z.div_le_lower_bound; lia).
            lia. }
    destruct Hmag as (mag & -> & Hmag & R).
    exists (if s then - mag else mag). split; [|exact R].
    change (2 ^ 24) with 16777216 in HLo, HHi.
    replace (INT_MIN <=? (if s then - mag else mag)) with true
      by (symmetry; apply Z.leb_le; unfold INT_MIN; change (2 ^ 31) with 2147483648; lia).
    replace ((if s then - mag else mag) <=? INT_MAX) with true
      by (symmetry; apply Z.leb_le; unfold INT_MAX; change (2 ^ 31) with 2147483648; lia).
    reflexivity.
Qed.

(** The value of a converted stick. *)
Lemma of_int_val v :
  Z.abs v < 2 ^ 24 ->
  finite32 (F32.of_bits (F32.of_int v)) /\
  val149 (F32.of_bits (F32.of_int v)) = v * 2 ^ 149.
Proof.
  intros Hv. unfold F32.of_int.
  destruct (binary_normalize_between v 0 v v ltac:(lia) ltac:(lia) ltac:(lia)) as [F B].
  { change (0 + 149) with 149. lia. }
  rewrite of_to_bits_finite32 by exact F. split; [exact F|lia].
Qed.

(** The clamped correction lies between -30 and 30. *)
Lemma correction_val c :
  F32.of_bits c <> S754_nan ->
  let k := F32.of_bits (HeadingSpec.clampF c (F32.of_int (-30)) (F32.of_int 30)) in
  finite32 k /\ - 30 * 2 ^ 149 <= val149 k <= 30 * 2 ^ 149.
Proof.
  intros Hn k. subst k. pose proof pow149_pos as P.
  assert (V30 : Zpos 15728640 * 2 ^ (-19 + 149) = 30 * 2 ^ 149).
  { change (-19 + 149) with 130. change (2 ^ 149) with (2 ^ 19 * 2 ^ 130).
    change (2 ^ 19) with 524288. lia. }
  assert (C30 : canonical32 15728640 (-19)).
  { right. change (2 ^ 23) with 8388608. change (2 ^ 24) with 16777216. lia. }
  unfold HeadingSpec.clampF.
  destruct (case_bool (F32.lt c (F32.of_int (-30)))) as [L|L]; rewrite L.
  - rewrite of_int_m30. cbn [finite32 val149]. split; [exact C30|lia].
  - destruct (case_bool (F32.gt c (F32.of_int 30))) as [G|G]; rewrite G.
    + rewrite of_int_30. cbn [finite32 val149]. split; [exact C30|lia].
    + unfold F32.lt in L. unfold F32.gt in G. rewrite of_int_m30 in L. rewrite of_int_30 in G.
      pose proof (of_bits_shape c) as Sh.
      destruct (F32.of_bits c) as [s|s| |s m e]; cbn [finite32 val149].
      * split; [exact I|lia].
      * unfold SFltb, SFcompare in L, G. destruct s; discriminate.
      * congruence.
      * assert (C : canonical32 m e) by exact Sh.
        split; [exact C|].
        assert (Hm : Zpos m < 2 ^ 24) by (destruct C as [[? _]|[? _]]; lia).
        assert (Hl : -149 <= e) by (destruct C as [[_ ?]|[_ ?]]; lia).
        assert (Pe : 0 < 2 ^ (e + 149)) by (apply pow2_pos; lia).
        assert (M : Zpos m * 2 ^ (e + 149) <= 30 * 2 ^ 149).
        { assert (He : e < -19 \/ (e = -19 /\ Zpos m <= 15728640)).
          { unfold SFltb, SFcompare in L, G. destruct s.
            - destruct (Z.compare_spec e (-19)) as [Ee|Ee|Ee];
                try discriminate; [|lia].
              right. split; [exact Ee|].
              destruct (Pos.compare_cont Eq m 15728640) eqn:Cc; try discriminate.
              + apply Pos.compare_eq in Cc. subst m. apply Z.le_refl.
              + pose proof (proj1 (Pos.compare_lt_iff _ _) Cc) as Q.
                apply Z.lt_le_incl. exact Q.
            - destruct (Z.compare_spec (-19) e) as [Ee|Ee|Ee];
                try discriminate; [|lia].
              right. split; [lia|].
              destruct (Pos.compare_cont Eq 15728640 m) eqn:Cc; try discriminate.
              + apply Pos.compare_eq in Cc. subst m. apply Z.le_refl.
              + pose proof (proj1 (Pos.compare_gt_iff _ _) Cc) as Q.
                apply Z.lt_le_incl. exact Q. }
          destruct He as [He|[-> Hm']].
          - assert (Q : 2 ^ (e + 149) <= 2 ^ 129) by (apply Z.pow_le_mono_r; lia).
            change (2 ^ 149) with (2 ^ 20 * 2 ^ 129).
            change (2 ^ 24) with 16777216 in Hm. change (2 ^ 20) with 1048576.
            assert (0 < 2 ^ 129) by (apply pow2_pos; lia). nia.
          - rewrite <- V30. nia. }
        destruct s; lia.
Qed.

(** The two conversions to [int], for a correction between -30 and 30:
    one command goes down by at most 30 and the other up by at most
    30. *)
Lemma commanded_between c left right :
  is_i8 left -> is_i8 right ->
  finite32 (F32.of_bits c) ->
  - 30 * 2 ^ 149 <= val149 (F32.of_bits c) <= 30 * 2 ^ 149 ->
  exists l r,
    HeadingSpec.commanded c left right = Some (l, r) /\
    ((HeadingSpec.clampZ left (-127) 127 - 30 <= l <= HeadingSpec.clampZ left (-127) 127 /\
      HeadingSpec.clampZ right (-127) 127 <= r <= HeadingSpec.clampZ right (-127) 127 + 30) \/
     (HeadingSpec.clampZ left (-127) 127 <= l <= HeadingSpec.clampZ left (-127) 127 + 30 /\
      HeadingSpec.clampZ right (-127) 127 - 30 <= r <= HeadingSpec.clampZ right (-127) 127)).
Proof.
  intros Hl Hr Fc Bc. unfold is_i8 in Hl, Hr. pose proof pow149_pos as P.
  destruct (of_int_val left) as [Fl Vl]; [change (2 ^ 24) with 16777216; lia|].
  destruct (of_int_val right) as [Fr Vr]; [change (2 ^ 24) with 16777216; lia|].
  assert (S : forall v Lo Hi, -128 <= v < 128 -> v - 30 <= Lo -> Hi <= v + 30 ->
              finite32 (F32.of_bits (F32.of_int v)) ->
              val149 (F32.of_bits (F32.of_int v)) = v * 2 ^ 149 ->
              Lo * 2 ^ 149 <= v * 2 ^ 149 - val149 (F32.of_bits c) <= Hi * 2 ^ 149 ->
              exists q, F32.to_int (F32.sub (F32.of_int v) c) = Some q /\ Lo <= q <= Hi).
  { intros v Lo Hi Hv HLo HHi Fv Vv B. unfold F32.sub.
    destruct (SFsub_between _ _ Lo Hi Fv Fc) as [F' B'];
      [change (2 ^ 24) with 16777216; lia|change (2 ^ 24) with 16777216; lia
      |rewrite Vv; exact B|].
    apply to_int_between; [exact F'| | |exact B'];
      change (2 ^ 24) with 16777216; lia. }
  assert (A : forall v Lo Hi, -128 <= v < 128 -> v - 30 <= Lo -> Hi <= v + 30 ->
              finite32 (F32.of_bits (F32.of_int v)) ->
              val149 (F32.of_bits (F32.of_int v)) = v * 2 ^ 149 ->
              Lo * 2 ^ 149 <= v * 2 ^ 149 + val149 (F32.of_bits c) <= Hi * 2 ^ 149 ->
              exists q, F32.to_int (F32.add (F32.of_int v) c) = Some q /\ Lo <= q <= Hi).
  { intros v Lo Hi Hv HLo HHi Fv Vv B. unfold F32.add.
    destruct (SFadd_between _ _ Lo Hi Fv Fc) as [F' B'];
      [change (2 ^ 24) with 16777216; lia|change (2 ^ 24) with 16777216; lia
      |rewrite Vv; exact B|].
    apply to_int_between; [exact F'| | |exact B'];
      change (2 ^ 24) with 16777216; lia. }
  unfold HeadingSpec.commanded.
  destruct (Z_le_gt_dec 0 (val149 (F32.of_bits c))) as [Pos|Neg].
  - destruct (S left (left - 30) left Hl ltac:(lia) ltac:(lia) Fl Vl ltac:(lia))
      as (l & -> & Bl).
    destruct (A right right (right + 30) Hr ltac:(lia) ltac:(lia) Fr Vr ltac:(lia))
      as (r & -> & Br).
    eexists _, _. split; [reflexivity|]. left. unfold HeadingSpec.clampZ. lia.
  - destruct (S left left (left + 30) Hl ltac:(lia) ltac:(lia) Fl Vl ltac:(lia))
      as (l & -> & Bl).
    destruct (A right (right - 30) right Hr ltac:(lia) ltac:(lia) Fr Vr ltac:(lia))
      as (r & -> & Br).
    eexists _, _. split; [reflexivity|]. right. unfold HeadingSpec.clampZ. lia.
Qed.

(** X17.  On valid inputs the correction steers: it lowers one drive
    command and raises the other, each by at most 30 (the conversions
    to [int] and the rounding of the sums never carry a command past
    the stick value plus or minus 30), before the clamp to
    [-127, 127]. *)
Theorem correction_steers_by_at_most_30 fuel gain left right target current :
  valid_heading target = true -> valid_heading current = true ->
  is_finite gain = true -> is_i8 left -> is_i8 right ->
  exists l r,
    applyHeadingCorrection (S fuel) gain left right target current = Some (l, r) /\
    ((HeadingSpec.clampZ left (-127) 127 - 30 <= l <= HeadingSpec.clampZ left (-127) 127 /\
      HeadingSpec.clampZ right (-127) 127 <= r <= HeadingSpec.clampZ right (-127) 127 + 30) \/
     (HeadingSpec.clampZ left (-127) 127 <= l <= HeadingSpec.clampZ left (-127) 127 + 30 /\
      HeadingSpec.clampZ right (-127) 127 - 30 <= r <= HeadingSpec.clampZ right (-127) 127)).
Proof.
  intros Ht Hc Hg Hl Hr.
  destruct (wrap180_total fuel _ (heading_error_bound target current Ht Hc))
    as (e & W & Fe).
  rewrite (applyHeadingCorrection_commanded _ _ _ _ _ _ _ W).
  assert (N : F32.of_bits (F32.mul e gain) <> S754_nan)
    by (apply mul_not_nan; [apply finite32_is_finite; exact Fe|exact Hg]).
  destruct (correction_val _ N) as [Fk Bk].
  apply commanded_between; assumption.
Qed.

Lemma correction_steers_by_at_most_30_witness :
  exists l r,
    applyHeadingCorrection 1 GAIN_DEFAULT 100 100 (F32.of_int 10) (F32.of_int 350)
    = Some (l, r) /\
    ((HeadingSpec.clampZ 100 (-127) 127 - 30 <= l <= HeadingSpec.clampZ 100 (-127) 127 /\
      HeadingSpec.clampZ 100 (-127) 127 <= r <= HeadingSpec.clampZ 100 (-127) 127 + 30) \/
     (HeadingSpec.clampZ 100 (-127) 127 <= l <= HeadingSpec.clampZ 100 (-127) 127 + 30 /\
      HeadingSpec.clampZ 100 (-127) 127 - 30 <= r <= HeadingSpec.clampZ 100 (-127) 127)).
Proof.
  apply (correction_steers_by_at_most_30 0 GAIN_DEFAULT 100 100 (F32.of_int 10) (F32.of_int 350)).
  - vm_compute. reflexivity.
  - vm_compute. reflexivity.
  - vm_compute. reflexivity.
  - unfold is_i8. lia.
  - unfold is_i8. lia.
Defined.

(** ** Recording sessions *)

Section RecorderFacts.

Variable hw : Sensors.

Lemma recordFrame_recording s :
  _isRecording (self s) = true ->
  self (recordFrame hw s)
  = with_recording
      (recording (self s) ++
         [mkFrame (to_u32 (millis s - recordStartTime (self s)))
                  (to_i8 (analog_left_y hw (millis s)))
                  (to_i8 (analog_right_y hw (millis s)))
                  (get_heading hw s) (packButtons hw s)])
      (self s) /\
  clock (world (recordFrame hw s)) = clock (world s).
Proof.
  intros H. unfold recordFrame. rewrite H. cbn [negb].
  match goal with
  | |- context [if ?c then _ else _] => destruct c
  end; split; reflexivity.
Qed.

Lemma to_u32_sub_l a b : to_u32 (to_u32 a - b) = to_u32 (a - b).
Proof. unfold to_u32. apply Zminus_mod_idemp_l. Qed.

(** Timestamps are the time since [recordStartTime], modulo [2^32]. *)
Lemma record_ticks_log waits : forall s acc,
  _isRecording (self s) = true ->
  to_u32 (clock (world s) - recordStartTime (self s)) = to_u32 acc ->
  map timestamp (recording (self (record_ticks hw waits s)))
  = map timestamp (recording (self s)) ++ map to_u32 (running_sums acc waits) /\
  _isRecording (self (record_ticks hw waits s)) = true /\
  (Forall frame_wf (recording (self s)) ->
   Forall frame_wf (recording (self (record_ticks hw waits s)))).
Proof.
  induction waits as [|w waits IH]; intros s acc Hr Hc; cbn [record_ticks running_sums map].
  - rewrite app_nil_r. repeat split; auto.
  - set (s1 := delay w s).
    assert (Hr1 : _isRecording (self s1) = true) by exact Hr.
    destruct (recordFrame_recording s1 Hr1) as [Es Ec].
    assert (Ht : to_u32 (millis s1 - recordStartTime (self s1)) = to_u32 (acc + w)).
    { unfold millis. subst s1. cbn [delay on_world world clock self].
      rewrite to_u32_sub_l.
      replace (clock (world s) + w - recordStartTime (self s))
        with ((clock (world s) - recordStartTime (self s)) + w) by lia.
      rewrite <- to_u32_advance, Hc, to_u32_advance. reflexivity. }
    destruct (IH (recordFrame hw s1) (acc + w)) as (Hm & Hrec & Hwf).
    + rewrite Es. exact Hr.
    + rewrite Ec, Es. cbn [recordStartTime with_recording]. exact Ht.
    + rewrite Hm, Es. cbn [recording with_recording].
      rewrite map_app. cbn [map timestamp]. rewrite Ht, <- app_assoc.
      split; [reflexivity|]. split; [exact Hrec|].
      intros Hs. apply Hwf. apply recordFrame_wf. exact Hs.
Qed.

End RecorderFacts.

Lemma running_sums_bounds ws : forall acc,
  Forall (fun w => 0 <= w) ws ->
  Forall (fun x => acc <= x <= acc + total ws) (running_sums acc ws).
Proof.
  induction ws as [|w ws IH]; intros acc H; cbn [running_sums total fold_right].
  - constructor.
  - inversion H as [|? ? Hw Hws]; subst. fold (total ws).
    assert (T : 0 <= total ws).
    { clear - Hws. induction Hws; cbn [total fold_right]; [lia|]. fold (total l). lia. }
    constructor; [lia|].
    eapply Forall_impl; [|apply IH; exact Hws].
    cbn beta. intros x Hx. lia.
Qed.

Lemma running_sums_nondecreasing ws : forall acc,
  Forall (fun w => 0 <= w) ws -> nondecreasing (running_sums acc ws).
Proof.
  induction ws as [|w ws IH]; intros acc H i j Hij; cbn [running_sums length] in *.
  - lia.
  - inversion H as [|? ? Hw Hws]; subst.
    destruct i as [|i], j as [|j]; cbn [nth]; try lia.
    + pose proof (running_sums_bounds ws (acc + w) Hws) as B.
      rewrite Forall_forall in B.
      destruct (B (nth j (running_sums (acc + w) ws) 0)) as [L _]; [|exact L].
      apply nth_In. lia.
    + apply (IH (acc + w) Hws). lia.
Qed.

Lemma running_sums_small ws : forall acc,
  0 <= acc -> Forall (fun w => 0 <= w) ws -> acc + total ws < U32_MOD ->
  map to_u32 (running_sums acc ws) = running_sums acc ws.
Proof.
  intros acc Ha H Hs. pose proof (running_sums_bounds ws acc H) as B.
  induction B as [|x l Hx _ IH]; [reflexivity|].
  cbn [map]. rewrite IH, to_u32_id by (unfold is_u32; lia). reflexivity.
Qed.

Lemma running_sums_last ws : forall acc d,
  ws <> [] -> last (running_sums acc ws) d = acc + total ws.
Proof.
  induction ws as [|w ws IH]; intros acc d H; [congruence|].
  cbn [running_sums total fold_right]. fold (total ws).
  destruct ws as [|w' ws'].
  - cbn. lia.
  - change (last (acc + w :: running_sums (acc + w) (w' :: ws')) d)
      with (last (running_sums (acc + w) (w' :: ws')) d).
    rewrite IH by discriminate. lia.
Qed.

Lemma running_sums_max ws : forall acc,
  0 <= acc -> Forall (fun w => 0 <= w) ws -> ws <> [] ->
  fold_right Z.max 0 (running_sums acc ws) = acc + total ws.
Proof.
  induction ws as [|w ws IH]; intros acc Ha H Hne; [congruence|].
  inversion H as [|? ? Hw Hws]; subst.
  cbn [running_sums total fold_right]. fold (total ws).
  destruct ws as [|w' ws'].
  - cbn. lia.
  - rewrite IH by (try discriminate; try assumption; lia).
    assert (T : 0 <= total (w' :: ws')).
    { clear - Hws. induction Hws; cbn [total fold_right]; [lia|]. fold (total l). lia. }
    lia.
Qed.

Lemma last_due_map log : last_due log = fold_right Z.max 0 (map timestamp log).
Proof.
  induction log as [|f log IH]; [reflexivity|].
  cbn [last_due fold_right map]. fold (last_due log). rewrite IH. reflexivity.
Qed.

Lemma last_cons {A} (l : list A) : forall x d, last (x :: l) d = last l x.
Proof.
  induction l as [|y l IH]; intros x d; [reflexivity|].
  change (last (x :: y :: l) d) with (last (y :: l) d).
  rewrite (IH y d), (IH y x). reflexivity.
Qed.

Lemma getDuration_map s : getDuration s = last (map timestamp (recording (self s))) 0.
Proof.
  unfold getDuration. destruct (recording (self s)) as [|f fs]; [reflexivity|].
  cbn [map]. rewrite last_cons.
  revert f. induction fs as [|g fs IH]; intros f; [reflexivity|].
  cbn [map]. rewrite !last_cons. apply IH.
Qed.

Lemma push_filter_actuator evs1 evs2 :
  filter is_actuator_command evs1 = [] -> filter is_actuator_command evs2 = [] ->
  filter is_actuator_command (evs1 ++ evs2) = [].
Proof. intros H1 H2. rewrite filter_app, H1, H2. reflexivity. Qed.

(** The indicator is drawn with screen commands only. *)
Lemma drawStatusIndicator_form s :
  exists evs,
    drawStatusIndicator s = on_world (push evs) s /\
    filter is_actuator_command evs = [].
Proof.
  unfold drawStatusIndicator. rewrite !emit_push.
  unfold on_world. cbn [world self latches]. rewrite ?push_push.
  destruct (_isRecording (self s)); [eexists; split; reflexivity|].
  destruct (_isPlaying (self s)); [eexists; split; reflexivity|].
  destruct (recording (self s)); eexists; split; reflexivity.
Qed.

Lemma startRecording_form s :
  self (startRecording s)
  = mkAutonReplay [] (millis s) true (_isPlaying (self s)) (prevButtons (self s))
                  (imuCorrectionGain (self s)) /\
  clock (world (startRecording s)) = clock (world s).
Proof.
  unfold startRecording. cbv zeta.
  match goal with
  | |- context [drawStatusIndicator ?x] =>
      destruct (drawStatusIndicator_form x) as (evs & E & _)
  end.
  rewrite E. split; reflexivity.
Qed.

(** X5.  A recording session -- [startRecording], then [recordFrame]
    after each of a series of waits -- leaves a log of one frame per
    call, whatever the log held before.  While the session lasts less
    than [2^32] ms, each frame's timestamp is the time from
    [startRecording] to its call, so timestamps never decrease; every
    frame fits its fields; and [getDuration] is the length of the
    session, which is also the largest timestamp. *)
Theorem record_session_timestamps hw waits s :
  Forall (fun w => 0 <= w) waits -> total waits < U32_MOD ->
  map timestamp (recording (self (record_session hw waits s))) = running_sums 0 waits /\
  nondecreasing (running_sums 0 waits) /\
  Forall frame_wf (recording (self (record_session hw waits s))) /\
  getDuration (record_session hw waits s) = total waits /\
  last_due (recording (self (record_session hw waits s))) = total waits.
Proof.
  intros Hw Ht. unfold record_session.
  destruct (startRecording_form s) as [Es Ec].
  destruct (record_ticks_log hw waits (startRecording s) 0) as (Hm & _ & Hwf).
  - rewrite Es. reflexivity.
  - rewrite Ec, Es. cbn [recordStartTime]. unfold millis. rewrite Z.sub_diag. reflexivity.
  - rewrite Es in Hm. cbn [recording map app] in Hm.
    rewrite running_sums_small in Hm by (try assumption; lia).
    split; [exact Hm|]. split; [apply running_sums_nondecreasing; exact Hw|].
    split; [apply Hwf; rewrite Es; constructor|].
    rewrite getDuration_map, last_due_map, Hm.
    destruct waits as [|w waits]; [split; reflexivity|].
    rewrite running_sums_last, running_sums_max by (try discriminate; try assumption; lia).
    split; lia.
Qed.

(** ** Persistence, beyond the round trip *)

Section PersistenceFacts.
Import File FileFacts.

(** X6.  The recorder puts no bound on the log, the loader does: a log
    of more than 15000 frames is saved -- [saveToSD] reports success --
    into a file that [loadFromSD] then refuses, changing nothing. *)
Theorem overlong_log_saves_but_does_not_load s :
  MAX_FRAMES < Z.of_nat (length (recording (self s))) < U32_MOD ->
  sd_mounted (world s) = true ->
  (4 + FRAME_SIZE * length (recording (self s)) <= sd_free (world s))%nat ->
  fst (saveToSD s) = true /\
  loadFromSD (snd (saveToSD s)) = (false, snd (saveToSD s)).
Proof.
  intros Hn Hm Hfree. rewrite (saveToSD_fits s Hm Hfree). cbn [fst snd].
  split; [reflexivity|].
  unfold loadFromSD, fopen_rb. cbn [on_world world sd_mounted sd_file].
  unfold file_image.
  change 4%nat with (length (encode_u32 (to_u32 (Z.of_nat (length (recording (self s))))))).
  rewrite fread_app.
  assert (Hu : is_u32 (Z.of_nat (length (recording (self s)))))
    by (unfold is_u32; lia).
  rewrite (to_u32_id _ Hu), (decode_encode_u32 _ Hu).
  replace (Z.of_nat (length (recording (self s))) >? MAX_FRAMES) with true
    by (symmetry; apply Z.gtb_lt; lia).
  reflexivity.
Qed.

(** X7.  [loadFromSD] reads the count and that many records and stops:
    whatever follows them in the file is ignored, and the load
    succeeds. *)
Theorem loadFromSD_ignores_trailing_bytes s log tail :
  sd_mounted (world s) = true ->
  sd_file (world s) = Some (file_image log ++ tail) ->
  Forall frame_wf log ->
  (length log <= Z.to_nat MAX_FRAMES)%nat ->
  fst (loadFromSD s) = true /\ recording (self (snd (loadFromSD s))) = log.
Proof.
  intros Hm Hf Hwf Hn. rewrite (loadFromSD_image s log tail Hm Hf Hwf Hn).
  split; reflexivity.
Qed.

Lemma fwrite_keeps item w :
  trace (snd (fwrite item w)) = trace w /\
  clock (snd (fwrite item w)) = clock w /\
  sd_mounted (snd (fwrite item w)) = sd_mounted w.
Proof.
  unfold fwrite. destruct (length item <=? sd_free w)%nat; repeat split.
Qed.

Lemma fwrite_frames_keep log : forall w,
  trace (fold_left (fun file frame => snd (fwrite (encode_frame frame) file)) log w)
  = trace w.
Proof.
  induction log as [|f log IH]; intros w; [reflexivity|].
  cbn [fold_left]. rewrite IH. apply fwrite_keeps.
Qed.

Lemma saveToSD_keeps s :
  trace (world (snd (saveToSD s))) = trace (world s) /\
  latches (snd (saveToSD s)) = latches s /\
  self (snd (saveToSD s)) = self s.
Proof.
  unfold saveToSD, fopen_wb. destruct (sd_mounted (world s)); [|repeat split].
  cbn [snd on_world world latches self]. rewrite fwrite_frames_keep.
  split; [|split; reflexivity].
  destruct (fwrite_keeps (encode_u32 (to_u32 (Z.of_nat (length (recording (self s))))))
              (mkWorld (clock (world s)) true (Some []) (sd_free (world s))
                       (trace (world s)))) as (T & _).
  exact T.
Qed.

Lemma saveToSD_no_card s :
  sd_mounted (world s) = false -> saveToSD s = (false, s).
Proof. intros H. unfold saveToSD, fopen_wb. rewrite H. reflexivity. Qed.

Lemma loadFromSD_trace s :
  exists evs, trace (world (snd (loadFromSD s))) = trace (world s) ++ evs /\
              filter is_actuator_command evs = [].
Proof.
  unfold loadFromSD.
  destruct (fopen_rb (world s)) as [file|];
    [|exists []; rewrite app_nil_r; split; reflexivity].
  destruct (fread 4 file) as [[item rest]|];
    [|exists []; rewrite app_nil_r; split; reflexivity].
  destruct (decode_u32 item >? MAX_FRAMES);
    [exists []; rewrite app_nil_r; split; reflexivity|].
  destruct (read_frames _ _ _ _).
  - eexists. split; reflexivity.
  - exists []. rewrite app_nil_r. split; reflexivity.
Qed.

End PersistenceFacts.

Lemma overlong_log_saves_but_does_not_load_witness :
  fst (saveToSD overlong) = true /\
  loadFromSD (snd (saveToSD overlong)) = (false, snd (saveToSD overlong)).
Proof.
  apply (overlong_log_saves_but_does_not_load overlong).
  - vm_compute. split; reflexivity.
  - reflexivity.
  - apply Nat.leb_le. vm_compute. reflexivity.
Defined.

Lemma loadFromSD_ignores_trailing_bytes_witness :
  fst (loadFromSD (holding [] (card_with file_with_trailer))) = true /\
  recording (self (snd (loadFromSD (holding [] (card_with file_with_trailer)))))
  = [frame_R1 20].
Proof.
  apply (loadFromSD_ignores_trailing_bytes
           (holding [] (card_with file_with_trailer)) [frame_R1 20]
           [Byte.xff; Byte.xff]).
  - reflexivity.
  - reflexivity.
  - repeat constructor; vm_compute; intuition discriminate.
  - vm_compute. lia.
Defined.

Lemma record_session_timestamps_witness :
  map timestamp (recording (self (record_session idle_sensors three_ticks (initial no_card))))
  = running_sums 0 three_ticks /\
  nondecreasing (running_sums 0 three_ticks) /\
  Forall frame_wf (recording (self (record_session idle_sensors three_ticks (initial no_card)))) /\
  getDuration (record_session idle_sensors three_ticks (initial no_card)) = total three_ticks /\
  last_due (recording (self (record_session idle_sensors three_ticks (initial no_card))))
  = total three_ticks.
Proof.
  apply (record_session_timestamps idle_sensors three_ticks (initial no_card)).
  - repeat constructor; lia.
  - vm_compute. reflexivity.
Defined.

(** ** Quiet operations *)

Lemma quiet_refl s : quiet s s.
Proof. split; [reflexivity|]. exists []. rewrite app_nil_r. split; reflexivity. Qed.

Lemma quiet_trans s1 s2 s3 : quiet s1 s2 -> quiet s2 s3 -> quiet s1 s3.
Proof.
  intros (L1 & e1 & T1 & F1) (L2 & e2 & T2 & F2). split; [congruence|].
  exists (e1 ++ e2). rewrite T2, T1, <- app_assoc. split; [reflexivity|].
  apply push_filter_actuator; assumption.
Qed.

Lemma quiet_push evs s s' :
  latches s' = latches s -> trace (world s') = trace (world s) ++ evs ->
  filter is_actuator_command evs = [] -> quiet s s'.
Proof. intros L T F. split; [exact L|]. exists evs. split; assumption. Qed.

Lemma quiet_same s s' :
  latches s' = latches s -> trace (world s') = trace (world s) -> quiet s s'.
Proof.
  intros L T. apply (quiet_push [] s s' L); [rewrite app_nil_r; exact T|reflexivity].
Qed.

Lemma quiet_drawStatusIndicator s : quiet s (drawStatusIndicator s).
Proof.
  destruct (drawStatusIndicator_form s) as (evs & -> & F).
  apply (quiet_push evs); [reflexivity|reflexivity|exact F].
Qed.

Lemma quiet_saveToSD s : quiet s (snd (saveToSD s)).
Proof.
  destruct (saveToSD_keeps s) as (T & L & _). apply quiet_same; assumption.
Qed.

Lemma quiet_loadFromSD s : quiet s (snd (loadFromSD s)).
Proof.
  destruct (loadFromSD_trace s) as (evs & T & F).
  destruct (loadFromSD_keeps s) as (L & _).
  apply (quiet_push evs); assumption.
Qed.

Lemma quiet_startRecording s : quiet s (startRecording s).
Proof.
  unfold startRecording. cbv zeta.
  eapply quiet_trans; [|apply quiet_drawStatusIndicator].
  apply (quiet_push [ImuSetHeading 0; MasterPrint 0 0 "RECORDING...       " [];
                     MasterRumble "-"]); [reflexivity| |reflexivity].
  cbn [emit on_world on_self world trace]. rewrite <- !app_assoc. reflexivity.
Qed.

Lemma quiet_stopRecording save s : quiet s (stopRecording save s).
Proof.
  unfold stopRecording. cbv zeta.
  eapply quiet_trans; [|apply quiet_drawStatusIndicator].
  set (s1 := emit (MasterRumble ".") _).
  assert (Q1 : quiet s s1).
  { eapply quiet_push; [reflexivity| |].
    - subst s1. cbn [emit on_world on_self world trace].
      rewrite <- !app_assoc. reflexivity.
    - reflexivity. }
  destruct save; [|exact Q1].
  pose proof (quiet_saveToSD s1) as Q2.
  destruct (saveToSD s1) as [ok s2]. cbn [snd] in Q2.
  eapply quiet_trans; [exact Q1|]. eapply quiet_trans; [exact Q2|].
  destruct ok; (eapply quiet_push; [reflexivity|reflexivity|reflexivity]).
Qed.

Lemma quiet_recordFrame hw s : quiet s (recordFrame hw s).
Proof.
  unfold recordFrame. destruct (negb (_isRecording (self s))); [apply quiet_refl|].
  match goal with
  | |- context [if ?c then _ else _] => destruct c
  end;
    (eapply quiet_push;
     [reflexivity
     |cbn [emit on_world on_self world trace]; rewrite <- !app_assoc; reflexivity
     |reflexivity]).
Qed.

Lemma quiet_run_op hw polls fuel op s s' :
  op <> OpPlayback -> run_op hw polls fuel op s = Some s' -> quiet s s'.
Proof.
  intros Hop H. destruct op; cbn [run_op] in H; try congruence;
    injection H as <-.
  - apply quiet_startRecording.
  - apply quiet_stopRecording.
  - apply quiet_recordFrame.
  - eapply quiet_push; [reflexivity|reflexivity|reflexivity].
  - apply quiet_saveToSD.
  - apply quiet_loadFromSD.
  - apply quiet_same; reflexivity.
  - apply quiet_drawStatusIndicator.
  - apply quiet_same; reflexivity.
Qed.

(** X8.  Motors and pneumatics move in [playback] only: whatever
    sequence of the other operations runs -- recording, saving,
    loading, clearing, setting the gain, drawing the indicator, waiting
    -- no command goes to an actuator and the toggle latches stay as
    they were. *)
Theorem only_playback_commands_actuators hw polls fuel ops : forall s s',
  Forall (fun op => op <> OpPlayback) ops ->
  run_ops hw polls fuel ops s = Some s' ->
  actuator_commands s s' = [] /\ latches s' = latches s.
Proof.
  assert (Q : forall s s', Forall (fun op => op <> OpPlayback) ops ->
              run_ops hw polls fuel ops s = Some s' -> quiet s s').
  { induction ops as [|op ops IH]; intros s s' Hf H; cbn [run_ops] in H.
    - inversion H; subst. apply quiet_refl.
    - inversion Hf as [|? ? Hop Hops]; subst.
      destruct (run_op hw polls fuel op s) as [s1|] eqn:E; [|discriminate].
      eapply quiet_trans; [eapply quiet_run_op; eassumption|].
      apply IH; assumption. }
  intros s s' Hf H. destruct (Q s s' Hf H) as (L & evs & T & F).
  split; [|exact L]. unfold actuator_commands.
  rewrite (events_since_app s s' evs T). exact F.
Qed.

Lemma only_playback_commands_actuators_witness :
  actuator_commands (initial no_card) recording_one_frame = [] /\
  latches recording_one_frame = latches (initial no_card).
Proof.
  apply (only_playback_commands_actuators idle_sensors 0 0
           [OpStartRecording; OpRecordFrame] (initial no_card) recording_one_frame).
  - repeat constructor; discriminate.
  - vm_compute. reflexivity.
Defined.

(** ** Stopping and clearing *)

(** X9.  [stopRecording] always leaves the Recording state and keeps
    the log in memory.  Without saving it leaves the card alone.  With
    saving and no card it reports the failure and the log survives in
    memory only; with a card that has room it leaves an image of the
    log on the card (the count, then a record of each frame, whatever
    their padding bytes) and reports the save. *)
Theorem stopRecording_outcome save s :
  _isRecording (self (stopRecording save s)) = false /\
  recording (self (stopRecording save s)) = recording (self s) /\
  (save = false -> sd_file (world (stopRecording save s)) = sd_file (world s)) /\
  (save = true -> sd_mounted (world s) = false ->
   sd_file (world (stopRecording save s)) = sd_file (world s) /\
   In (MasterPrint 1 0 "SD SAVE FAILED!    " []) (events_since s (stopRecording save s))) /\
  (save = true -> sd_mounted (world s) = true ->
   (4 + File.FRAME_SIZE * length (recording (self s)) <= sd_free (world s))%nat ->
   (exists bytes,
       sd_file (world (stopRecording save s)) = Some bytes /\
       image_of (recording (self s)) bytes) /\
   In (MasterPrint 1 0 "SAVED TO SD!       " []) (events_since s (stopRecording save s))).
Proof.
  unfold stopRecording. cbv zeta.
  set (s1 := emit (MasterRumble ".") _).
  assert (T1 : trace (world s1) = trace (world s) ++
                 [MasterPrint 0 0 "STOPPED: %d frames "
                    [Z.of_nat (length (recording (self s)))]; MasterRumble "."]).
  { subst s1. cbn [emit on_world on_self world trace self recording with_isRecording].
    rewrite <- !app_assoc. reflexivity. }
  assert (S1 : self s1 = with_isRecording false (self s)) by reflexivity.
  assert (W1 : sd_file (world s1) = sd_file (world s) /\
               sd_mounted (world s1) = sd_mounted (world s) /\
               sd_free (world s1) = sd_free (world s)) by (repeat split).
  destruct W1 as (Wf & Wm & Wr).
  match goal with
  | |- context [drawStatusIndicator ?x] =>
      destruct (drawStatusIndicator_form x) as (evs & E & _); rewrite E
  end.
  cbn [on_world self world sd_file].
  destruct save.
  - pose proof (saveToSD_keeps s1) as (Tk & _ & Sk).
    split; [|split; [|split; [|split]]].
    + destruct (saveToSD s1) as [[] s2]; cbn [snd] in Sk;
        cbn [emit on_world self]; rewrite Sk, S1; reflexivity.
    + destruct (saveToSD s1) as [[] s2]; cbn [snd] in Sk;
        cbn [emit on_world self]; rewrite Sk, S1; reflexivity.
    + discriminate.
    + intros _ Hm. rewrite saveToSD_no_card by (rewrite Wm; exact Hm).
      cbn [emit on_world world sd_file push]. split; [exact Wf|].
      erewrite events_since_app.
      2:{ cbn [world push trace emit on_world]. rewrite T1, <- !app_assoc. reflexivity. }
      apply in_or_app. right. apply in_or_app. left. left. reflexivity.
    + intros _ Hm Hr. rewrite saveToSD_fits by (rewrite ?Wm, ?Wr, ?S1; assumption).
      cbn [emit on_world world sd_file push]. rewrite S1. split.
      { eexists. split; [reflexivity|]. apply file_image_is_image. }
      erewrite events_since_app.
      2:{ cbn [world push trace emit on_world]. rewrite T1, <- !app_assoc. reflexivity. }
      apply in_or_app. right. apply in_or_app. left. left. reflexivity.
  - split; [reflexivity|]. split; [reflexivity|]. split; [intros _; exact Wf|].
    split; discriminate.
Qed.

(** X10.  [clearRecording] empties the log in memory and leaves the
    stored file alone, so the recording is not gone: the next
    [playback] finds the log empty, loads the file and replays it. *)
Theorem clearRecording_keeps_stored_file s log tail :
  sd_mounted (world s) = true ->
  sd_file (world s) = Some (file_image log ++ tail) ->
  Forall frame_wf log ->
  (length log <= Z.to_nat MAX_FRAMES)%nat ->
  recording (self (clearRecording s)) = [] /\
  sd_file (world (clearRecording s)) = sd_file (world s) /\
  exists t s',
    playback_begin (clearRecording s) = Replaying t s' /\
    recording (self s') = log.
Proof.
  intros Hm Hf Hwf Hn. split; [reflexivity|]. split; [reflexivity|].
  unfold playback_begin.
  change (recording (self (clearRecording s))) with (@nil RecordedFrame).
  rewrite (loadFromSD_image (clearRecording s) log tail Hm Hf Hwf Hn).
  cbn [negb]. rewrite playback_prologue_form. eexists _, _. split; reflexivity.
Qed.

Lemma clearRecording_keeps_stored_file_witness :
  recording (self (clearRecording (holding [frame_R1 20] (card_with file_with_trailer)))) = [] /\
  sd_file (world (clearRecording (holding [frame_R1 20] (card_with file_with_trailer))))
  = sd_file (world (holding [frame_R1 20] (card_with file_with_trailer))) /\
  exists t s',
    playback_begin (clearRecording (holding [frame_R1 20] (card_with file_with_trailer)))
    = Replaying t s' /\
    recording (self s') = [frame_R1 20].
Proof.
  apply (clearRecording_keeps_stored_file
           (holding [frame_R1 20] (card_with file_with_trailer)) [frame_R1 20]
           [Byte.xff; Byte.xff]).
  - reflexivity.
  - reflexivity.
  - repeat constructor; vm_compute; intuition discriminate.
  - vm_compute. lia.
Defined.

(** ** Buttons, from the controller to the toggles *)

Section ButtonFacts.

Variable hw : Sensors.

Lemma packButtons_testbit t s :
  Z.testbit (packButtons hw s) (toggle_bit t) = get_digital hw (digital_of t) s.
Proof.
  unfold packButtons.
  destruct t; cbn [digital_of toggle_bit];
    destruct (get_digital hw DIGITAL_R1 s), (get_digital hw DIGITAL_R2 s),
      (get_digital hw DIGITAL_L1 s), (get_digital hw DIGITAL_L2 s),
      (get_digital hw DIGITAL_X s), (get_digital hw DIGITAL_A s),
      (get_digital hw DIGITAL_B s); reflexivity.
Qed.

(** X11.  [packButtons] sets bit [k] of the mask exactly when button
    [k] is held, and no other bit; so when two masks sampled by the
    recorder follow each other in a log, [wasPressed] fires for a
    button exactly when it was held at the second sample and not at the
    first. *)
Theorem packed_buttons_edges t s1 s2 :
  Z.testbit (packButtons hw s2) (toggle_bit t) = get_digital hw (digital_of t) s2 /\
  (forall k, 7 <= k -> Z.testbit (packButtons hw s2) k = false) /\
  wasPressed (packButtons hw s2) (packButtons hw s1) (toggle_bit t)
  = get_digital hw (digital_of t) s2 && negb (get_digital hw (digital_of t) s1).
Proof.
  split; [apply packButtons_testbit|]. split.
  - intros k Hk. pose proof (packButtons_u8 hw s2) as [L U].
    destruct (Z.eq_dec (packButtons hw s2) 0) as [->|N]; [apply Z.bits_0|].
    apply Z.bits_above_log2; [lia|].
    apply Z.log2_lt_pow2; [lia|].
    assert (P : 2 ^ 7 <= 2 ^ k) by (apply Z.pow_le_mono_r; lia).
    assert (B : packButtons hw s2 < 2 ^ 7).
    { change (2 ^ 7) with 128. clear - hw. unfold packButtons.
      destruct (get_digital hw DIGITAL_R1 s2), (get_digital hw DIGITAL_R2 s2),
        (get_digital hw DIGITAL_L1 s2), (get_digital hw DIGITAL_L2 s2),
        (get_digital hw DIGITAL_X s2), (get_digital hw DIGITAL_A s2),
        (get_digital hw DIGITAL_B s2); reflexivity. }
    lia.
  - rewrite wasPressed_rising by apply toggle_bit_nonneg.
    unfold rising. rewrite !packButtons_testbit. reflexivity.
Qed.

End ButtonFacts.

(** ** Playback on valid data, and on a failed IMU *)

Lemma heading_correction_defined fuel gain left right target current :
  valid_heading target = true -> valid_heading current = true ->
  is_finite gain = true -> is_i8 left -> is_i8 right ->
  applyHeadingCorrection (S fuel) gain left right target current <> None.
Proof.
  intros Ht Hc Hg Hl Hr.
  destruct (wrap180_total fuel _ (heading_error_bound target current Ht Hc))
    as (e & W & Fe).
  rewrite (applyHeadingCorrection_commanded _ _ _ _ _ _ _ W).
  destruct (commanded_defined (HeadingSpec.correction e gain) left right Hl Hr)
    as (l & r & -> & _); [|discriminate].
  unfold HeadingSpec.correction. apply correction_bound.
  apply mul_not_nan; [apply finite32_is_finite; exact Fe|exact Hg].
Qed.

Lemma applyHeadingCorrection_range fuel gain left right target current l r :
  applyHeadingCorrection fuel gain left right target current = Some (l, r) ->
  -127 <= l <= 127 /\ -127 <= r <= 127.
Proof.
  unfold applyHeadingCorrection.
  destruct (wrap_down fuel (F32.sub target current)) as [e1|]; [|discriminate].
  destruct (wrap_up fuel e1) as [e2|]; [|discriminate].
  cbv zeta.
  destruct (F32.to_int _) as [l0|]; [|discriminate].
  destruct (F32.to_int _) as [r0|]; [|discriminate].
  pose proof (clamp_steps_127 l0) as Cl. pose proof (clamp_steps_127 r0) as Cr.
  cbv zeta in Cl, Cr. rewrite Cl, Cr.
  intros H. inversion H; subst. unfold HeadingSpec.clampZ. lia.
Qed.

Section PlaybackFacts.

Variable hw : Sensors.

Lemma corrections_defined_valid fuel g log :
  Forall frame_valid log ->
  (forall t, valid_heading (to_u32 (imu_heading hw t)) = true) ->
  is_finite g = true ->
  corrections_defined hw (S fuel) g log.
Proof.
  intros Hv Hi Hg f t Hf. rewrite Forall_forall in Hv.
  destruct (Hv f Hf) as (Hl & Hr & Hh & _).
  unfold corrected. apply heading_correction_defined; auto.
Qed.

Lemma drive_in_range_filter evs :
  Forall drive_in_range (filter is_drive_command evs) -> Forall drive_in_range evs.
Proof.
  induction evs as [|e evs IH]; intros H; [constructor|].
  cbn [filter] in H. destruct (is_drive_command e) eqn:E.
  - inversion H; subst. constructor; [assumption|]. apply IH. assumption.
  - constructor; [|apply IH; exact H].
    destruct e; cbn in E; try discriminate; exact I.
Qed.

Lemma drive_commands_in_range fuel g done cmds :
  Forall2 (fun f c => exists t, corrected hw fuel g f t = Some c) done cmds ->
  Forall drive_in_range (drive_commands cmds).
Proof.
  induction 1 as [|f c done cmds [t Hc] _ IH]; [constructor|].
  cbn [drive_commands flat_map app]. destruct c as [l r]. cbn [fst snd].
  unfold corrected in Hc. apply applyHeadingCorrection_range in Hc.
  constructor; [exact (proj1 Hc)|]. constructor; [exact (proj2 Hc)|]. exact IH.
Qed.

(** X12.  On a log that the recorder can have produced, replayed
    against an IMU that reports valid headings and under a finite gain,
    [playback] returns (within the polls the largest timestamp needs,
    each normalisation loop running at most once per frame).  It leaves
    the log, the gain, the Recording flag and the card as they were,
    ends with [_isPlaying] false, and every command it sent to the
    drive motors lies in [-127, 127]. *)
Theorem playback_returns_on_valid_data polls fuel s :
  recording (self s) <> [] ->
  Forall frame_valid (recording (self s)) ->
  (forall t, valid_heading (to_u32 (imu_heading hw t)) = true) ->
  is_finite (imuCorrectionGain (self s)) = true ->
  (polls_needed (recording (self s)) <= polls)%nat ->
  exists s',
    playback hw polls (S fuel) s = Some s' /\
    recording (self s') = recording (self s) /\
    imuCorrectionGain (self s') = imuCorrectionGain (self s) /\
    _isRecording (self s') = _isRecording (self s) /\
    _isPlaying (self s') = false /\
    sd_file (world s') = sd_file (world s) /\
    Forall drive_in_range (events_since s s').
Proof.
  intros Hne Hv Hi Hg Hp.
  set (log := recording (self s)) in *.
  assert (Hts : forall f, In f log -> timestamp f <= U32_MOD - 10).
  { intros f Hf. rewrite Forall_forall in Hv. apply (Hv f Hf). }
  pose proof (corrections_defined_valid fuel _ log Hv Hi Hg) as Hd.
  pose proof (last_due_nonneg log) as H0.
  assert (HM : last_due log <= U32_MOD - 10).
  { destruct (Z.eq_dec (last_due log) 0) as [->|Hnz];
      [unfold U32_MOD; lia|].
    destruct (last_due_reached log) as (f & Hf & <-); [lia|].
    apply Hts. exact Hf. }
  set (n := Z.to_nat ((last_due log + 9) / 10)).
  assert (Hn : Z.of_nat n = (last_due log + 9) / 10).
  { unfold n. rewrite Z2Nat.id; [reflexivity|]. apply Z.div_pos; lia. }
  pose proof (Z.div_mod (last_due log + 9) 10 ltac:(lia)) as Hdm.
  pose proof (Z.mod_pos_bound (last_due log + 9) 10 ltac:(lia)) as Hmb.
  unfold playback. rewrite (playback_begin_with_log s Hne).
  rewrite playback_prologue_form. cbn [fst snd].
  set (start := to_u32 (clock (world s) + 50)).
  set (s0 := mkSystem _ _ _).
  destruct (playback_loop_polls hw (S fuel) (imuCorrectionGain (self s)) start
              n 0 log s0 polls) as (s1 & L & Hc1).
  - exact Hne.
  - reflexivity.
  - exact Hd.
  - lia.
  - unfold U32_MOD in *. lia.
  - subst s0. cbn [world clock]. subst start. unfold to_u32.
    rewrite Z.add_0_r, Z.mod_mod by (unfold U32_MOD; lia). reflexivity.
  - intros f Hf. pose proof (last_due_ge log f Hf). lia.
  - intros Hn0. destruct (last_due_reached log) as (f & Hf & E).
    + destruct (Z.eq_dec (last_due log) 0) as [Ez|]; [|lia].
      exfalso. apply Hn0. unfold n. rewrite Ez. reflexivity.
    + exists f. split; [exact Hf|]. lia.
  - exact Hp.
  - change (recording (self s0)) with log. rewrite L.
    exists (playback_end s1). split; [reflexivity|].
    pose proof (playback_loop_run hw (S fuel) polls start log s0 s1 L) as R.
    destruct (Run_drive hw (S fuel) log s0 [] s1 R)
      as (done & cmds & evs & Ed & F & T & Hf).
    destruct (Run_same_session hw (S fuel) log s0 [] s1 R)
      as (Sr & _ & Si & _ & Sg & _ & Sf & _).
    rewrite playback_end_form.
    cbn [self world push trace clock sd_file with_isPlaying _isPlaying recording
         imuCorrectionGain _isRecording].
    rewrite Sr, Sg, Si, Sf. subst s0.
    cbn [self world sd_file recording imuCorrectionGain _isRecording
         with_prevButtons with_isPlaying].
    repeat (split; [reflexivity|]).
    erewrite events_since_app.
    2:{ unfold push. cbn [world trace]. rewrite T. cbn [world trace].
        rewrite <- !app_assoc. reflexivity. }
    apply drive_in_range_filter. rewrite !filter_app, Hf.
    cbn [filter is_drive_command app epilogue_events].
    apply Forall_app. split.
    + eapply drive_commands_in_range. exact F.
    + repeat constructor; cbn; lia.
Qed.

Lemma dispatch_due_stuck fuel elapsed rest : forall s,
  (forall f, In f rest -> is_finite (heading f) = true) ->
  (forall t, is_infinite (to_u32 (imu_heading hw t)) = true) ->
  dispatch_due hw fuel elapsed rest s = None \/
  dispatch_due hw fuel elapsed rest s = Some (rest, s).
Proof.
  intros s Hf Hi. destruct rest as [|f rest]; [right; reflexivity|].
  cbn [dispatch_due]. destruct (timestamp f <=? elapsed); [|right; reflexivity].
  left. unfold dispatchFrame, get_heading.
  rewrite (infinite_heading_stuck (heading f) (to_u32 (imu_heading hw (millis s)))).
  - reflexivity.
  - rewrite (Hf f (or_introl eq_refl)), Hi. reflexivity.
Qed.

Lemma playback_loop_stuck fuel start polls : forall rest s,
  rest <> [] ->
  (forall f, In f rest -> is_finite (heading f) = true) ->
  (forall t, is_infinite (to_u32 (imu_heading hw t)) = true) ->
  playback_loop hw polls fuel start rest s = None.
Proof.
  induction polls as [|polls IH]; intros rest s Hne Hf Hi;
    (destruct rest as [|f0 rest0]; [congruence|]); cbn [playback_loop];
    [reflexivity|].
  destruct (dispatch_due_stuck fuel (to_u32 (millis s - start)) (f0 :: rest0) s Hf Hi)
    as [-> | ->]; [reflexivity|].
  apply IH; assumption.
Qed.

(** X13.  With an IMU that reports an infinite heading, [playback] of a
    log that is not empty never returns: the first frame that falls due
    sends the normalisation loop of [applyHeadingCorrection] round
    without end, before any motor command of that frame. *)
Theorem playback_hangs_on_infinite_imu s :
  recording (self s) <> [] ->
  (forall f, In f (recording (self s)) -> is_finite (heading f) = true) ->
  (forall t, is_infinite (to_u32 (imu_heading hw t)) = true) ->
  forall polls fuel, playback hw polls fuel s = None.
Proof.
  intros Hne Hf Hi polls fuel. unfold playback.
  rewrite (playback_begin_with_log s Hne), playback_prologue_form. cbn [fst snd].
  cbn [self recording with_prevButtons with_isPlaying].
  rewrite playback_loop_stuck; [reflexivity|exact Hne|exact Hf|exact Hi].
Qed.

End PlaybackFacts.

Lemma playback_returns_on_valid_data_witness :
  exists s',
    playback idle_sensors 3 1 one_press = Some s' /\
    recording (self s') = recording (self one_press) /\
    imuCorrectionGain (self s') = imuCorrectionGain (self one_press) /\
    _isRecording (self s') = _isRecording (self one_press) /\
    _isPlaying (self s') = false /\
    sd_file (world s') = sd_file (world one_press) /\
    Forall drive_in_range (events_since one_press s').
Proof.
  apply (playback_returns_on_valid_data idle_sensors 3 0 one_press).
  - discriminate.
  - repeat constructor; vm_compute; intuition discriminate.
  - intros t. vm_compute. reflexivity.
  - vm_compute. reflexivity.
  - vm_compute. lia.
Defined.

Lemma playback_hangs_on_infinite_imu_witness :
  playback failed_imu 1000 1000 one_press = None.
Proof.
  apply (playback_hangs_on_infinite_imu failed_imu one_press).
  - discriminate.
  - intros f [<-|[]]. vm_compute. reflexivity.
  - intros t. vm_compute. reflexivity.
Defined.

(** ** Driver control *)

(** X14.  [applyDeadband] returns 0 for a value inside the dead zone
    and the value itself outside it; it never increases the magnitude,
    and applying it twice is the same as applying it once. *)
Theorem applyDeadband_dead_zone value threshold r :
  applyDeadband value threshold = Some r ->
  (Z.abs value < threshold -> r = 0) /\
  (threshold <= Z.abs value -> r = value) /\
  Z.abs r <= Z.abs value /\
  applyDeadband r threshold = Some r.
Proof.
  unfold applyDeadband.
  destruct (Z.eqb_spec value INT_MIN) as [E|E]; [discriminate|].
  destruct (Z.ltb_spec (Z.abs value) threshold) as [L|L]; intros H; inversion H; subst.
  - split; [reflexivity|]. split; [lia|]. split; [lia|].
    change (0 =? INT_MIN) with false. cbv iota.
    destruct (Z.abs 0 <? threshold); reflexivity.
  - split; [lia|]. split; [reflexivity|]. split; [lia|].
    destruct (Z.eqb_spec r INT_MIN) as [E'|_]; [contradiction|].
    destruct (Z.ltb_spec (Z.abs r) threshold) as [L'|_]; [lia|reflexivity].
Qed.

Lemma applyDeadband_dead_zone_witness :
  (Z.abs 5 < DEADBAND_DEFAULT -> 0 = 0) /\
  (DEADBAND_DEFAULT <= Z.abs 5 -> 0 = 5) /\
  Z.abs 0 <= Z.abs 5 /\
  applyDeadband 0 DEADBAND_DEFAULT = Some 0.
Proof.
  apply (applyDeadband_dead_zone 5 DEADBAND_DEFAULT 0). reflexivity.
Defined.

Lemma lowBatteryCheck_step capacity m s :
  exists evs,
    trace (world (snd (lowBatteryCheck capacity m s))) = trace (world s) ++ evs /\
    (length (filter is_low_battery_alert evs)
     + (if lowBatteryWarned (fst (lowBatteryCheck capacity m s)) then 0 else 1)
     <= if lowBatteryWarned m then 0 else 1)%nat /\
    (10 < capacity -> evs = []) /\
    (lowBatteryWarned m = true ->
     lowBatteryWarned (fst (lowBatteryCheck capacity m s)) = true).
Proof.
  unfold lowBatteryCheck.
  destruct (to_u32 (millis s - lastBatteryCheck m) >? 5000).
  - cbv zeta. cbn [lowBatteryWarned].
    destruct (Z.leb_spec capacity 10) as [C|C]; cbn [andb].
    + destruct (lowBatteryWarned m) eqn:W; cbn [negb fst snd lowBatteryWarned].
      * exists []. rewrite app_nil_r. cbn [filter length].
        split; [reflexivity|]. split; [lia|]. split; auto.
      * eexists. split.
        { cbn [emit on_world world trace]. rewrite <- app_assoc. reflexivity. }
        cbn. split; [lia|]. split; [lia|discriminate].
    + cbn [fst snd lowBatteryWarned]. exists []. rewrite app_nil_r.
      split; [reflexivity|]. cbn [filter length].
      split; [destruct (lowBatteryWarned m); lia|]. split; auto.
  - cbn [fst snd]. exists []. rewrite app_nil_r.
    split; [reflexivity|]. cbn [filter length].
    split; [destruct (lowBatteryWarned m); lia|]. split; auto.
Qed.

Lemma battery_ticks_steps ticks : forall m s,
  exists evs,
    trace (world (snd (battery_ticks ticks m s))) = trace (world s) ++ evs /\
    (length (filter is_low_battery_alert evs)
     <= if lowBatteryWarned m then 0 else 1)%nat /\
    (Forall (fun t => 10 < snd t) ticks -> evs = []) /\
    (lowBatteryWarned m = true ->
     lowBatteryWarned (fst (battery_ticks ticks m s)) = true).
Proof.
  induction ticks as [|[wait capacity] ticks IH]; intros m s; cbn [battery_ticks].
  - exists []. rewrite app_nil_r. cbn [filter length fst snd].
    split; [reflexivity|]. split; [destruct (lowBatteryWarned m); lia|]. split; auto.
  - destruct (lowBatteryCheck_step capacity m (delay wait s)) as (e1 & T1 & B1 & C1 & W1).
    destruct (lowBatteryCheck capacity m (delay wait s)) as [m1 s1].
    cbn [fst snd] in T1, B1, W1.
    destruct (IH m1 s1) as (e2 & T2 & B2 & C2 & W2).
    exists (e1 ++ e2). split; [|split; [|split]].
    + rewrite T2, T1. cbn [delay on_world world trace]. symmetry. apply app_assoc.
    + rewrite filter_app, length_app. lia.
    + intros F. inversion F as [|? ? Fc Ft]; subst. cbn [snd] in Fc.
      rewrite (C1 Fc), (C2 Ft). reflexivity.
    + intros W. apply W2. apply W1. exact W.
Qed.

(** X15.  The low-battery block of the driver-control loop alerts at
    most once: over any number of iterations, whatever the time each
    takes and the capacity it reads, at most one long rumble is sent
    (none if a warning was given before), nothing is sent while the
    capacity stays above 10, and once given the warning stays
    recorded. *)
Theorem low_battery_alert_at_most_once ticks m s :
  (length (filter is_low_battery_alert
             (events_since s (snd (battery_ticks ticks m s))))
   <= if lowBatteryWarned m then 0 else 1)%nat /\
  (Forall (fun t => 10 < snd t) ticks ->
   events_since s (snd (battery_ticks ticks m s)) = []) /\
  (lowBatteryWarned m = true ->
   lowBatteryWarned (fst (battery_ticks ticks m s)) = true).
Proof.
  destruct (battery_ticks_steps ticks m s) as (evs & T & B & C & W).
  rewrite (events_since_app _ _ _ T). split; [exact B|]. split; assumption.
Qed.

(** ** A save cut short *)

Section TruncatedSave.
Import File FileFacts.

Lemma firstn_app_fits {A} (n : nat) (l1 l2 : list A) :
  (length l1 <= n)%nat -> firstn n (l1 ++ l2) = l1 ++ firstn (n - length l1) l2.
Proof.
  intros H. rewrite firstn_app. f_equal. apply firstn_all2. exact H.
Qed.

Lemma firstn_app_short {A} (n : nat) (l1 l2 : list A) :
  (n < length l1)%nat -> firstn n (l1 ++ l2) = firstn n l1.
Proof.
  intros H. rewrite firstn_app.
  replace (n - length l1)%nat with 0%nat by lia. cbn [firstn]. apply app_nil_r.
Qed.

Lemma fwrite_prefix item w old :
  sd_file w = Some old ->
  sd_file (snd (fwrite item w)) = Some (old ++ firstn (sd_free w) item) /\
  sd_free (snd (fwrite item w)) = (sd_free w - length item)%nat.
Proof.
  intros Hf. unfold fwrite. rewrite Hf.
  destruct (Nat.leb_spec (length item) (sd_free w)) as [L|L]; cbn [snd sd_file sd_free].
  - rewrite firstn_all2 by exact L. split; reflexivity.
  - split; [reflexivity|lia].
Qed.

Lemma fwrite_frames_prefix log : forall w old,
  sd_file w = Some old ->
  sd_file (fold_left (fun file frame => snd (fwrite (encode_frame frame) file)) log w)
  = Some (old ++ firstn (sd_free w) (flat_map encode_frame log)).
Proof.
  induction log as [|f log IH]; intros w old Hf; cbn [fold_left flat_map].
  - rewrite firstn_nil, app_nil_r. exact Hf.
  - destruct (fwrite_prefix (encode_frame f) w old Hf) as [Ef Er].
    rewrite (IH _ _ Ef), Er, <- app_assoc. f_equal. f_equal.
    destruct (Nat.leb_spec (length (encode_frame f)) (sd_free w)) as [L|L].
    + rewrite (firstn_all2 (encode_frame f)) by exact L.
      symmetry. apply firstn_app_fits. exact L.
    + replace (sd_free w - length (encode_frame f))%nat with 0%nat by lia.
      cbn [firstn]. rewrite app_nil_r. symmetry. apply firstn_app_short. exact L.
Qed.

(** Whatever room the card has, the file a save leaves is the image of
    the log cut to that room. *)
Lemma saveToSD_prefix s :
  sd_mounted (world s) = true ->
  sd_file (world (snd (saveToSD s)))
  = Some (firstn (sd_free (world s)) (file_image (recording (self s)))).
Proof.
  intros Hm. unfold saveToSD, fopen_wb. rewrite Hm. cbn [snd on_world world].
  set (w0 := mkWorld _ true (Some []) _ _).
  destruct (fwrite_prefix (encode_u32 (to_u32 (Z.of_nat (length (recording (self s))))))
              w0 [] eq_refl) as [Ef Er].
  rewrite (fwrite_frames_prefix _ _ _ Ef), Er. subst w0. cbn [sd_free app].
  unfold file_image. f_equal.
  set (hd := encode_u32 _).
  destruct (Nat.leb_spec (length hd) (sd_free (world s))) as [L|L].
  - rewrite (firstn_all2 hd) by exact L. symmetry. apply firstn_app_fits. exact L.
  - replace (sd_free (world s) - length hd)%nat with 0%nat by lia.
    cbn [firstn]. rewrite app_nil_r. symmetry. apply firstn_app_short. exact L.
Qed.

Lemma saveToSD_mounted s :
  sd_mounted (world s) = true ->
  fst (saveToSD s) = true /\ sd_mounted (world (snd (saveToSD s))) = true.
Proof.
  intros Hm. unfold saveToSD, fopen_wb. rewrite Hm. cbn [fst snd on_world world].
  split; [reflexivity|].
  set (w0 := snd (fwrite _ _)).
  assert (M0 : sd_mounted w0 = true) by (subst w0; apply fwrite_keeps).
  clearbody w0. revert w0 M0.
  induction (recording (self s)) as [|f log IH]; intros w0 M0; [exact M0|].
  cbn [fold_left]. apply IH.
  destruct (fwrite_keeps (encode_frame f) w0) as (_ & _ & ->). exact M0.
Qed.

(** X16.  A save that the card has no room to finish is still reported
    as a success, and the file it leaves cannot be loaded: [loadFromSD]
    fails on it, either at the count or at the first record that comes
    short. *)
Theorem truncated_save_does_not_load s :
  sd_mounted (world s) = true ->
  (length (recording (self s)) <= Z.to_nat MAX_FRAMES)%nat ->
  (sd_free (world s) < 4 + FRAME_SIZE * length (recording (self s)))%nat ->
  fst (saveToSD s) = true /\ fst (loadFromSD (snd (saveToSD s))) = false.
Proof.
  intros Hm Hn Hfree.
  destruct (saveToSD_mounted s Hm) as [Hok Hm'].
  split; [exact Hok|].
  pose proof (saveToSD_prefix s Hm) as Hf.
  unfold loadFromSD, fopen_rb. rewrite Hm', Hf.
  set (log := recording (self s)) in *.
  set (hd := encode_u32 (to_u32 (Z.of_nat (length log)))).
  assert (Hu : is_u32 (Z.of_nat (length log)))
    by (unfold is_u32, U32_MOD; unfold MAX_FRAMES in Hn; lia).
  unfold file_image. fold hd.
  destruct (Nat.leb_spec 4 (sd_free (world s))) as [L|L].
  - rewrite firstn_app_fits by exact L.
    change 4%nat with (length hd) at 1. rewrite fread_app.
    subst hd. rewrite (to_u32_id _ Hu), (decode_encode_u32 _ Hu).
    replace (Z.of_nat (length log) >? MAX_FRAMES) with false
      by (symmetry; rewrite Z.gtb_ltb; apply Z.ltb_ge; unfold MAX_FRAMES in *; lia).
    rewrite Nat2Z.id. rewrite read_frames_short; [reflexivity|].
    rewrite length_firstn.
    change (length (encode_u32 (Z.of_nat (length log)))) with 4%nat.
    unfold FRAME_SIZE in *. lia.
  - rewrite firstn_app_short by exact L.
    unfold fread.
    replace (4 <=? length (firstn (sd_free (world s)) hd))%nat with false; [reflexivity|].
    symmetry. apply Nat.leb_gt. rewrite length_firstn. lia.
Qed.

End TruncatedSave.

Lemma truncated_save_does_not_load_witness :
  fst (saveToSD card_nearly_full) = true /\
  fst (loadFromSD (snd (saveToSD card_nearly_full))) = false.
Proof.
  apply (truncated_save_does_not_load card_nearly_full).
  - reflexivity.
  - vm_compute. lia.
  - vm_compute. lia.
Defined.

(** * The player and the store, in full *)

(** ** The commands of the toggles *)

Section ToggleCommands.

Ltac toggle_by field :=
  intros [a l w]; destruct l as [l1 l2 l3 l4 l5 l6 l7];
  unfold toggleIntakeForward, toggleIntakeReverse, toggleOuttakeForward,
    toggleOuttakeReverse, toggleMidScoring, toggleDescore, toggleUnloader;
  destruct field;
  cbv beta iota zeta delta
    [on_latches latches self world with_intakeForward with_intakeReverse
     with_outtakeForward with_outtakeReverse with_midScoring with_descore
     with_unloader intakeForward intakeReverse outtakeForward
     outtakeReverse midScoring descore unloader negb emit on_world
     push clock sd_mounted sd_file sd_free trace toggle_events latch_of];
  rewrite <- ?app_assoc; reflexivity.

Lemma toggleIntakeForward_events : forall s,
  toggleIntakeForward s
  = mkSystem (self s) (with_intakeForward (negb (intakeForward (latches s))) (latches s))
      (push (toggle_events TIntakeForward (negb (latch_of TIntakeForward (latches s))))
            (world s)).
Proof. toggle_by l1. Qed.

Lemma toggleIntakeReverse_events : forall s,
  toggleIntakeReverse s
  = mkSystem (self s) (with_intakeReverse (negb (intakeReverse (latches s))) (latches s))
      (push (toggle_events TIntakeReverse (negb (latch_of TIntakeReverse (latches s))))
            (world s)).
Proof. toggle_by l2. Qed.

Lemma toggleOuttakeForward_events : forall s,
  toggleOuttakeForward s
  = mkSystem (self s) (with_outtakeForward (negb (outtakeForward (latches s))) (latches s))
      (push (toggle_events TOuttakeForward (negb (latch_of TOuttakeForward (latches s))))
            (world s)).
Proof. toggle_by l3. Qed.

Lemma toggleOuttakeReverse_events : forall s,
  toggleOuttakeReverse s
  = mkSystem (self s) (with_outtakeReverse (negb (outtakeReverse (latches s))) (latches s))
      (push (toggle_events TOuttakeReverse (negb (latch_of TOuttakeReverse (latches s))))
            (world s)).
Proof. toggle_by l4. Qed.

Lemma toggleMidScoring_events : forall s,
  toggleMidScoring s
  = mkSystem (self s) (with_midScoring (negb (midScoring (latches s))) (latches s))
      (push (toggle_events TMidScoring (negb (latch_of TMidScoring (latches s))))
            (world s)).
Proof. toggle_by l5. Qed.

Lemma toggleDescore_events : forall s,
  toggleDescore s
  = mkSystem (self s) (with_descore (negb (descore (latches s))) (latches s))
      (push (toggle_events TDescore (negb (latch_of TDescore (latches s))))
            (world s)).
Proof. toggle_by l6. Qed.

Lemma toggleUnloader_events : forall s,
  toggleUnloader s
  = mkSystem (self s) (with_unloader (negb (unloader (latches s))) (latches s))
      (push (toggle_events TUnloader (negb (latch_of TUnloader (latches s))))
            (world s)).
Proof. toggle_by l7. Qed.

(** The button handling of one frame, with its commands: each toggle
    whose bit rose against the previous mask issues its commands, in
    the order of the seven tests, and the others issue none. *)
Lemma handleButtons_events current s :
  handleButtons current s
  = mkSystem (with_prevButtons current (self s))
             (latches_after current (prevButtons (self s)) (latches s))
             (push (press_events current (prevButtons (self s)) (latches s))
                   (world s)).
Proof.
  unfold handleButtons, onPress, press_events, press_of, all_toggles.
  cbn [flat_map].
  rewrite <- !wasPressed_rising by apply toggle_bit_nonneg.
  cbn [toggle_bit]. unfold latches_after. cbv zeta.
  destruct s as [a l w]. cbn [self latches world].
  destruct (wasPressed current (prevButtons a) BTN_R1);
    [rewrite toggleIntakeForward_events|]; cbn [self latches world];
  (destruct (wasPressed current (prevButtons a) BTN_R2);
    [rewrite toggleIntakeReverse_events|]; cbn [self latches world]);
  (destruct (wasPressed current (prevButtons a) BTN_L1);
    [rewrite toggleOuttakeForward_events|]; cbn [self latches world]);
  (destruct (wasPressed current (prevButtons a) BTN_L2);
    [rewrite toggleOuttakeReverse_events|]; cbn [self latches world]);
  (destruct (wasPressed current (prevButtons a) BTN_X);
    [rewrite toggleMidScoring_events|]; cbn [self latches world]);
  (destruct (wasPressed current (prevButtons a) BTN_A);
    [rewrite toggleDescore_events|]; cbn [self latches world]);
  (destruct (wasPressed current (prevButtons a) BTN_B);
    [rewrite toggleUnloader_events|]; cbn [self latches world]);
  destruct l as [l1 l2 l3 l4 l5 l6 l7];
  unfold on_self; cbn [self latches world];
  rewrite ?push_push, ?app_nil_r, ?app_nil_l, <- ?app_assoc;
  cbn [latch_of with_intakeForward with_intakeReverse with_outtakeForward
       with_outtakeReverse with_midScoring with_descore with_unloader
       intakeForward intakeReverse outtakeForward outtakeReverse midScoring
       descore unloader app];
  rewrite ?push_nil; reflexivity.
Qed.

End ToggleCommands.

Section PlaybackCommands.

Variable hw : Sensors.
Variable fuel : nat.

(** The dispatch of one frame, with its commands. *)
Lemma dispatchFrame_events f s :
  dispatchFrame hw fuel f s
  = match corrected hw fuel (imuCorrectionGain (self s)) f (millis s) with
    | None => None
    | Some c =>
        Some (mkSystem (with_prevButtons (buttons f) (self s))
                (latches_after (buttons f) (prevButtons (self s)) (latches s))
                (push ([LeftMotorsMove (fst c); RightMotorsMove (snd c)]
                       ++ press_events (buttons f) (prevButtons (self s)) (latches s))
                      (world s)))
    end.
Proof.
  unfold dispatchFrame, corrected, get_heading.
  destruct (applyHeadingCorrection _ _ _ _ _ _) as [[l r]|]; [|reflexivity].
  rewrite handleButtons_events.
  cbn [emit on_world self latches world fst snd].
  f_equal. f_equal. unfold push. cbn [clock sd_mounted sd_file sd_free trace].
  rewrite <- !app_assoc. reflexivity.
Qed.

Lemma press_of_manipulators t current prev l :
  filter is_manipulator_command (press_of t current prev l)
  = press_of t current prev l /\
  filter is_actuator_command (press_of t current prev l)
  = press_of t current prev l.
Proof.
  unfold press_of. destruct (rising current prev (toggle_bit t)); [|split; reflexivity].
  destruct t; cbn [toggle_events]; destruct (negb _); split; reflexivity.
Qed.

Lemma press_events_manipulators current prev l :
  filter is_manipulator_command (press_events current prev l)
  = press_events current prev l.
Proof.
  unfold press_events, all_toggles. cbn [flat_map].
  rewrite !filter_app.
  rewrite !(proj1 (press_of_manipulators _ current prev l)). reflexivity.
Qed.

Lemma press_events_actuators current prev l :
  filter is_actuator_command (press_events current prev l)
  = press_events current prev l.
Proof.
  unfold press_events, all_toggles. cbn [flat_map].
  rewrite !filter_app.
  rewrite !(proj2 (press_of_manipulators _ current prev l)). reflexivity.
Qed.

(** The commands to the intake, the outtake and the pistons along a
    run: those of the toggles of the frames dispatched, and no other. *)
Lemma Run_manipulators rest s rest' s' :
  Run hw fuel rest s rest' s' ->
  exists done tr,
    rest = done ++ rest' /\
    trace (world s') = trace (world s) ++ tr /\
    filter is_manipulator_command tr
    = toggle_trace (map buttons done) (prevButtons (self s)) (latches s).
Proof.
  induction 1 as [| f rest s s1 rest' s' D R IH | e rest s rest' s' _ IH].
  - exists [], []. rewrite app_nil_r. repeat split.
  - rewrite dispatchFrame_events in D.
    destruct (corrected _ _ _ _ _) as [c|]; [|discriminate].
    inversion D; subst s1; clear D.
    destruct IH as (done & tr & -> & T & F).
    cbn [self latches world prevButtons with_prevButtons push trace] in T, F.
    exists (f :: done). eexists. split; [reflexivity|]. split.
    + rewrite T, <- !app_assoc. reflexivity.
    + rewrite filter_app. cbn [filter map toggle_trace].
      unfold is_manipulator_command at 1.
      cbn [is_actuator_command is_drive_command andb negb].
      unfold is_manipulator_command at 1.
      cbn [is_actuator_command is_drive_command andb negb].
      rewrite press_events_manipulators, F. reflexivity.
  - destruct IH as (done & tr & -> & T & F).
    destruct (poll_tail_trace e s) as [c Ht].
    exists done. eexists. split; [reflexivity|]. split.
    + rewrite T, Ht, <- app_assoc. reflexivity.
    + rewrite filter_app. cbn [filter is_manipulator_command is_actuator_command andb app].
      rewrite F. unfold poll_tail.
      destruct ((e / 500) mod 2 =? 0); reflexivity.
Qed.

(** Where [playback] enters its loop: the state after the load, if there
    was one, and the prologue. *)
Lemma playback_enters s log :
  log_to_replay s = Some log ->
  exists s1 tr,
    playback_begin s
    = Replaying (fst (playback_prologue s1)) (snd (playback_prologue s1)) /\
    recording (self s1) = log /\ latches s1 = latches s /\
    _isRecording (self s1) = _isRecording (self s) /\
    clock (world s1) = clock (world s) /\
    trace (world s1) = trace (world s) ++ tr /\
    filter is_actuator_command tr = [].
Proof.
  unfold log_to_replay, playback_begin.
  destruct (recording (self s)) as [|f r] eqn:E.
  - destruct (loadFromSD s) as [ok s1] eqn:L. cbn [fst snd].
    destruct ok; [|discriminate]. intros H. inversion H; subst log; clear H.
    destruct (loadFromSD_trace s) as (tr & T & F).
    destruct (loadFromSD_keeps s) as (Ll & Lr & _).
    rewrite L in T, Ll, Lr. cbn [snd] in T, Ll, Lr.
    exists s1, tr. cbn [negb]. repeat split; try assumption.
    pose proof (f_equal (fun x => clock (world (snd x))) L) as C. cbn [snd] in C.
    rewrite <- C. unfold loadFromSD.
    destruct (File.fopen_rb (world s)) as [file|]; [|reflexivity].
    destruct (File.fread 4 file) as [[item rest]|]; [|reflexivity].
    destruct (File.decode_u32 item >? MAX_FRAMES); [reflexivity|].
    destruct (read_frames _ _ _ _); reflexivity.
  - intros H. inversion H; subst log; clear H.
    exists s, []. cbn [negb]. rewrite app_nil_r. repeat split; auto.
Qed.

Lemma filter_manipulator_quiet tr :
  filter is_actuator_command tr = [] -> filter is_manipulator_command tr = [].
Proof.
  induction tr as [|e tr IH]; [reflexivity|]. cbn [filter].
  unfold is_manipulator_command at 1.
  destruct (is_actuator_command e); [discriminate|]. exact IH.
Qed.

(** C7.  In playback a toggle fires on rising edges only, taken against
    the mask of the frame dispatched just before (0 before the first
    frame).  Over the log that is replayed, the commands to the intake,
    the outtake and the pistons are exactly those of the toggles whose
    bit rises, frame after frame, followed by the two stops of the
    epilogue; each latch ends as its old value flipped once per rising
    edge of its bit.  A bit that is clear before a frame and set in
    that frame and in the next makes its toggle fire at the first of
    the two frames and not at the second. *)
Theorem playback_toggles_on_rising_edges polls s s' log :
  log_to_replay s = Some log ->
  playback hw polls fuel s = Some s' ->
  filter is_manipulator_command (events_since s s')
  = toggle_trace (map buttons log) 0 (latches s) ++ [IntakeMove 0; OuttakeMove 0] /\
  (forall t,
      latch_of t (latches s')
      = fold_left xorb (edges (toggle_bit t) 0 (map buttons log))
                  (latch_of t (latches s))) /\
  (forall t prev m1 m2 l,
      Z.testbit prev (toggle_bit t) = false ->
      Z.testbit m1 (toggle_bit t) = true ->
      Z.testbit m2 (toggle_bit t) = true ->
      press_of t m1 prev l = toggle_events t (negb (latch_of t l)) /\
      press_of t m2 m1 (latches_after m1 prev l) = [] /\
      latch_of t (latches_after m1 prev l) = negb (latch_of t l) /\
      latch_of t (latches_after m2 m1 (latches_after m1 prev l))
      = negb (latch_of t l)).
Proof.
  intros Hlog H.
  destruct (playback_enters s log Hlog) as (s1 & tr0 & B & Rl & Ll & _ & _ & T0 & F0).
  unfold playback in H. rewrite B in H.
  rewrite playback_prologue_form in H. cbn [fst snd] in H.
  set (s0 := mkSystem _ _ _) in H.
  change (recording (self s0)) with (recording (self s1)) in H. rewrite Rl in H.
  destruct (playback_loop hw polls fuel _ log s0) as [s2|] eqn:L; [|discriminate].
  inversion H; subst s'; clear H.
  apply playback_loop_run in L.
  destruct (Run_manipulators _ _ _ _ L) as (done & tr & Ed & T & F).
  rewrite app_nil_r in Ed. subst done.
  pose proof (Run_latches hw fuel _ _ _ _ L) as RL.
  subst s0.
  cbn [self latches world trace prevButtons with_prevButtons replay_latches] in RL, F, T.
  split; [|split].
  - rewrite playback_end_form.
    erewrite events_since_app.
    2:{ unfold push. cbn [world trace]. rewrite T, T0, <- !app_assoc. reflexivity. }
    rewrite !filter_app, (filter_manipulator_quiet _ F0), F, Ll. reflexivity.
  - intros t. rewrite playback_end_form. cbn [latches].
    replace (latches s2) with (snd (replay_latches log 0 (latches s1)))
      by (rewrite RL; reflexivity).
    rewrite Ll. apply replay_latches_edges.
  - intros t prev m1 m2 l Hp H1 H2. unfold press_of.
    rewrite !latches_after_rising. unfold rising.
    rewrite Hp, H1, H2. cbn [negb andb].
    rewrite xorb_false_r, xorb_true_r. repeat split.
Qed.

End PlaybackCommands.

Lemma playback_toggles_on_rising_edges_witness :
  playback idle_sensors 5 0 held_press = Some after_held_press /\
  filter is_manipulator_command (events_since held_press after_held_press)
  = [IntakeMove 127] ++ [IntakeMove 0; OuttakeMove 0] /\
  latch_of TIntakeForward (latches after_held_press) = true.
Proof.
  split; [vm_compute; reflexivity|].
  assert (H : playback idle_sensors 5 0 held_press = Some after_held_press)
    by (vm_compute; reflexivity).
  destruct (playback_toggles_on_rising_edges idle_sensors 0 5 held_press
              after_held_press [frame_R1 20; frame_R1 40] eq_refl H)
    as (T & L & _).
  split; [exact T|]. exact (L TIntakeForward).
Defined.

(** ** The schedule of the playback loop *)

Lemma due_poll_le x k : x <= 10 * k -> due_poll x <= k.
Proof.
  intros H. unfold due_poll.
  pose proof (Z.div_mod (x + 9) 10 ltac:(lia)).
  pose proof (Z.mod_pos_bound (x + 9) 10 ltac:(lia)). lia.
Qed.

Lemma due_poll_ge x k : 10 * k <= x + 9 -> k <= due_poll x.
Proof.
  intros H. unfold due_poll.
  pose proof (Z.div_mod (x + 9) 10 ltac:(lia)).
  pose proof (Z.mod_pos_bound (x + 9) 10 ltac:(lia)). lia.
Qed.

Lemma due_poll_mono x y : x <= y -> due_poll x <= due_poll y.
Proof. intros H. unfold due_poll. apply Z.div_le_mono; lia. Qed.

Lemma due_poll_bound x : 10 * due_poll x <= x + 9.
Proof.
  unfold due_poll.
  pose proof (Z.div_mod (x + 9) 10 ltac:(lia)).
  pose proof (Z.mod_pos_bound (x + 9) 10 ltac:(lia)). lia.
Qed.

Lemma option_map_app_nil {A} (x : option (list A)) : option_map (app []) x = x.
Proof. destruct x; reflexivity. Qed.

Lemma last_due_cons f rest : last_due (f :: rest) = Z.max (timestamp f) (last_due rest).
Proof. reflexivity. Qed.

Lemma last_due_bound rest b :
  0 <= b -> (forall f, In f rest -> timestamp f <= b) -> last_due rest <= b.
Proof.
  intros Hb. induction rest as [|f rest IH]; intros H; [exact Hb|].
  rewrite last_due_cons.
  pose proof (H f (or_introl eq_refl)).
  assert (last_due rest <= b) by (apply IH; intros x Hx; apply H; right; exact Hx).
  lia.
Qed.

Lemma poll_tail_keeps elapsed s :
  self (poll_tail elapsed s) = self s /\ latches (poll_tail elapsed s) = latches s.
Proof. unfold poll_tail. destruct ((elapsed / 500) mod 2 =? 0); split; reflexivity. Qed.

Section Schedule.

Variable hw : Sensors.
Variable fuel : nat.

(** One pass of the inner loop, at poll [k]. *)
Lemma dispatch_due_commands g start k : forall rest s m,
  imuCorrectionGain (self s) = g ->
  clock (world s) = to_u32 (start + 10 * k) ->
  m <= 10 * k ->
  (forall f r, rest = f :: r -> k <= due_poll (Z.max m (timestamp f))) ->
  match dispatch_due hw fuel (10 * k) rest s with
  | None =>
      replay_commands hw fuel g start m rest (prevButtons (self s)) (latches s) = None
  | Some (rest', s') =>
      exists m' tr,
        trace (world s') = trace (world s) ++ tr /\
        replay_commands hw fuel g start m rest (prevButtons (self s)) (latches s)
        = option_map (app (filter is_actuator_command tr))
            (replay_commands hw fuel g start m' rest'
               (prevButtons (self s')) (latches s')) /\
        imuCorrectionGain (self s') = g /\
        clock (world s') = clock (world s) /\
        m' <= 10 * k /\
        Z.max m' (last_due rest') = Z.max m (last_due rest) /\
        (forall f r, rest' = f :: r -> 10 * k < timestamp f)
  end.
Proof.
  induction rest as [|f rest IH]; intros s m Hg Hc Hm Hk; cbn [dispatch_due].
  - exists m, []. rewrite app_nil_r. cbn [replay_commands filter option_map app].
    repeat split; try assumption; try reflexivity. discriminate.
  - destruct (Z.leb_spec (timestamp f) (10 * k)) as [Hdue|Hnot].
    + assert (Ek : due_poll (Z.max m (timestamp f)) = k).
      { apply Z.le_antisymm; [apply due_poll_le; lia|].
        apply (Hk f rest). reflexivity. }
      rewrite dispatchFrame_events. cbn [replay_commands]. cbv zeta.
      rewrite Ek. unfold millis. rewrite Hc, Hg.
      destruct (corrected hw fuel g f (to_u32 (start + 10 * k))) as [c|];
        [|reflexivity].
      set (s1 := mkSystem _ _ _).
      specialize (IH s1 (Z.max m (timestamp f))).
      assert (H1 : imuCorrectionGain (self s1) = g) by exact Hg.
      assert (H2 : clock (world s1) = to_u32 (start + 10 * k)) by exact Hc.
      assert (H3 : Z.max m (timestamp f) <= 10 * k) by lia.
      assert (H4 : forall f0 r, rest = f0 :: r ->
                   k <= due_poll (Z.max (Z.max m (timestamp f)) (timestamp f0))).
      { intros f0 r _. rewrite <- Ek at 1. apply due_poll_mono. lia. }
      specialize (IH H1 H2 H3 H4).
      change (prevButtons (self s1)) with (buttons f) in IH.
      change (latches s1)
        with (latches_after (buttons f) (prevButtons (self s)) (latches s)) in IH.
      destruct (dispatch_due hw fuel (10 * k) rest s1) as [[rest' s']|].
      * destruct IH as (m' & tr & T & R & G & C & M & L & Hd).
        exists m'. eexists. split; [|split; [|split; [|split; [|split; [|split]]]]].
        -- rewrite T. subst s1. cbn [world push trace]. rewrite <- app_assoc.
           reflexivity.
        -- rewrite R.
           destruct (replay_commands hw fuel g start m' rest' _ _) as [evs|];
             [|reflexivity].
           cbn [option_map]. rewrite !filter_app. cbn [filter is_actuator_command app].
           rewrite press_events_actuators, <- !app_assoc. reflexivity.
        -- exact G.
        -- rewrite C. exact H2.
        -- exact M.
        -- rewrite L, last_due_cons. lia.
        -- exact Hd.
      * rewrite IH. reflexivity.
    + exists m, []. rewrite app_nil_r. cbn [filter]. rewrite option_map_app_nil.
      repeat split; try assumption; try reflexivity.
      intros f0 r E. inversion E; subst. exact Hnot.
Qed.

(** The outer loop from poll [k] on. *)
Lemma playback_loop_commands g start : forall polls k rest s m,
  imuCorrectionGain (self s) = g ->
  clock (world s) = to_u32 (start + 10 * k) ->
  0 <= k -> m <= 10 * k -> m <= U32_MOD - 10 ->
  (forall f, In f rest -> timestamp f <= U32_MOD - 10) ->
  (forall f r, rest = f :: r -> k <= due_poll (Z.max m (timestamp f))) ->
  match playback_loop hw polls fuel start rest s with
  | Some s' =>
      exists tr evs,
        trace (world s') = trace (world s) ++ tr /\
        replay_commands hw fuel g start m rest (prevButtons (self s)) (latches s)
        = Some evs /\
        filter is_actuator_command tr = evs /\
        (rest <> [] ->
         clock (world s')
         = to_u32 (start + 10 * (due_poll (Z.max m (last_due rest)) + 1)))
  | None =>
      replay_commands hw fuel g start m rest (prevButtons (self s)) (latches s) = None
      \/ (polls <= Z.to_nat (due_poll (Z.max m (last_due rest)) - k))%nat
  end.
Proof.
  induction polls as [|polls IH]; intros k rest s m Hg Hc Hk0 Hm Hmb Hts Hk;
    destruct rest as [|f0 rest0]; cbn [playback_loop].
  - exists [], []. rewrite app_nil_r. repeat split. congruence.
  - right. lia.
  - exists [], []. rewrite app_nil_r. repeat split. congruence.
  - set (rest := f0 :: rest0) in *.
    assert (HK : k <= due_poll (Z.max m (last_due rest))).
    { etransitivity; [apply (Hk f0 rest0 eq_refl)|]. apply due_poll_mono.
      subst rest. rewrite last_due_cons. lia. }
    assert (HL : last_due rest <= U32_MOD - 10)
      by (apply last_due_bound; [unfold U32_MOD; lia|exact Hts]).
    pose proof (due_poll_bound (Z.max m (last_due rest))) as HB.
    unfold millis. rewrite Hc, to_u32_elapsed.
    rewrite (to_u32_id (10 * k)) by (unfold is_u32; lia).
    pose proof (dispatch_due_commands g start k rest s m Hg Hc Hm Hk) as D.
    destruct (dispatch_due hw fuel (10 * k) rest s) as [[rest' s1]|] eqn:E;
      [|left; exact D].
    destruct D as (m' & tr1 & T1 & R1 & G1 & C1 & M1 & L1 & Hd1).
    destruct (dispatch_due_keeps hw fuel _ _ _ _ _ E) as [Hsub _].
    destruct (poll_tail_keeps (10 * k) s1) as [Ps Pl].
    destruct (poll_tail_trace (10 * k) s1) as [c Pt].
    specialize (IH (k + 1) rest' (poll_tail (10 * k) s1) m').
    rewrite Ps, Pl in IH.
    assert (I1 : imuCorrectionGain (self s1) = g) by exact G1.
    assert (I2 : clock (world (poll_tail (10 * k) s1)) = to_u32 (start + 10 * (k + 1))).
    { rewrite poll_tail_clock, C1, Hc, to_u32_advance. f_equal. lia. }
    assert (I3 : forall f, In f rest' -> timestamp f <= U32_MOD - 10)
      by (intros f Hf; apply Hts, Hsub, Hf).
    assert (I4 : forall f r, rest' = f :: r ->
                 k + 1 <= due_poll (Z.max m' (timestamp f))).
    { intros f r Ef. apply due_poll_ge. specialize (Hd1 f r Ef). lia. }
    specialize (IH I1 I2 ltac:(lia) ltac:(lia) ltac:(lia) I3 I4).
    rewrite L1 in IH.
    destruct rest' as [|f1 rest1].
    + (* every frame has been dispatched: the loop ends after this poll *)
      destruct polls; cbn [playback_loop] in IH |- *;
        destruct IH as (tr2 & evs2 & T2 & R2 & F2 & _);
        (exists (tr1 ++ [ScreenSetPen c; ScreenFillCircle 460 20 15]), (filter is_actuator_command tr1);
         split; [rewrite Pt, T1, <- app_assoc; reflexivity|];
         split; [rewrite R1; cbn [replay_commands option_map]; rewrite app_nil_r; reflexivity|];
         split; [rewrite filter_app; cbn [filter is_actuator_command];
                 rewrite app_nil_r; reflexivity|];
         intros _; rewrite I2; do 3 f_equal;
         cbn [last_due fold_right] in L1;
         assert (due_poll (Z.max m (last_due rest)) <= k)
           by (apply due_poll_le; lia); lia).
    + destruct (playback_loop hw polls fuel start (f1 :: rest1) _) as [s'|].
      * destruct IH as (tr2 & evs2 & T2 & R2 & F2 & C2).
        exists (tr1 ++ [ScreenSetPen c; ScreenFillCircle 460 20 15] ++ tr2),
          (filter is_actuator_command tr1 ++ evs2).
        split; [rewrite T2, Pt, T1, <- !app_assoc; reflexivity|].
        split; [rewrite R1, R2; reflexivity|].
        split; [rewrite !filter_app, F2; reflexivity|].
        intros _. apply C2. discriminate.
      * destruct IH as [R2|P2].
        -- left. rewrite R1, R2. reflexivity.
        -- right.
           assert (k + 1 <= due_poll (Z.max m (last_due rest))).
           { rewrite <- L1. etransitivity; [apply (I4 f1 rest1 eq_refl)|].
             apply due_poll_mono. rewrite last_due_cons. lia. }
           lia.
Qed.

(** When every correction the replay can ask for is defined, so is the
    whole schedule. *)
Lemma replay_commands_defined g start log : forall m prev l,
  corrections_defined hw fuel g log ->
  exists evs, replay_commands hw fuel g start m log prev l = Some evs.
Proof.
  induction log as [|f log IH]; intros m prev l Hd; cbn [replay_commands].
  - exists []. reflexivity.
  - cbv zeta.
    destruct (corrected hw fuel g f _) as [c|] eqn:E;
      [|exfalso; exact (Hd f _ (or_introl eq_refl) E)].
    destruct (IH (Z.max m (timestamp f)) (buttons f)
                 (latches_after (buttons f) prev l)) as [evs ->].
    + intros x t Hx. apply Hd. right. exact Hx.
    + eexists. reflexivity.
Qed.

End Schedule.

Section PlaybackOutcome.

Variable hw : Sensors.
Variable fuel : nat.

(** What [playback] does on a log that is not empty: it returns exactly
    when every correction of the schedule is defined and the bound on
    the polls allows the last frame to fall due. *)
Lemma playback_outcome polls s :
  recording (self s) <> [] ->
  (forall f, In f (recording (self s)) -> timestamp f <= U32_MOD - 10) ->
  match playback hw polls fuel s with
  | Some s' =>
      exists evs,
        replay_commands hw fuel (imuCorrectionGain (self s))
          (to_u32 (clock (world s) + 50)) 0 (recording (self s)) 0 (latches s)
        = Some evs /\
        actuator_commands s s'
        = evs ++ [LeftMotorsMove 0; RightMotorsMove 0; IntakeMove 0; OuttakeMove 0] /\
        clock (world s')
        = to_u32 (clock (world s) + 50
                  + 10 * Z.of_nat (polls_needed (recording (self s)))) /\
        (exists before, trace (world s') = before ++ epilogue_events) /\
        _isPlaying (self s') = false /\
        _isRecording (self s') = _isRecording (self s) /\
        recording (self s') = recording (self s) /\
        latches s' = snd (replay_latches (recording (self s)) 0 (latches s))
  | None =>
      replay_commands hw fuel (imuCorrectionGain (self s))
        (to_u32 (clock (world s) + 50)) 0 (recording (self s)) 0 (latches s)
      = None
      \/ (polls < polls_needed (recording (self s)))%nat
  end.
Proof.
  intros Hne Hts.
  set (log := recording (self s)) in *.
  pose proof (last_due_nonneg log) as H0.
  unfold playback. rewrite (playback_begin_with_log s Hne).
  rewrite playback_prologue_form. cbn [fst snd].
  set (start := to_u32 (clock (world s) + 50)).
  set (s0 := mkSystem _ _ _).
  change (recording (self s0)) with log.
  pose proof (playback_loop_commands hw fuel (imuCorrectionGain (self s)) start
                polls 0 log s0 0) as P.
  assert (K : due_poll (Z.max 0 (last_due log)) = due_poll (last_due log))
    by (rewrite Z.max_r by exact H0; reflexivity).
  assert (Kn : Z.of_nat (polls_needed log) = due_poll (last_due log) + 1).
  { unfold polls_needed. fold (due_poll (last_due log)).
    rewrite Nat2Z.inj_succ, Z2Nat.id; [lia|]. apply due_poll_ge. lia. }
  destruct (playback_loop hw polls fuel start log s0) as [s1|] eqn:L.
  - destruct P as (tr & evs & T & R & F & C).
    + reflexivity.
    + subst s0. cbn [world clock]. subst start. unfold to_u32.
      rewrite Z.mul_0_r, Z.add_0_r, Z.mod_mod by (unfold U32_MOD; lia). reflexivity.
    + lia.
    + lia.
    + unfold U32_MOD. lia.
    + exact Hts.
    + intros f r _. apply due_poll_ge. lia.
    + pose proof (playback_loop_run hw fuel polls start log s0 s1 L) as Rn.
      pose proof (Run_same_session hw fuel _ _ _ _ Rn) as (Sr & _ & Si & _).
      pose proof (Run_latches hw fuel _ _ _ _ Rn) as RL.
      subst s0.
      cbn [self latches world trace prevButtons with_prevButtons with_isPlaying
           recording _isRecording replay_latches] in T, R, Sr, Si, RL.
      exists evs. rewrite playback_end_form.
      cbn [self world push trace clock latches with_isPlaying _isPlaying
           _isRecording recording].
      split; [exact R|]. split; [|split; [|split; [|split; [|split; [|split]]]]].
      * unfold actuator_commands. erewrite events_since_app.
        2:{ unfold push. cbn [world trace]. rewrite T, <- !app_assoc. reflexivity. }
        rewrite !filter_app, F. reflexivity.
      * rewrite C by exact Hne. rewrite K, Kn. subst start.
        rewrite to_u32_advance. f_equal; lia.
      * eexists. reflexivity.
      * reflexivity.
      * exact Si.
      * exact Sr.
      * rewrite RL. reflexivity.
  - destruct P as [R|Pn].
    + reflexivity.
    + subst s0. cbn [world clock]. subst start. unfold to_u32.
      rewrite Z.mul_0_r, Z.add_0_r, Z.mod_mod by (unfold U32_MOD; lia). reflexivity.
    + lia.
    + lia.
    + unfold U32_MOD. lia.
    + exact Hts.
    + intros f r _. apply due_poll_ge. lia.
    + left. exact R.
    + right. rewrite K, Z.sub_0_r in Pn. unfold polls_needed.
      fold (due_poll (last_due log)). lia.
Qed.

(** C6 (amended).  Take a log that is not empty and whose timestamps
    the 32-bit playback clock reaches before it wraps.  If every frame's
    heading correction is defined at the poll at which the frame falls
    due, [playback] returns: the actuator commands are, frame after
    frame in the order of the log, the corrected drive pair and the
    commands of the toggles whose bit rose, then the four stops
    (left, right, intake, outtake) and nothing for the pistons; the loop
    has run up to the poll at which the last timestamp was due and no
    further; [_isPlaying] is false, [_isRecording] is as it was, and the
    latches are where the toggles left them.  If some correction is not
    defined, [playback] does not return. *)
Theorem playback_stops_after_last_frame polls s :
  recording (self s) <> [] ->
  (forall f, In f (recording (self s)) -> timestamp f <= U32_MOD - 10) ->
  (forall evs,
      replay_commands hw fuel (imuCorrectionGain (self s))
        (to_u32 (clock (world s) + 50)) 0 (recording (self s)) 0 (latches s)
      = Some evs ->
      (polls_needed (recording (self s)) <= polls)%nat ->
      exists s',
        playback hw polls fuel s = Some s' /\
        actuator_commands s s'
        = evs ++ [LeftMotorsMove 0; RightMotorsMove 0; IntakeMove 0; OuttakeMove 0] /\
        clock (world s')
        = to_u32 (clock (world s) + 50
                  + 10 * Z.of_nat (polls_needed (recording (self s)))) /\
        10 * (Z.of_nat (polls_needed (recording (self s))) - 1)
        < last_due (recording (self s)) + 10 /\
        (exists before, trace (world s') = before ++ epilogue_events) /\
        _isPlaying (self s') = false /\
        _isRecording (self s') = _isRecording (self s) /\
        recording (self s') = recording (self s) /\
        latches s' = snd (replay_latches (recording (self s)) 0 (latches s))) /\
  (replay_commands hw fuel (imuCorrectionGain (self s))
     (to_u32 (clock (world s) + 50)) 0 (recording (self s)) 0 (latches s)
   = None ->
   playback hw polls fuel s = None).
Proof.
  intros Hne Hts. pose proof (playback_outcome polls s Hne Hts) as O.
  split.
  - intros evs R Hp. destruct (playback hw polls fuel s) as [s'|].
    + destruct O as (evs' & R' & A & C & E & P & Rc & Lg & Lt).
      rewrite R in R'. inversion R'; subst evs'.
      exists s'. split; [reflexivity|]. repeat (split; [assumption|]).
      split; [|repeat (split; [assumption|]); assumption].
      pose proof (last_due_nonneg (recording (self s))).
      pose proof (due_poll_bound (last_due (recording (self s)))) as B.
      unfold polls_needed. fold (due_poll (last_due (recording (self s)))).
      rewrite Nat2Z.inj_succ, Z2Nat.id by (apply due_poll_ge; lia). lia.
    + destruct O as [R'|Pn]; [congruence|lia].
  - intros R. destruct (playback hw polls fuel s) as [s'|]; [|reflexivity].
    destruct O as (evs & R' & _). congruence.
Qed.

End PlaybackOutcome.

Lemma playback_stops_after_last_frame_witness :
  exists s',
    playback idle_sensors 5 0 held_press = Some s' /\
    actuator_commands held_press s'
    = [LeftMotorsMove 100; RightMotorsMove 100; IntakeMove 127;
       LeftMotorsMove 100; RightMotorsMove 100]
      ++ [LeftMotorsMove 0; RightMotorsMove 0; IntakeMove 0; OuttakeMove 0] /\
    clock (world s')
    = to_u32 (clock (world held_press) + 50
              + 10 * Z.of_nat (polls_needed (recording (self held_press)))) /\
    10 * (Z.of_nat (polls_needed (recording (self held_press))) - 1)
    < last_due (recording (self held_press)) + 10 /\
    (exists before, trace (world s') = before ++ epilogue_events) /\
    _isPlaying (self s') = false /\
    _isRecording (self s') = _isRecording (self held_press) /\
    recording (self s') = recording (self held_press) /\
    latches s' = snd (replay_latches (recording (self held_press)) 0 (latches held_press)).
Proof.
  refine (proj1 (playback_stops_after_last_frame idle_sensors 0 5 held_press _ _)
                _ _ _).
  - discriminate.
  - intros f [<-|[<-|[]]]; vm_compute; discriminate.
  - vm_compute. reflexivity.
  - vm_compute. lia.
Defined.

(** C6, as stated, fails: not every log that is not empty is replayed
    to its end.  The log below is well formed and holds one frame, whose
    recorded heading is an infinity; its heading error is infinite,
    subtracting 360 never brings it to 180, and [playback] does not
    return, whatever bounds the loops are given. *)
Lemma playback_never_returns_on_infinite_heading :
  Forall frame_wf (recording (self infinite_heading_log)) /\
  recording (self infinite_heading_log) <> [] /\
  (forall polls fuel, playback idle_sensors polls fuel infinite_heading_log = None).
Proof.
  split; [|split].
  - repeat constructor; vm_compute; intuition discriminate.
  - discriminate.
  - intros polls fuel.
    pose proof (playback_outcome idle_sensors fuel polls infinite_heading_log) as O.
    destruct (playback idle_sensors polls fuel infinite_heading_log) as [s'|];
      [|reflexivity].
    destruct O as (evs & R & _).
    + discriminate.
    + intros f [<-|[]]. vm_compute. discriminate.
    + cbn [replay_commands infinite_heading_log holding self recording] in R.
      unfold corrected in R. cbn [heading leftStick rightStick] in R.
      rewrite infinite_heading_stuck in R by (vm_compute; reflexivity).
      discriminate.
Qed.

(** ** The heading correction, in full *)

(** C2 (amended).  On the inputs the recorder and the IMU produce --
    two headings that are finite numbers from 0 to 360, a finite gain,
    sticks that fit [int8_t] -- the error is the difference of the two
    headings after the two normalisation loops, each of which runs at
    most once; it is a finite number neither above 180 nor below -180
    (10 against 350 gives 20, 350 against 10 gives -20); the correction
    is [clamp(error * gain, -30, 30)], the gain being 2.0 by default (an
    error of 40 asks for 80 and gets 30); both conversions to [int] are
    defined and the commands are
    [clamp(trunc(leftStick - correction), -127, 127)] and
    [clamp(trunc(rightStick + correction), -127, 127)].  The condition
    on the headings is needed: against a live heading of 0 a recorded
    heading of +infinity keeps the first loop running for ever, and two
    infinite headings give a NaN error, which the loops let through. *)
Theorem heading_correction_formula fuel gain left right target current :
  valid_heading target = true -> valid_heading current = true ->
  is_finite gain = true -> is_i8 left -> is_i8 right ->
  (exists error l r,
      HeadingSpec.wrap180 (S fuel) (F32.sub target current) = Some error /\
      is_finite error = true /\
      F32.gt error (F32.of_int 180) = false /\
      F32.lt error (F32.of_int (-180)) = false /\
      F32.to_int (F32.sub (F32.of_int left) (HeadingSpec.correction error gain))
      = Some l /\
      F32.to_int (F32.add (F32.of_int right) (HeadingSpec.correction error gain))
      = Some r /\
      applyHeadingCorrection (S fuel) gain left right target current
      = Some (HeadingSpec.clampZ l (-127) 127, HeadingSpec.clampZ r (-127) 127)) /\
  HeadingSpec.wrap180 1 (F32.sub (F32.of_int 10) (F32.of_int 350))
  = Some (F32.of_int 20) /\
  HeadingSpec.wrap180 1 (F32.sub (F32.of_int 350) (F32.of_int 10))
  = Some (F32.of_int (-20)) /\
  GAIN_DEFAULT = 0x40000000 /\
  F32.mul (F32.of_int 40) GAIN_DEFAULT = F32.of_int 80 /\
  HeadingSpec.correction (F32.of_int 40) GAIN_DEFAULT = F32.of_int 30 /\
  HeadingSpec.commanded (F32.of_int 30) 127 127 = Some (97, 127) /\
  HeadingSpec.commanded (F32.of_int (-30)) 127 127 = Some (127, 97) /\
  (forall fuel' gain' left' right',
      applyHeadingCorrection fuel' gain' left' right' PLUS_INFINITY (F32.of_int 0)
      = None) /\
  (forall fuel', HeadingSpec.wrap180 fuel' (F32.sub PLUS_INFINITY PLUS_INFINITY)
                 = Some QUIET_NAN) /\
  is_finite QUIET_NAN = false.
Proof.
  intros Ht Hc Hg Hl Hr. split.
  - destruct (wrap180_total fuel _ (heading_error_bound target current Ht Hc))
      as (e & W & Fe).
    destruct (wrap180_range _ _ _ W) as [G L].
    pose proof (applyHeadingCorrection_commanded _ gain left right _ _ _ W) as A.
    assert (N : F32.of_bits (F32.mul e gain) <> S754_nan)
      by (apply mul_not_nan; [apply finite32_is_finite; exact Fe|exact Hg]).
    destruct (correction_val _ N) as [Fk Bk].
    destruct (commanded_between _ left right Hl Hr Fk Bk) as (l' & r' & Cm & _).
    fold (HeadingSpec.correction e gain) in Cm.
    unfold HeadingSpec.commanded in Cm, A.
    destruct (F32.to_int (F32.sub (F32.of_int left) (HeadingSpec.correction e gain)))
      as [l|] eqn:El; [|discriminate].
    destruct (F32.to_int (F32.add (F32.of_int right) (HeadingSpec.correction e gain)))
      as [r|] eqn:Er; [|discriminate].
    exists e, l, r. split; [exact W|]. split; [apply finite32_is_finite; exact Fe|].
    split; [exact G|]. split; [exact L|]. split; [exact El|].
    split; [exact Er|]. exact A.
  - split; [vm_compute; reflexivity|]. split; [vm_compute; reflexivity|].
    split; [vm_compute; reflexivity|]. split; [vm_compute; reflexivity|].
    split; [vm_compute; reflexivity|]. split; [vm_compute; reflexivity|].
    split; [vm_compute; reflexivity|]. split; [|split].
    + intros fuel' gain' left' right'. apply infinite_heading_stuck.
      vm_compute. reflexivity.
    + intros fuel'. unfold HeadingSpec.wrap180.
      replace (F32.sub PLUS_INFINITY PLUS_INFINITY) with QUIET_NAN
        by (vm_compute; reflexivity).
      destruct fuel'; reflexivity.
    + vm_compute. reflexivity.
Qed.

Lemma heading_correction_formula_witness :
  exists error l r,
    HeadingSpec.wrap180 1 (F32.sub (F32.of_int 10) (F32.of_int 350)) = Some error /\
    is_finite error = true /\
    F32.gt error (F32.of_int 180) = false /\
    F32.lt error (F32.of_int (-180)) = false /\
    F32.to_int (F32.sub (F32.of_int 100) (HeadingSpec.correction error GAIN_DEFAULT))
    = Some l /\
    F32.to_int (F32.add (F32.of_int 100) (HeadingSpec.correction error GAIN_DEFAULT))
    = Some r /\
    applyHeadingCorrection 1 GAIN_DEFAULT 100 100 (F32.of_int 10) (F32.of_int 350)
    = Some (HeadingSpec.clampZ l (-127) 127, HeadingSpec.clampZ r (-127) 127).
Proof.
  refine (proj1 (heading_correction_formula 0 GAIN_DEFAULT 100 100
                   (F32.of_int 10) (F32.of_int 350) _ _ _ _ _)).
  - vm_compute. reflexivity.
  - vm_compute. reflexivity.
  - vm_compute. reflexivity.
  - unfold is_i8. lia.
  - unfold is_i8. lia.
Defined.

(** ** The round trip through the card *)

(** The frames of a recording session are well formed. *)
Lemma record_session_wf hw waits s :
  Forall frame_wf (recording (self (record_session hw waits s))).
Proof.
  unfold record_session.
  destruct (startRecording_form s) as [Es Ec].
  destruct (record_ticks_log hw waits (startRecording s) 0) as (_ & _ & W).
  - rewrite Es. reflexivity.
  - rewrite Es, Ec. cbn [recordStartTime]. unfold millis. rewrite Z.sub_diag.
    reflexivity.
  - apply W. rewrite Es. constructor.
Qed.

(** C5.  Saving a log of at most 15000 well-formed frames (the frames
    of a recording session are well formed) to a card that can be opened
    and has room for it succeeds and leaves an image of the log on the
    card.  Loading an image of the log, whatever its padding bytes and
    whatever log is in memory at the time -- the one just saved, none
    after a restart or [clearRecording], or another one -- succeeds and
    puts the same frames in memory, field for field and bit for bit. *)
Theorem save_load_roundtrip s :
  Forall frame_wf (recording (self s)) ->
  (length (recording (self s)) <= Z.to_nat MAX_FRAMES)%nat ->
  sd_mounted (world s) = true ->
  (4 + File.FRAME_SIZE * length (recording (self s)) <= sd_free (world s))%nat ->
  fst (saveToSD s) = true /\
  sd_mounted (world (snd (saveToSD s))) = true /\
  (exists bytes,
      sd_file (world (snd (saveToSD s))) = Some bytes /\
      image_of (recording (self s)) bytes) /\
  (forall s2 bytes,
      sd_mounted (world s2) = true ->
      sd_file (world s2) = Some bytes ->
      image_of (recording (self s)) bytes ->
      fst (loadFromSD s2) = true /\
      recording (self (snd (loadFromSD s2))) = recording (self s)) /\
  (forall hw waits s0,
      Forall frame_wf (recording (self (record_session hw waits s0)))).
Proof.
  intros Hwf Hn Hm Hfree. rewrite (saveToSD_fits s Hm Hfree). cbn [fst snd].
  split; [reflexivity|]. split; [reflexivity|]. split; [|split].
  - exists (file_image (recording (self s))). split; [reflexivity|].
    apply file_image_is_image.
  - intros s2 bytes Hm2 Hf2 Hi.
    rewrite (loadFromSD_image_of s2 (recording (self s)) bytes []);
      [split; reflexivity|exact Hm2| |exact Hi|exact Hwf|exact Hn].
    rewrite app_nil_r. exact Hf2.
  - intros hw waits s0. apply record_session_wf.
Qed.

Lemma save_load_roundtrip_witness :
  fst (saveToSD two_frames_to_save) = true /\
  fst (loadFromSD (initial (world (snd (saveToSD two_frames_to_save))))) = true /\
  recording (self (snd (loadFromSD (initial (world (snd (saveToSD two_frames_to_save)))))))
  = [frame_R1 20; frame_R1 40].
Proof.
  destruct (save_load_roundtrip two_frames_to_save) as (S & M & (bytes & Eb & Ib) & L & _).
  - repeat constructor; vm_compute; intuition discriminate.
  - vm_compute. lia.
  - reflexivity.
  - vm_compute. lia.
  - split; [exact S|].
    apply (L (initial (world (snd (saveToSD two_frames_to_save)))) bytes).
    + exact M.
    + exact Eb.
    + exact Ib.
Defined.
